(** * cbz-check-csc: the diagnostic pipeline of the Chinese writing checker

    A shallow embedding of [app.py] and of the engines under [checker/]
    ([rules.py], [lexicon.py], [patterns.py], [pos_patterns.py], [csc.py],
    [terms.py]), followed by the properties of the pipeline.

    Conventions of the embedding:
    - a Python [str] is the list of its Unicode codepoints ([text]); offsets
      are Python [int]s, i.e. [Z];
    - a Python [float] is only ever stored and copied by this code, never
      computed with, so confidences are rationals ([Q]);
    - dictionaries loaded from configuration are [gmap]s, sets are [gset]s;
    - the external collaborators (the [re] library for configured patterns,
      the jieba tagger, the spelling-correction model) are fields of an
      environment record. *)

From Stdlib Require Import ZArith NArith QArith List String Ascii Lia Bool Permutation Sorted.
From stdpp Require Import base option list sorting gmap sets strings.
Import ListNotations.

Local Open Scope Z_scope.

(** ** Python values *)

Definition char := N.
Definition text := list char.

(** Decoding of a UTF-8 byte string (the encoding of the source files) into
    codepoints, so that literals can be written as in the Python source. *)
Fixpoint utf8_aux (bs : list N) (need : nat) (acc : N) : text :=
  match bs with
  | [] => []
  | b :: bs' =>
    match need with
    | O =>
      if (b <? 128)%N then b :: utf8_aux bs' 0 0%N
      else if (b <? 224)%N then utf8_aux bs' 1 (N.land b 31)
      else if (b <? 240)%N then utf8_aux bs' 2 (N.land b 15)
      else utf8_aux bs' 3 (N.land b 7)
    | S k =>
      let acc' := (acc * 64 + N.land b 63)%N in
      match k with
      | O => acc' :: utf8_aux bs' 0 0%N
      | S _ => utf8_aux bs' k acc'
      end
    end
  end.

Definition utf8 (s : string) : text :=
  utf8_aux (map N_of_ascii (list_ascii_of_string s)) 0 0%N.

Definition len (t : text) : Z := Z.of_nat (length t).

(** [t[b:e]] with Python's treatment of negative and oversized indices. *)
Definition slice_index (n i : Z) : Z :=
  if i <? 0 then Z.max 0 (i + n) else Z.min i n.

Definition py_slice (t : text) (b e : Z) : text :=
  let lo := slice_index (len t) b in
  let hi := slice_index (len t) e in
  take (Z.to_nat (hi - lo)) (drop (Z.to_nat lo) t).

(** [t.startswith(sub)] *)
Fixpoint startswith (t sub : text) : bool :=
  match sub, t with
  | [], _ => true
  | _ :: _, [] => false
  | a :: sub', b :: t' => (a =? b)%N && startswith t' sub'
  end.

(** [t.find(sub, start)]: [find_from sub s pos] searches the suffix [s] of
    the text that begins at offset [pos]. *)
Fixpoint find_from (sub s : text) (pos : nat) : option nat :=
  match s with
  | [] => if startswith [] sub then Some pos else None
  | _ :: s' => if startswith s sub then Some pos else find_from sub s' (S pos)
  end.

Definition py_find (t sub : text) (start : Z) : Z :=
  let lo := if start <? 0 then Z.max 0 (start + len t) else start in
  if len t <? lo then -1
  else match find_from sub (drop (Z.to_nat lo) t) (Z.to_nat lo) with
       | Some i => Z.of_nat i
       | None => -1
       end.

(** [str.isspace] on one codepoint; also the class [\s] of [re] on [str]
    patterns. *)
Definition isspace (c : char) : bool :=
  ((9 <=? c) && (c <=? 13) || (28 <=? c) && (c <=? 32) || (c =? 133)
   || (c =? 160) || (c =? 5760) || (8192 <=? c) && (c <=? 8202)
   || (c =? 8232) || (c =? 8233) || (c =? 8239) || (c =? 8287)
   || (c =? 12288))%N.

Fixpoint lstrip (t : text) : text :=
  match t with
  | [] => []
  | c :: t' => if isspace c then lstrip t' else t
  end.

Definition rstrip (t : text) : text := rev (lstrip (rev t)).

(** [t.strip()] *)
Definition strip (t : text) : text := rstrip (lstrip t).

(** [sorted(set(l))] on strings: Python compares strings codepoint by
    codepoint.  [insert_uniq] puts a string at its place in an increasing
    list unless it is already there. *)
Fixpoint text_ltb (a b : text) : bool :=
  match a, b with
  | [], [] => false
  | [], _ :: _ => true
  | _ :: _, [] => false
  | x :: a', y :: b' => (x <? y)%N || (x =? y)%N && text_ltb a' b'
  end.

Fixpoint insert_uniq (x : text) (l : list text) : list text :=
  match l with
  | [] => [x]
  | y :: l' =>
    if text_ltb x y then x :: l
    else if text_ltb y x then y :: insert_uniq x l'
    else l
  end.

Definition sorted_set (l : list text) : list text := foldr insert_uniq [] l.

(** [l.sort(key=key)]: Python's sort is stable; an insertion sort that puts
    an element before the first element whose key is not smaller. *)
Fixpoint insert_by {A} (key : A -> Z) (x : A) (l : list A) : list A :=
  match l with
  | [] => [x]
  | y :: l' => if key x <=? key y then x :: l else y :: insert_by key x l'
  end.

Definition sort_by {A} (key : A -> Z) (l : list A) : list A :=
  foldr (insert_by key) [] l.

(** The outcome of a call that may raise an exception. *)
Inductive result (A : Type) : Type :=
| Ok (a : A)
| Raise.
Arguments Ok {A} a.
Arguments Raise {A}.

Definition rbind {A B} (r : result A) (k : A -> result B) : result B :=
  match r with
  | Ok a => k a
  | Raise => Raise
  end.

(** [try: ... except Exception: <fallback>] *)
Definition try_except {A} (r : result A) (fallback : A) : A :=
  match r with
  | Ok a => a
  | Raise => fallback
  end.

Fixpoint rmap {A B} (f : A -> result B) (l : list A) : result (list B) :=
  match l with
  | [] => Ok []
  | a :: l' => rbind (f a) (fun b => rbind (rmap f l') (fun bs => Ok (b :: bs)))
  end.

(** JSON values as [request.get_json] returns them. *)
Unset Elimination Schemes.
Inductive json : Type :=
| JNull
| JBool (b : bool)
| JNum (z : Z)
| JStr (s : text)
| JArr (l : list json)
| JObj (m : gmap string json).
Set Elimination Schemes.

(** Python truth value *)
Definition truthy (j : json) : bool :=
  match j with
  | JNull => false
  | JBool b => b
  | JNum z => negb (z =? 0)
  | JStr s => negb (bool_decide (s = []))
  | JArr l => match l with [] => false | _ :: _ => true end
  | JObj m => negb (bool_decide (m = ∅))
  end.

(** ** The issue record shared by all engines *)

Record issue := mk_issue {
  type : string;
  rule_id : string;
  begin : Z;
  end_ : Z;
  hit_text : text;
  suggestions : list text;
  evidence : text;
  confidence : Q;
  context_left : text;
  context_right : text
}.

Definition set_context (i : issue) (l r : text) : issue :=
  mk_issue (type i) (rule_id i) (begin i) (end_ i) (hit_text i)
           (suggestions i) (evidence i) (confidence i) l r.

(** ** checker/rules.py *)

Module Rules.

Definition _make_issue (rule_id : string) (begin end_ : Z) (t hit : text)
    (evidence : text) (suggestions : list text) (confidence : Q) : issue :=
  {| type := "rule";
     rule_id := rule_id;
     begin := begin;
     end_ := end_;
     hit_text := hit;
     suggestions := suggestions;
     evidence := evidence;
     confidence := confidence;
     context_left := py_slice t (Z.max 0 (begin - 8)) begin;
     context_right := py_slice t end_ (end_ + 8) |}.

(** [re.finditer] for a pattern without anchors or look-behind, whose
    matches are never empty: [match_at s] is the length of the match that
    begins at the head of the suffix [s], if there is one.  After a match
    the search resumes at its end ([skip] counts the characters still
    covered by the last match); otherwise it moves one character on. *)
Fixpoint finditer_by (match_at : text -> option nat) (skip pos : nat)
    (s : text) : list (nat * nat) :=
  match s with
  | [] => []
  | _ :: s' =>
    match skip with
    | S k => finditer_by match_at k (S pos) s'
    | O =>
      match match_at s with
      | Some n => (pos, (pos + n)%nat) :: finditer_by match_at (pred n) (S pos) s'
      | None => finditer_by match_at 0 (S pos) s'
      end
    end
  end.

Definition finditer (match_at : text -> option nat) (t : text) : list (nat * nat) :=
  finditer_by match_at 0 0 t.

(** Length of the longest prefix whose characters all satisfy [p]. *)
Fixpoint run_length (p : char -> bool) (s : text) : nat :=
  match s with
  | c :: s' => if p c then S (run_length p s') else O
  | [] => O
  end.

(** The class of the ideographs U+4E00 to U+9FFF. *)
Definition is_cjk (c : char) : bool := ((19968 <=? c) && (c <=? 40959))%N.

Definition ch (s : string) : char := hd 0%N (utf8 s).

Definition mem (c : char) (l : text) : bool := existsb (N.eqb c) l.

(** A greedy run of at least two characters that are U+3000 or in [\s]. *)
Definition multi_space_at (s : text) : option nat :=
  let r := run_length (fun c => (c =? 12288)%N || isspace c) s in
  if (2 <=? r)%nat then Some r else None.

(** [\s+(?=[，。；：！？、])]: the greedy run of whitespace must be followed
    by one of the punctuation marks; a shorter run is followed by whitespace,
    which is none of them, so backtracking cannot succeed. *)
Definition cn_punct : text := utf8 "，。；：！？、".

Definition space_before_cn_punct_at (s : text) : option nat :=
  let r := run_length isspace s in
  if (1 <=? r)%nat then
    match drop r s with
    | c :: _ => if mem c cn_punct then Some r else None
    | [] => None
    end
  else None.

(** [(I)\1{1,}], [I] the class of ideographs: an ideograph and the greedy
    run of its repetitions, at least one. *)
Definition repeat_char_at (s : text) : option nat :=
  match s with
  | c :: s' =>
    if is_cjk c then
      let k := run_length (N.eqb c) s' in
      if (1 <=? k)%nat then Some (S k) else None
    else None
  | [] => None
  end.

(** [(?:I{1,2})p(I)] for a particle [p], [I] the class of ideographs: two
    ideographs are tried first, then one.  Group 1 is the last character of
    the match. *)
Definition particle_at (p : char) (s : text) : option nat :=
  match s with
  | a :: b :: rest =>
    if is_cjk a then
      if is_cjk b && match rest with
                     | c :: d :: _ => (c =? p)%N && is_cjk d
                     | _ => false
                     end
      then Some 4%nat
      else if (b =? p)%N && match rest with
                            | c :: _ => is_cjk c
                            | [] => false
                            end
      then Some 3%nat
      else None
    else None
  | _ => None
  end.

(** An issue for a whole match [m]: [m.start()], [m.end()], [m.group()]. *)
Definition match_issue (rule_id : string) (t : text) (evidence : text)
    (suggestions : list text) (confidence : Q) (m : nat * nat) : issue :=
  let b := Z.of_nat (fst m) in
  let e := Z.of_nat (snd m) in
  _make_issue rule_id b e t (py_slice t b e) evidence suggestions confidence.

(** An issue for the particle of a match [m]: [begin = m.start(1) - 1], where
    group 1 starts at [m.end() - 1]. *)
Definition particle_issue (rule_id : string) (t : text) (hit : text)
    (evidence : text) (suggestions : list text) (confidence : Q)
    (m : nat * nat) : issue :=
  let begin := (Z.of_nat (snd m) - 1) - 1 in
  _make_issue rule_id begin (begin + 1) t hit evidence suggestions confidence.

Definition pairs : list (char * char) :=
  [ (ch "(", ch ")"); (ch "（", ch "）"); (ch "[", ch "]"); (ch "【", ch "】");
    (ch "《", ch "》"); (ch "「", ch "」"); (ch "『", ch "』"); (ch "“", ch "”");
    (ch "‘", ch "’") ].

(** [pairs.get(c)] *)
Fixpoint assoc_get (d : list (char * char)) (c : char) : option char :=
  match d with
  | [] => None
  | (k, v) :: d' => if (c =? k)%N then Some v else assoc_get d' c
  end.

Definition pairs_get (c : char) : option char := assoc_get pairs c.

(** [c in pairs] and [c in pairs.values()] *)
Definition in_pairs (c : char) : bool := mem c (map fst pairs).
Definition in_pairs_values (c : char) : bool := mem c (map snd pairs).

Definition unpaired_issue (t : text) (idx : Z) (c : char) : issue :=
  _make_issue "unpaired_bracket" idx (idx + 1) t [c]
    (utf8 "括号/引号不匹配") [utf8 "检查并匹配对应的左侧符号"] 0.6.

Definition unclosed_issue (t : text) (entry : char * Z) : issue :=
  _make_issue "unclosed_bracket" (snd entry) (snd entry + 1) t [fst entry]
    (utf8 "括号/引号未闭合") [utf8 "补全对应的右侧符号"] 0.6.

(** One iteration of the loop over [enumerate(text)].  The stack is kept
    with its top first, so that [stack.append] is a cons and [stack[-1]] the
    head; the result is the new stack and the issues appended. *)
Definition bracket_step (t : text) (idx : Z) (c : char)
    (stack : list (char * Z)) : list (char * Z) * list issue :=
  if in_pairs c then ((c, idx) :: stack, [])
  else if in_pairs_values c then
    match stack with
    | top :: stack' =>
      if bool_decide (pairs_get (fst top) = Some c) then (stack', [])
      else (stack, [unpaired_issue t idx c])
    | [] => (stack, [unpaired_issue t idx c])
    end
  else (stack, []).

Fixpoint bracket_loop (t : text) (idx : Z) (s : text)
    (stack : list (char * Z)) : list (char * Z) * list issue :=
  match s with
  | [] => (stack, [])
  | c :: s' =>
    let '(stack1, out1) := bracket_step t idx c stack in
    let '(stack2, out2) := bracket_loop t (idx + 1) s' stack1 in
    (stack2, out1 ++ out2)
  end.

(** The bracket part of [run_rule_checks]: the scan, then one issue per
    entry left on the stack, from the bottom of the stack to its top. *)
Definition bracket_issues (t : text) : list issue :=
  let '(stack, out) := bracket_loop t 0 t [] in
  out ++ map (unclosed_issue t) (rev stack).

Definition run_rule_checks (t : text) : list issue :=
  if bool_decide (t = []) then []
  else
    map (match_issue "multi_space" t (utf8 "连续空格") [utf8 "删除多余空格"] 0.85)
        (finditer multi_space_at t)
    ++ map (match_issue "space_before_cn_punct" t (utf8 "中文标点前空格")
              [utf8 "删除多余空格"] 0.8)
        (finditer space_before_cn_punct_at t)
    ++ map (match_issue "repeat_char" t (utf8 "连续重复汉字")
              [utf8 "删除重复字或合并为合适词"] 0.7)
        (finditer repeat_char_at t)
    ++ bracket_issues t
    ++ map (particle_issue "de_maybe_di" t (utf8 "的") (utf8 "可能应为“地”")
              [utf8 "将“的”改为“地”"] 0.55)
        (finditer (particle_at (ch "的")) t)
    ++ map (particle_issue "di_maybe_de" t (utf8 "地") (utf8 "可能应为“的”")
              [utf8 "将“地”改为“的”"] 0.55)
        (finditer (particle_at (ch "地")) t)
    ++ map (particle_issue "dei_maybe_de" t (utf8 "得") (utf8 "可能应为“地/的”")
              [utf8 "根据上下文调整“得”的用法"] 0.5)
        (finditer (particle_at (ch "得")) t).

End Rules.

(** ** checker/lexicon.py *)

Module Lexicon.

Definition _make_issue (rule_id : string) (begin end_ : Z) (t hit : text)
    (evidence : text) (suggestions : list text) (confidence : Q) : issue :=
  {| type := "lex";
     rule_id := rule_id;
     begin := begin;
     end_ := end_;
     hit_text := hit;
     suggestions := suggestions;
     evidence := evidence;
     confidence := confidence;
     context_left := py_slice t (Z.max 0 (begin - 8)) begin;
     context_right := py_slice t end_ (end_ + 8) |}.

Section Tables.

(** The module globals: the confusion table (a character to its list of
    alternatives, which the YAML override only requires to be non-empty
    strings) and the set of valid words. *)
Variable CONFUSION : gmap char (list text).
Variable VALID_WORDS : gset text.

(** [CONFUSION.get(ch, [])] *)
Definition confusion_get (c : char) : list text := default [] (CONFUSION !! c).

(** The body of the first loop, for the character [c] at [idx]. *)
Definition confusion_char (t : text) (idx : Z) (c : char) : list issue :=
  match CONFUSION !! c with
  | Some alts =>
    let suggestions := filter (fun x => x <> [c]) alts in
    match suggestions with
    | [] => []
    | _ :: _ =>
      [_make_issue "confusion_char" idx (idx + 1) t [c] (utf8 "可能写错字")
         suggestions 0.65]
    end
  | None => []
  end.

Fixpoint confusion_loop (t : text) (idx : Z) (s : text) : list issue :=
  match s with
  | [] => []
  | c :: s' => confusion_char t idx c ++ confusion_loop t (idx + 1) s'
  end.

(** The candidates that the alternatives of [c], the character of the window
    [w] at [pos], contribute to [smart_sug]; [w[0]] and [w[1]] are one
    character strings. *)
Definition candidates_at (w : text) (pos : nat) (c : char) : list text :=
  flat_map
    (fun alt =>
       if bool_decide (alt = [c]) then []
       else
         let cand := if (pos =? 0)%nat then alt ++ py_slice w 1 2
                     else py_slice w 0 1 ++ alt in
         if bool_decide (cand <> w) && bool_decide (cand ∈ VALID_WORDS)
         then [cand] else [])
    (confusion_get c).

Definition smart_sug (w : text) : list text :=
  concat (imap (candidates_at w) w).

(** The body of the second loop, for the window that begins at [i]. *)
Definition bigram_at (t : text) (i : nat) : list issue :=
  let w := py_slice t (Z.of_nat i) (Z.of_nat i + 2) in
  match smart_sug w with
  | [] => []
  | _ :: _ =>
    [_make_issue "confusion_bigram_suggested" (Z.of_nat i) (Z.of_nat i + 2) t w
       (utf8 "替换后构成常用二字词") (sorted_set (smart_sug w)) 0.72]
  end.

Definition bigram_loop (t : text) : list issue :=
  flat_map (bigram_at t) (seq 0 (length t - 1)).

Definition run_lex_checks (t : text) : list issue :=
  if bool_decide (t = []) then []
  else confusion_loop t 0 t ++ bigram_loop t.

End Tables.

(** The built-in tables. *)
Definition _DEFAULT_CONFUSION : gmap char (list text) :=
  let e (k : string) (vs : list string) := (Rules.ch k, map utf8 vs) in
  list_to_map
    [ e "在" ["再"]; e "再" ["在"]; e "形" ["型"]; e "型" ["形"];
      e "号" ["好"]; e "好" ["号"]; e "拟" ["你"; "泥"]; e "你" ["拟"; "倪"];
      e "泥" ["你"]; e "已" ["以"]; e "以" ["已"]; e "未" ["末"];
      e "末" ["未"]; e "经" ["竟"]; e "竟" ["经"]; e "因" ["应"];
      e "应" ["因"]; e "期" ["其"]; e "其" ["期"]; e "与" ["及"; "和"];
      e "及" ["与"]; e "和" ["与"]; e "到" ["倒"]; e "倒" ["到"] ]%string.

Definition fallback_words : gset text :=
  list_to_set (map utf8 ["你好"; "您好"; "问好"; "信号"; "编号"; "账号";
                         "友好"; "形象"; "效果"]%string).

End Lexicon.

(** ** checker/patterns.py *)

Module Patterns.

(** A compiled rule.  [finditer] is [self.regex.finditer]: the spans
    [(m.start(), m.end())] of the matches of the compiled pattern, in order;
    [m.group()] is the slice of the text between them. *)
Record RegexRule := {
  rule_id : string;
  hint : text;
  suggest : list text;
  confidence : Q;
  finditer : text -> list (Z * Z)
}.

Definition run (r : RegexRule) (t : text) : list issue :=
  map (fun m : Z * Z =>
         let '(b, e) := m in
         mk_issue "pattern" (rule_id r) b e (py_slice t b e) (suggest r)
                  (hint r) (confidence r)
                  (py_slice t (Z.max 0 (b - 8)) b) (py_slice t e (e + 8)))
      (finditer r t).

Definition run_pattern_checks (_REGEX_RULES : list RegexRule) (t : text)
    : list issue :=
  flat_map (fun r => run r t) _REGEX_RULES.

End Patterns.

(** ** checker/pos_patterns.py *)

Module PosPatterns.

Record PosToken := {
  word : text;
  tag : text;
  tok_begin : Z;
  tok_end : Z
}.

(** One entry of a rule's [sequence]: each key may be absent.  [regex] is
    [re.fullmatch] of the configured pattern on a word: whether it matches,
    or [Raise] when [re] rejects the pattern. *)
Record PosCond := {
  cond_word : option text;
  cond_regex : option (text -> result bool);
  cond_tag : option text
}.

Record PosRule := {
  rule_id : string;
  sequence : list PosCond;
  hint : text;
  suggest : list text;
  confidence : Q
}.

(** The three tests of the inner loop on one token; [false] is the [break]. *)
Definition cond_ok (cond : PosCond) (tok : PosToken) : result bool :=
  if match cond_word cond with
     | Some w => bool_decide (word tok <> w)
     | None => false
     end
  then Ok false
  else
    rbind (match cond_regex cond with
           | Some fullmatch => fullmatch (word tok)
           | None => Ok true
           end)
      (fun matched =>
         if negb matched then Ok false
         else match cond_tag cond with
              | Some expected => Ok (startswith (tag tok) expected)
              | None => Ok true
              end).

(** The inner loop over [enumerate(self.sequence)] on the tokens from [i]
    on; running out of tokens is the [IndexError] of [tokens[i + j]]. *)
Fixpoint sequence_ok (conds : list PosCond) (toks : list PosToken) : result bool :=
  match conds with
  | [] => Ok true
  | cond :: conds' =>
    match toks with
    | [] => Raise
    | tok :: toks' =>
      rbind (cond_ok cond tok)
        (fun ok => if ok then sequence_ok conds' toks' else Ok false)
    end
  end.

(** The dictionary that [PosRule.match] appends for the window at [i]; the
    two context fields are added by [run_pos_checks]. *)
Definition match_at (r : PosRule) (tokens : list PosToken) (i : nat)
    : result (list issue) :=
  let seq_len := length (sequence r) in
  rbind (sequence_ok (sequence r) (drop i tokens))
    (fun ok =>
       if ok then
         match tokens !! i, tokens !! (i + seq_len - 1)%nat with
         | Some first, Some last =>
           Ok [mk_issue "pos" (rule_id r) (tok_begin first) (tok_end last)
                 (concat (map word (take seq_len (drop i tokens))))
                 (suggest r) (hint r) (confidence r) [] []]
         | _, _ => Raise
         end
       else Ok []).

(** [PosRule.match]; the name is the method's, [match] being reserved. *)
Definition match_ (r : PosRule) (tokens : list PosToken) : result (list issue) :=
  let seq_len := length (sequence r) in
  let tok_count := length tokens in
  if (seq_len =? 0)%nat then Ok []
  else rbind (rmap (match_at r tokens) (seq 0 (tok_count + 1 - seq_len)))
         (fun ms => Ok (concat ms)).

(** The loop that rebuilds the offsets of the tokens of [pseg.cut]. *)
Fixpoint locate (t : text) (offset : Z) (cut : list (text * text))
    : list PosToken :=
  match cut with
  | [] => []
  | (w, tg) :: cut' =>
    let idx := py_find t w offset in
    let idx := if idx <? 0 then offset else idx in
    let e := idx + len w in
    {| word := w; tag := tg; tok_begin := idx; tok_end := e |}
    :: locate t e cut'
  end.

(** [pseg] is [None] when jieba cannot be imported; [pseg.cut] may raise. *)
Definition run_pos_checks (pseg : option (text -> result (list (text * text))))
    (_POS_RULES : list PosRule) (t : text) : result (list issue) :=
  match pseg with
  | None => Ok []
  | Some cut =>
    if bool_decide (t = []) then Ok []
    else
      rbind (cut t)
        (fun pairs =>
           let tokens := locate t 0 pairs in
           rbind (rmap (fun r => match_ r tokens) _POS_RULES)
             (fun ms =>
                Ok (map (fun m =>
                           set_context m
                             (py_slice t (Z.max 0 (begin m - 8)) (begin m))
                             (py_slice t (end_ m) (end_ m + 8)))
                        (concat ms))))
  end.

End PosPatterns.

(** ** checker/csc.py *)

Module Csc.

(** An offset as the model returns it, and [int()] on it. *)
Inductive pyobj :=
| PyInt (z : Z)
| PyNone.

Definition int (o : pyobj) : result Z :=
  match o with
  | PyInt z => Ok z
  | PyNone => Raise
  end.

(** One entry of [details]: [(old, new, begin, end)]. *)
Definition detail : Type := text * text * pyobj * pyobj.

(** The body of the loop over [details]. *)
Definition detail_issue (t : text) (d : detail) : list issue :=
  let '(old, new, b, e) := d in
  match rbind (int b) (fun begin_idx =>
          rbind (int e) (fun end_idx => Ok (begin_idx, end_idx))) with
  | Raise => []
  | Ok (begin_idx, end_idx) =>
    if (begin_idx <? 0) || (end_idx <=? begin_idx) || (len t <=? begin_idx)
    then []
    else
      [mk_issue "csc" "csc" begin_idx end_idx (py_slice t begin_idx end_idx)
         [new] (utf8 "拼写纠错模型建议") 0.9
         (py_slice t (Z.max 0 (begin_idx - 8)) begin_idx)
         (py_slice t end_idx (end_idx + 8))]
  end.

(** [_CSC_MODEL] after [load_csc_model]: [None] when the model could not be
    loaded, otherwise its [correct] method, which may raise. *)
Definition run_csc (_CSC_MODEL : option (text -> result (text * list detail)))
    (t : text) : list issue :=
  match _CSC_MODEL with
  | None => []
  | Some correct =>
    if bool_decide (t = []) then []
    else match correct t with
         | Raise => []
         | Ok (corrected, details) => flat_map (detail_issue t) details
         end
  end.

End Csc.

(** ** checker/terms.py *)

Module Terms.

Record TermEntry := {
  term : text;
  suggestions : list text;
  hint : text;
  confidence : Q
}.

(** [load_terms] keeps the entries of the YAML list whose term is a
    non-empty string. *)
Definition load_terms (entries : list TermEntry) : list TermEntry :=
  filter (fun e => term e <> []) entries.

Definition term_issue (t : text) (item : TermEntry) (idx : Z) : issue :=
  let e := idx + len (term item) in
  mk_issue "term" "invalid_term" idx e (term item) (suggestions item)
    (hint item) (confidence item)
    (py_slice t (Z.max 0 (idx - 8)) idx) (py_slice t e (e + 8)).

(** The [while True] loop for one entry, from the offset [start]; [None]
    when [fuel] iterations were not enough to leave it. *)
Fixpoint term_loop (fuel : nat) (t : text) (item : TermEntry) (start : Z)
    : option (list issue) :=
  match fuel with
  | O => None
  | S fuel' =>
    let idx := py_find t (term item) start in
    if idx =? -1 then Some []
    else
      let e := idx + len (term item) in
      cons (term_issue t item idx) <$> term_loop fuel' t item e
  end.

Fixpoint term_loops (fuel : nat) (t : text) (terms : list TermEntry)
    : option (list issue) :=
  match terms with
  | [] => Some []
  | item :: terms' =>
    out ← term_loop fuel t item 0;
    rest ← term_loops fuel t terms';
    Some (out ++ rest)
  end.

(** The loop of an entry is given [len(text) + 1] iterations: every
    iteration but the last moves [start] at least one character on
    (see [term_loop_total]). *)
Definition run_term_checks (entries : list TermEntry) (t : text)
    : option (list issue) :=
  if bool_decide (t = []) then Some []
  else
    let terms := load_terms entries in
    match terms with
    | [] => Some []
    | _ :: _ => term_loops (S (length t)) t terms
    end.

End Terms.

(** ** app.py *)

Module App.

(** What the engines read besides the text: the configuration caches and
    the external collaborators. *)
Record config := {
  CONFUSION : gmap char (list text);
  VALID_WORDS : gset text;
  _REGEX_RULES : list Patterns.RegexRule;
  _POS_RULES : list PosPatterns.PosRule;
  invalid_terms : list Terms.TermEntry;
  pseg : option (text -> result (list (text * text)));
  _CSC_MODEL : option (text -> result (text * list Csc.detail))
}.

(** The request body after [data.get]: [text] is absent (or null) or a
    string, [modes] is absent or any JSON value. *)
Record request := {
  req_text : option text;
  req_modes : option json
}.

Definition default_modes : json :=
  JObj (list_to_map [ ("rule", JBool true); ("lex", JBool true);
                      ("pat", JBool true); ("pos", JBool true);
                      ("csc", JBool false) ]%string).

(** [data.get('modes') or {...}] *)
Definition modes_of (req : request) : json :=
  match req_modes req with
  | Some m => if truthy m then m else default_modes
  | None => default_modes
  end.

(** [modes.get(key)]: only a dictionary has the method; a missing key gives
    [None]. *)
Definition modes_get (modes : json) (key : string) : result json :=
  match modes with
  | JObj m => Ok (default JNull (m !! key))
  | _ => Raise
  end.

(** [try: if modes.get(key): issues += engine except Exception: pass],
    as the list that is added to [issues]. *)
Definition guarded (modes : json) (key : string) (engine : result (list issue))
    : list issue :=
  try_except
    (rbind (modes_get modes key)
       (fun flag => if truthy flag then engine else Ok []))
    [].

Record summary_t := {
  count : Z;
  by_type : list (string * Z)
}.

Record response := {
  issues : list issue;
  summary : summary_t
}.

(** [sum(1 for i in issues if i.get('type') == ty)] *)
Definition count_type (l : list issue) (ty : string) : Z :=
  Z.of_nat (length (filter (fun i => type i = ty) l)).

Definition summarize (l : list issue) : summary_t :=
  {| count := Z.of_nat (length l);
     by_type := map (fun ty => (ty, count_type l ty))
                    ["rule"; "lex"; "pattern"; "pos"; "csc"; "term"]%string |}.

(** The issues in the order in which the engines add them. *)
Definition collect (cfg : config) (modes : json) (t : text)
    : option (list issue) :=
  terms ← Terms.run_term_checks (invalid_terms cfg) t;
  Some (guarded modes "rule" (Ok (Rules.run_rule_checks t))
        ++ guarded modes "lex"
             (Ok (Lexicon.run_lex_checks (CONFUSION cfg) (VALID_WORDS cfg) t))
        ++ guarded modes "pat"
             (Ok (Patterns.run_pattern_checks (_REGEX_RULES cfg) t))
        ++ guarded modes "pos"
             (PosPatterns.run_pos_checks (pseg cfg) (_POS_RULES cfg) t)
        ++ guarded modes "csc" (Ok (Csc.run_csc (_CSC_MODEL cfg) t))
        ++ terms).

(** [api_check], up to the friendly rendering, which reads the issues and
    leaves them and the summary as they are.  The result is [None] only if
    the term engine does not return. *)
Definition api_check (cfg : config) (req : request) : option response :=
  let t := strip (default [] (req_text req)) in
  let modes := modes_of req in
  collected ← collect cfg modes t;
  let sorted := sort_by begin collected in
  Some {| issues := sorted; summary := summarize sorted |}.

End App.

(** * Properties *)

(** ** Slices, prefixes and [find] *)

Lemma len_nonneg (t : text) : 0 <= len t.
Proof. unfold len. lia. Qed.

Lemma len_app (a b : text) : len (a ++ b) = len a + len b.
Proof. unfold len. rewrite length_app. lia. Qed.

Lemma py_slice_in_range (t : text) (b e : Z) :
  0 <= b -> b <= e -> e <= len t ->
  py_slice t b e = take (Z.to_nat (e - b)) (drop (Z.to_nat b) t).
Proof.
  intros Hb Hbe He. unfold py_slice, slice_index.
  destruct (Z.ltb_spec b 0); [lia|]. destruct (Z.ltb_spec e 0); [lia|].
  by rewrite !Z.min_l by lia.
Qed.

Lemma py_slice_length (t : text) (b e : Z) :
  0 <= b -> b <= e -> e <= len t -> len (py_slice t b e) = e - b.
Proof.
  intros Hb Hbe He. rewrite py_slice_in_range by done.
  unfold len in *. rewrite length_take, length_drop. lia.
Qed.

(** The slice between two offsets of a text split in three. *)
Lemma py_slice_middle (a m c : text) :
  py_slice (a ++ m ++ c) (len a) (len a + len m) = m.
Proof.
  pose proof (len_nonneg a). pose proof (len_nonneg m). pose proof (len_nonneg c).
  rewrite py_slice_in_range; try lia.
  - unfold len. rewrite Nat2Z.id, drop_app_length.
    replace (Z.to_nat _) with (length m) by lia. by rewrite take_app_length.
  - rewrite !len_app. lia.
Qed.

Lemma startswith_spec (t sub : text) :
  startswith t sub = true <-> exists r, t = sub ++ r.
Proof.
  revert t. induction sub as [|a sub IH]; intros t.
  - destruct t; simpl; split; eauto.
  - destruct t as [|b t]; simpl.
    + split; [done|]. intros [r Hr]. discriminate.
    + rewrite andb_true_iff, N.eqb_eq, IH. split.
      * intros [-> [r ->]]. eauto.
      * intros [r Hr]. injection Hr as -> ->. eauto.
Qed.

(** [sub] occurs in [t] at the offset [p]. *)
Definition occurs_at (t sub : text) (p : Z) : Prop :=
  0 <= p <= len t /\ startswith (drop (Z.to_nat p) t) sub = true.

Lemma occurs_at_split (t sub : text) (p : Z) :
  occurs_at t sub p <->
  exists a c, t = a ++ sub ++ c /\ len a = p.
Proof.
  unfold occurs_at. rewrite startswith_spec. split.
  - intros [Hp [r Hr]]. exists (take (Z.to_nat p) t), r. split.
    + by rewrite <- Hr, take_drop.
    + unfold len in *. rewrite length_take. lia.
  - intros (a & c & -> & <-). split.
    { pose proof (len_nonneg a). rewrite len_app. pose proof (len_nonneg (sub ++ c)). lia. }
    exists c. unfold len. by rewrite Nat2Z.id, drop_app_length.
Qed.

Lemma occurs_at_slice (t sub : text) (p : Z) :
  occurs_at t sub p ->
  p + len sub <= len t /\ py_slice t p (p + len sub) = sub.
Proof.
  rewrite occurs_at_split. intros (a & c & -> & <-). split.
  - rewrite !len_app. pose proof (len_nonneg c). lia.
  - apply py_slice_middle.
Qed.

Lemma find_from_spec (sub s : text) (pos : nat) :
  match find_from sub s pos with
  | Some i =>
      (pos <= i <= pos + length s)%nat /\
      startswith (drop (i - pos) s) sub = true /\
      forall j, (pos <= j < i)%nat -> startswith (drop (j - pos) s) sub = false
  | None => forall j, (pos <= j)%nat -> startswith (drop (j - pos) s) sub = false
  end.
Proof.
  revert pos. induction s as [|c s IH]; intros pos.
  - cbn [find_from]. destruct (startswith [] sub) eqn:E.
    + split; [simpl; lia|]. rewrite Nat.sub_diag. split; [done|]. intros; lia.
    + intros j _. by rewrite drop_nil.
  - cbn [find_from]. destruct (startswith (c :: s) sub) eqn:E.
    + split; [simpl; lia|]. rewrite Nat.sub_diag. split; [done|]. intros; lia.
    + specialize (IH (S pos)). destruct (find_from sub s (S pos)) as [i|].
      * destruct IH as (Hi & Hm & Hlt). split; [simpl; lia|]. split.
        -- replace (i - pos)%nat with (S (i - S pos)) by lia. done.
        -- intros j Hj. destruct (decide (j = pos)) as [->|].
           ++ by rewrite Nat.sub_diag.
           ++ replace (j - pos)%nat with (S (j - S pos)) by lia.
              apply Hlt. lia.
      * intros j Hj. destruct (decide (j = pos)) as [->|].
        -- by rewrite Nat.sub_diag.
        -- replace (j - pos)%nat with (S (j - S pos)) by lia. apply IH. lia.
Qed.

(** [t.find(sub, start)] for an offset [start] inside the text: the first
    occurrence at or after [start], or [-1] when there is none. *)
Lemma py_find_spec (t sub : text) (start : Z) :
  0 <= start <= len t ->
  let r := py_find t sub start in
  (r = -1 /\ forall p, start <= p -> ~ occurs_at t sub p) \/
  (start <= r /\ occurs_at t sub r /\
   forall p, start <= p < r -> ~ occurs_at t sub p).
Proof.
  intros Hs. unfold py_find.
  destruct (Z.ltb_spec start 0); [lia|]. destruct (Z.ltb_spec (len t) start); [lia|].
  pose proof (find_from_spec sub (drop (Z.to_nat start) t) (Z.to_nat start)) as Hf.
  destruct (find_from _ _ _) as [i|]; simpl.
  - right. destruct Hf as (Hi & Hm & Hlt). rewrite drop_drop in Hm.
    rewrite length_drop in Hi. unfold len in *.
    split; [lia|]. split.
    + unfold occurs_at, len. split; [lia|]. rewrite Nat2Z.id.
      by replace i with (Z.to_nat start + (i - Z.to_nat start))%nat at 1 by lia.
    + intros p Hp [_ Ho]. specialize (Hlt (Z.to_nat p)). rewrite drop_drop in Hlt.
      replace (Z.to_nat start + (Z.to_nat p - Z.to_nat start))%nat
        with (Z.to_nat p) in Hlt by lia.
      rewrite Hlt in Ho by lia. done.
  - left. split; [done|]. intros p Hp [_ Ho].
    specialize (Hf (Z.to_nat p)). rewrite drop_drop in Hf.
    replace (Z.to_nat start + (Z.to_nat p - Z.to_nat start))%nat
      with (Z.to_nat p) in Hf by lia.
    rewrite Hf in Ho by lia. done.
Qed.

(** ** The bracket and quote balance scan (rules.py) *)

Section Brackets.
Import Rules.

Lemma mem_In (c : char) (l : text) : mem c l = true <-> In c l.
Proof.
  unfold mem. rewrite existsb_exists. split.
  - intros (x & Hx & Heq). apply N.eqb_eq in Heq. by subst.
  - intros Hc. exists c. split; [done|]. apply N.eqb_refl.
Qed.

Lemma assoc_get_In (d : list (char * char)) (o c : char) :
  assoc_get d o = Some c -> In (o, c) d.
Proof.
  induction d as [|[k v] d IH]; simpl; [done|].
  destruct (N.eqb_spec o k) as [->|]; [|auto].
  intros [= ->]. by left.
Qed.

Lemma In_assoc_get (d : list (char * char)) (o c : char) :
  List.NoDup (map fst d) -> In (o, c) d -> assoc_get d o = Some c.
Proof.
  induction d as [|[k v] d IH]; simpl; [done|].
  intros Hnd [Heq|Hin].
  - injection Heq as -> ->. by rewrite N.eqb_refl.
  - inversion Hnd as [|? ? Hk Hnd']; subst.
    destruct (N.eqb_spec o k) as [->|]; [|auto].
    exfalso. apply Hk. apply (in_map fst) in Hin. done.
Qed.

Lemma pairs_keys_nodup : List.NoDup (map fst pairs).
Proof.
  apply NoDup_ListNoDup, (bool_decide_unpack _). by vm_compute.
Qed.

(** The table read as the spec does: [c] is the closer expected for [o]. *)
Definition closes (o c : char) : Prop := In (o, c) pairs.
Definition opener (c : char) : Prop := exists c', closes c c'.
Definition closer (c : char) : Prop := exists o, closes o c.

Lemma pairs_get_closes (o c : char) : pairs_get o = Some c <-> closes o c.
Proof.
  split; [apply assoc_get_In|apply In_assoc_get, pairs_keys_nodup].
Qed.

Lemma in_pairs_opener (c : char) : in_pairs c = true <-> opener c.
Proof.
  unfold in_pairs, opener, closes. rewrite mem_In, in_map_iff. split.
  - intros ([o c'] & <- & Hin). eauto.
  - intros (c' & Hin). by exists (c, c').
Qed.

Lemma in_pairs_values_closer (c : char) : in_pairs_values c = true <-> closer c.
Proof.
  unfold in_pairs_values, closer, closes. rewrite mem_In, in_map_iff. split.
  - intros ([o c'] & <- & Hin). eauto.
  - intros (o & Hin). by exists (o, c).
Qed.

(** No character of the table is both an opener and a closer. *)
Lemma closer_not_opener (c : char) : closer c -> in_pairs c = false.
Proof.
  intros [o Hin]. unfold closes, pairs in Hin. simpl in Hin.
  repeat (destruct Hin as [[= <- <-]|Hin]; [by vm_compute|]). done.
Qed.

(** The scan as the specification words it, as a relation between the stack
    before and after a suffix [s] of the text that begins at [idx], and the
    issues emitted for it. *)
Inductive spec_scan (t : text) : Z -> text -> list (char * Z) ->
    list (char * Z) -> list issue -> Prop :=
| scan_done idx stack :
    spec_scan t idx [] stack stack []
| scan_push idx c s stack stack' out :
    opener c ->
    spec_scan t (idx + 1) s ((c, idx) :: stack) stack' out ->
    spec_scan t idx (c :: s) stack stack' out
| scan_pop idx c s o i stack stack' out :
    closer c -> closes o c ->
    spec_scan t (idx + 1) s stack stack' out ->
    spec_scan t idx (c :: s) ((o, i) :: stack) stack' out
| scan_unpaired idx c s stack stack' out :
    closer c ->
    (forall o i rest, stack = (o, i) :: rest -> ~ closes o c) ->
    spec_scan t (idx + 1) s stack stack' out ->
    spec_scan t idx (c :: s) stack stack' (unpaired_issue t idx c :: out)
| scan_skip idx c s stack stack' out :
    ~ opener c -> ~ closer c ->
    spec_scan t (idx + 1) s stack stack' out ->
    spec_scan t idx (c :: s) stack stack' out.

Lemma bracket_loop_spec (t : text) (s : text) :
  forall idx stack,
    spec_scan t idx s stack (bracket_loop t idx s stack).1
              (bracket_loop t idx s stack).2.
Proof.
  induction s as [|c s IH]; intros idx stack; [constructor|].
  cbn [bracket_loop]. unfold bracket_step.
  destruct (in_pairs c) eqn:Hop.
  { specialize (IH (idx + 1) ((c, idx) :: stack)).
    destruct (bracket_loop t (idx + 1) s _) as [st out]. simpl in *.
    apply scan_push; [by apply in_pairs_opener|done]. }
  destruct (in_pairs_values c) eqn:Hcl.
  - apply in_pairs_values_closer in Hcl.
    destruct stack as [|[o i] stack].
    + specialize (IH (idx + 1) []).
      destruct (bracket_loop t (idx + 1) s _) as [st out]. simpl in *.
      apply scan_unpaired; [done| |done]. intros; discriminate.
    + simpl. case_bool_decide as Hget.
      * specialize (IH (idx + 1) stack).
        destruct (bracket_loop t (idx + 1) s _) as [st out]. simpl in *.
        apply scan_pop; [done| |done]. by apply pairs_get_closes.
      * specialize (IH (idx + 1) ((o, i) :: stack)).
        destruct (bracket_loop t (idx + 1) s _) as [st out]. simpl in *.
        apply scan_unpaired; [done| |done].
        intros o' i' rest [= -> -> ->] Hc. by apply Hget, pairs_get_closes.
  - specialize (IH (idx + 1) stack).
    destruct (bracket_loop t (idx + 1) s _) as [st out]. simpl in *.
    apply scan_skip; [| |done].
    + rewrite <- in_pairs_opener. congruence.
    + rewrite <- in_pairs_values_closer. congruence.
Qed.

(** The relation determines the final stack and the issues. *)
Lemma spec_scan_functional (t : text) idx s stack st1 out1 st2 out2 :
  spec_scan t idx s stack st1 out1 -> spec_scan t idx s stack st2 out2 ->
  st1 = st2 /\ out1 = out2.
Proof.
  intros H1. revert st2 out2.
  induction H1 as [idx stack|idx c s stack stack' out Hop _ IH
                  |idx c s o i stack stack' out Hcl Hoc _ IH
                  |idx c s stack stack' out Hcl Hno _ IH
                  |idx c s stack stack' out Hnop Hncl _ IH];
    intros st2 out2 H2; inversion H2; subst;
    try done;
    try (by apply IH);
    try (by exfalso; eauto);
    try (by exfalso;
         match goal with
         | Ho : opener ?c, Hc : closer ?c |- _ =>
             apply in_pairs_opener in Ho; apply closer_not_opener in Hc;
             congruence
         end);
    try (by exfalso;
         match goal with
         | Hn : forall o i rest, _ = _ -> ~ closes o _ |- _ => eapply Hn; eauto
         end).
  edestruct IH as [-> ->]; eauto.
Qed.

Lemma bracket_loop_app (t s1 s2 : text) :
  forall idx stack,
    bracket_loop t idx (s1 ++ s2) stack =
    let '(st1, out1) := bracket_loop t idx s1 stack in
    let '(st2, out2) := bracket_loop t (idx + len s1) s2 st1 in
    (st2, out1 ++ out2).
Proof.
  induction s1 as [|c s1 IH]; intros idx stack.
  - simpl. replace (idx + len []) with idx by (unfold len; simpl; lia).
    by destruct (bracket_loop t idx s2 stack).
  - cbn [app bracket_loop]. destruct (bracket_step t idx c stack) as [st0 out0].
    rewrite IH. destruct (bracket_loop t (idx + 1) s1 st0) as [st1 out1].
    replace (idx + len (c :: s1)) with (idx + 1 + len s1)
      by (unfold len; simpl length; lia).
    destruct (bracket_loop t (idx + 1 + len s1) s2 st1) as [st2 out2].
    by rewrite app_assoc.
Qed.

(** Texts whose pairs are fully balanced: every opener is closed by its own
    closer, properly nested; other characters are free. *)
Inductive balanced : text -> Prop :=
| balanced_nil : balanced []
| balanced_other c s :
    ~ opener c -> ~ closer c -> balanced s -> balanced (c :: s)
| balanced_pair o c s1 s2 :
    closes o c -> balanced s1 -> balanced s2 ->
    balanced (o :: s1 ++ c :: s2).

Lemma bracket_loop_balanced (t s : text) :
  balanced s -> forall idx stack, bracket_loop t idx s stack = (stack, []).
Proof.
  induction 1 as [|c s Hnop Hncl _ IH|o c s1 s2 Hoc _ IH1 _ IH2];
    intros idx stack; [done| |].
  - cbn [bracket_loop]. unfold bracket_step.
    destruct (in_pairs c) eqn:Hop; [by apply in_pairs_opener in Hop|].
    destruct (in_pairs_values c) eqn:Hcl;
      [by apply in_pairs_values_closer in Hcl|].
    by rewrite IH.
  - cbn [bracket_loop]. unfold bracket_step at 1.
    assert (in_pairs o = true) as -> by (apply in_pairs_opener; by exists c).
    rewrite bracket_loop_app, IH1. cbn [bracket_loop]. unfold bracket_step.
    rewrite (closer_not_opener c) by (by exists o).
    assert (in_pairs_values c = true) as ->
      by (apply in_pairs_values_closer; by exists o).
    simpl. rewrite bool_decide_true by (by apply pairs_get_closes).
    by rewrite IH2.
Qed.

Definition bracket_rule (i : issue) : Prop :=
  rule_id i = "unpaired_bracket"%string \/ rule_id i = "unclosed_bracket"%string.

#[local] Instance bracket_rule_dec i : Decision (bracket_rule i).
Proof. unfold bracket_rule. apply _. Defined.

Lemma filter_map_none {A B} (P : B -> Prop) `{!forall x, Decision (P x)}
    (f : A -> B) (l : list A) :
  (forall a, ~ P (f a)) -> filter P (map f l) = [].
Proof.
  intros Hn. induction l as [|a l IH]; [done|]. simpl.
  rewrite filter_cons_False by apply Hn. done.
Qed.

Lemma filter_all {A} (P : A -> Prop) `{!forall x, Decision (P x)} (l : list A) :
  Forall P l -> filter P l = l.
Proof.
  induction 1 as [|a l Ha _ IH]; [done|].
  rewrite filter_cons_True by done. by rewrite IH.
Qed.

Lemma drop_cons_inv {A} (l : list A) (n : nat) (x : A) (s : list A) :
  drop n l = x :: s -> l !! n = Some x /\ drop (S n) l = s.
Proof.
  intros Hd. assert (l !! n = Some x) as Hl.
  { pose proof (lookup_drop l n 0) as H0. rewrite Hd, Nat.add_0_r in H0. done. }
  split; [done|]. rewrite (drop_S _ _ _ Hl) in Hd. by injection Hd.
Qed.

(** Every issue of the scan is for a character of the text, at its index. *)
Lemma bracket_issues_Forall (P : issue -> Prop) (t : text) :
  (forall idx c, 0 <= idx -> t !! Z.to_nat idx = Some c ->
                 P (unpaired_issue t idx c)) ->
  (forall idx c, 0 <= idx -> t !! Z.to_nat idx = Some c ->
                 P (unclosed_issue t (c, idx))) ->
  Forall P (bracket_issues t).
Proof.
  intros Hunp Hunc.
  set (valid := fun e : char * Z => 0 <= e.2 /\ t !! Z.to_nat e.2 = Some e.1).
  assert (forall s idx stack,
            0 <= idx -> drop (Z.to_nat idx) t = s -> Forall valid stack ->
            Forall valid (bracket_loop t idx s stack).1 /\
            Forall P (bracket_loop t idx s stack).2) as Hl.
  { induction s as [|c s IH]; intros idx stack Hidx Hd Hst; [by split|].
    cbn [bracket_loop].
    apply drop_cons_inv in Hd as [Hc Hd].
    replace (S (Z.to_nat idx)) with (Z.to_nat (idx + 1)) in Hd by lia.
    assert (0 <= idx + 1) as Hidx' by lia.
    pose proof (fun st => IH (idx + 1) st Hidx' Hd) as IH'.
    unfold bracket_step.
    destruct (in_pairs c).
    { specialize (IH' ((c, idx) :: stack)).
      destruct (bracket_loop t (idx + 1) s _) as [st out]. simpl in *.
      apply IH'. constructor; [by split|done]. }
    destruct (in_pairs_values c).
    - destruct stack as [|top stack].
      + specialize (IH' [] Hst).
        destruct (bracket_loop t (idx + 1) s _) as [st out]. simpl in *.
        split; [apply IH'|]. constructor; [by apply Hunp|apply IH'].
      + case_bool_decide.
        * apply Forall_cons in Hst as [_ Hst']. specialize (IH' stack Hst').
          destruct (bracket_loop t (idx + 1) s _) as [st out]. simpl in *.
          done.
        * specialize (IH' (top :: stack) Hst).
          destruct (bracket_loop t (idx + 1) s _) as [st out]. simpl in *.
          split; [apply IH'|]. constructor; [by apply Hunp|apply IH'].
    - specialize (IH' stack Hst).
      destruct (bracket_loop t (idx + 1) s _) as [st out]. simpl in *. done. }
  unfold bracket_issues.
  specialize (Hl t 0 [] (Z.le_refl 0) eq_refl (Forall_nil_2 _)).
  destruct (bracket_loop t 0 t []) as [st out]. simpl in Hl.
  destruct Hl as [Hst Hout]. apply Forall_app. split; [done|].
  apply Forall_map, Forall_rev. eapply Forall_impl; [exact Hst|].
  intros [o i] [Hi Ho]. by apply Hunc.
Qed.

Lemma bracket_issues_rule (t : text) : Forall bracket_rule (bracket_issues t).
Proof. apply bracket_issues_Forall; intros; [by left|by right]. Qed.

(** The bracket issues of [run_rule_checks] are those of the scan. *)
Lemma run_rule_checks_brackets (t : text) :
  filter bracket_rule (run_rule_checks t) = bracket_issues t.
Proof.
  unfold run_rule_checks. case_bool_decide as Ht; [by subst|].
  rewrite !filter_app.
  rewrite !filter_map_none by (intros a [?|?]; discriminate).
  rewrite (filter_all _ _ (bracket_issues_rule t)). simpl. by rewrite app_nil_r.
Qed.

End Brackets.

Definition issue_key (i : issue) : string * Z * Z * text :=
  (rule_id i, begin i, end_ i, hit_text i).

(** C4. The bracket scan of [run_rule_checks] is the scan of the
    specification: an opener is pushed with its index; a closer pops the
    stack if and only if the stack is not empty and its top expects this
    closer, and otherwise adds one unpaired issue at the closer's index and
    leaves the stack as it is; after the scan every entry left on the stack
    gives one unclosed issue, from the bottom of the stack to its top; both
    kinds of issue span one character and have confidence 0.6.  A text whose
    pairs are balanced has no bracket issue; "（测试" has exactly the unclosed
    issue at index 0 and "测试）" exactly the unpaired issue at index 2. *)
Theorem bracket_scan_matches_spec :
  (forall t, exists stack out,
      Rules.bracket_loop t 0 t [] = (stack, out) /\
      spec_scan t 0 t [] stack out /\
      (forall stack' out', spec_scan t 0 t [] stack' out' ->
                           stack' = stack /\ out' = out) /\
      filter bracket_rule (Rules.run_rule_checks t)
      = out ++ map (Rules.unclosed_issue t) (rev stack)) /\
  (forall t idx c,
      let i := Rules.unpaired_issue t idx c in
      rule_id i = "unpaired_bracket"%string /\ begin i = idx /\
      end_ i = idx + 1 /\ hit_text i = [c] /\ confidence i = 0.6%Q) /\
  (forall t o idx,
      let i := Rules.unclosed_issue t (o, idx) in
      rule_id i = "unclosed_bracket"%string /\ begin i = idx /\
      end_ i = idx + 1 /\ hit_text i = [o] /\ confidence i = 0.6%Q) /\
  (forall t, balanced t -> filter bracket_rule (Rules.run_rule_checks t) = []) /\
  map issue_key (filter bracket_rule (Rules.run_rule_checks (utf8 "（测试")))
  = [("unclosed_bracket"%string, 0, 1, utf8 "（")] /\
  map issue_key (filter bracket_rule (Rules.run_rule_checks (utf8 "测试）")))
  = [("unpaired_bracket"%string, 2, 3, utf8 "）")].
Proof.
  split; [|split; [|split; [|split; [|split]]]].
  - intros t. pose proof (bracket_loop_spec t t 0 []) as Hs.
    pose proof (run_rule_checks_brackets t) as Hr.
    unfold Rules.bracket_issues in Hr.
    destruct (Rules.bracket_loop t 0 t []) as [stack out] eqn:E.
    exists stack, out. split; [done|]. split; [done|]. split; [|done].
    intros stack' out' H'. by apply (spec_scan_functional t 0 t []).
  - intros t idx c. by cbn.
  - intros t o idx. by cbn.
  - intros t Hb. rewrite run_rule_checks_brackets. unfold Rules.bracket_issues.
    by rewrite bracket_loop_balanced.
  - by vm_compute.
  - by vm_compute.
Qed.

Lemma bracket_scan_matches_spec_witness :
  balanced (utf8 "（测试）") /\
  filter bracket_rule (Rules.run_rule_checks (utf8 "（测试）")) = [].
Proof.
  assert (balanced (utf8 "（测试）")) as Hb.
  { change (utf8 "（测试）")
      with (Rules.ch "（" :: utf8 "测试" ++ Rules.ch "）" :: []).
    apply balanced_pair.
    - unfold closes. apply list_elem_of_In. by vm_compute; set_solver.
    - change (utf8 "测试") with [27979%N; 35797%N].
      apply balanced_other; [| |apply balanced_other; [| |constructor]];
        rewrite <- ?in_pairs_opener, <- ?in_pairs_values_closer; by vm_compute.
    - constructor. }
  split; [done|].
  by apply (proj1 (proj2 (proj2 (proj2 bracket_scan_matches_spec)))).
Defined.

(** ** [sorted(set(l))] *)

Definition text_lt (a b : text) : Prop := text_ltb a b = true.

Lemma text_ltb_irrefl (a : text) : text_ltb a a = false.
Proof.
  induction a as [|x a IH]; [done|]. simpl.
  by rewrite N.ltb_irrefl, N.eqb_refl, IH.
Qed.

Lemma text_ltb_trans (a b c : text) :
  text_ltb a b = true -> text_ltb b c = true -> text_ltb a c = true.
Proof.
  revert b c. induction a as [|x a IH]; intros [|y b] [|z c]; simpl; try done.
  rewrite !orb_true_iff, !andb_true_iff, !N.ltb_lt, !N.eqb_eq.
  intros [Hxy|[-> Hab]] [Hyz|[-> Hbc]]; try (left; lia); eauto.
Qed.

Lemma text_ltb_total (a b : text) :
  text_ltb a b = false -> text_ltb b a = false -> a = b.
Proof.
  revert b. induction a as [|x a IH]; intros [|y b]; simpl; try done.
  rewrite !orb_false_iff, !andb_false_iff, !N.ltb_ge, !N.eqb_neq.
  intros [Hxy Ha] [Hyx Hb]. assert (x = y) as -> by lia.
  f_equal. apply IH; [by destruct Ha|by destruct Hb].
Qed.

#[local] Instance text_lt_trans : Transitive text_lt.
Proof. intros a b c. apply text_ltb_trans. Qed.

Lemma insert_uniq_In (x y : text) (l : list text) :
  In y (insert_uniq x l) <-> y = x \/ In y l.
Proof.
  induction l as [|z l IH]; simpl; [intuition congruence|].
  destruct (text_ltb x z) eqn:Hxz; simpl; [intuition congruence|].
  destruct (text_ltb z x) eqn:Hzx; simpl.
  - rewrite IH. intuition congruence.
  - rewrite (text_ltb_total _ _ Hxz Hzx). intuition congruence.
Qed.

Lemma insert_uniq_Sorted (x : text) (l : list text) :
  Sorted text_lt l -> Sorted text_lt (insert_uniq x l).
Proof.
  induction 1 as [|z l Hs IH Hhd]; simpl; [by repeat constructor|].
  destruct (text_ltb x z) eqn:Hxz; [by repeat constructor|].
  destruct (text_ltb z x) eqn:Hzx; [|by constructor].
  constructor; [done|]. destruct l as [|u l]; simpl; [by constructor|].
  inversion Hhd; subst. repeat case_match; by constructor.
Qed.

Lemma sorted_set_In (l : list text) (y : text) : In y (sorted_set l) <-> In y l.
Proof.
  induction l as [|x l IH]; simpl; [done|].
  rewrite insert_uniq_In, IH. intuition congruence.
Qed.

(** The result increases strictly from each element to every later one; in
    particular no string is repeated. *)
Lemma sorted_set_sorted (l : list text) : StronglySorted text_lt (sorted_set l).
Proof.
  apply Sorted_StronglySorted; [apply text_lt_trans|].
  induction l as [|x l IH]; simpl; [constructor|]. by apply insert_uniq_Sorted.
Qed.

(** ** The bigram scan (lexicon.py) *)

Section Bigram.
Import Lexicon.
Variable CONFUSION : gmap char (list text).
Variable VALID_WORDS : gset text.

(** The window [w] with its position [p] replaced by [alt]. *)
Definition substitute (w : text) (p : nat) (alt : text) : text :=
  take p w ++ alt ++ drop (S p) w.

(** [cand] comes from [w] by replacing one of its two positions by a
    confusion alternative of the character there, is a valid word and is
    not [w]. *)
Definition valid_substitution (w cand : text) : Prop :=
  exists (p : nat) (c : char) (alt : text),
    (p = 0 \/ p = 1)%nat /\ w !! p = Some c /\
    In alt (confusion_get CONFUSION c) /\
    cand = substitute w p alt /\ cand ∈ VALID_WORDS /\ cand <> w.

Lemma window_slice (t : text) (i : nat) :
  (S i < length t)%nat ->
  exists a b, t !! i = Some a /\ t !! S i = Some b /\
              py_slice t (Z.of_nat i) (Z.of_nat i + 2) = [a; b].
Proof.
  intros Hi.
  destruct (lookup_lt_is_Some_2 t i) as [a Ha]; [lia|].
  destruct (lookup_lt_is_Some_2 t (S i)) as [b Hb]; [lia|].
  exists a, b. split; [done|]. split; [done|].
  rewrite py_slice_in_range by (unfold len; lia).
  replace (Z.to_nat (Z.of_nat i + 2 - Z.of_nat i)) with 2%nat by lia.
  rewrite Nat2Z.id.
  rewrite (drop_S _ _ _ Ha). simpl. rewrite (drop_S _ _ _ Hb). done.
Qed.

Lemma candidates_at_In (a b : char) (pos : nat) (c : char) (cand : text) :
  [a; b] !! pos = Some c ->
  In cand (candidates_at CONFUSION VALID_WORDS [a; b] pos c) <->
  exists alt, In alt (confusion_get CONFUSION c) /\
              cand = substitute [a; b] pos alt /\
              cand ∈ VALID_WORDS /\ cand <> [a; b].
Proof.
  intros Hc. unfold candidates_at. rewrite in_flat_map.
  assert (forall alt,
    (if (pos =? 0)%nat then alt ++ py_slice [a; b] 1 2
     else py_slice [a; b] 0 1 ++ alt) = substitute [a; b] pos alt) as Hsub.
  { intros alt. destruct pos as [|[|pos]]; simpl in Hc; try done.
    unfold substitute. simpl. by rewrite app_nil_r. }
  split.
  - intros (alt & Halt & Hin). exists alt. rewrite Hsub in Hin.
    repeat case_bool_decide; simpl in Hin; try tauto.
    destruct Hin as [<-|[]]. done.
  - intros (alt & Halt & -> & Hv & Hne). exists alt. split; [done|].
    rewrite Hsub. case_bool_decide as Heq.
    + exfalso. apply Hne. subst alt.
      destruct pos as [|[|pos]]; simpl in Hc; by simplify_eq.
    + rewrite !bool_decide_true by done. by left.
Qed.

Lemma smart_sug_In (a b : char) (cand : text) :
  In cand (smart_sug CONFUSION VALID_WORDS [a; b]) <->
  valid_substitution [a; b] cand.
Proof.
  unfold smart_sug. simpl. rewrite app_nil_r, in_app_iff.
  rewrite (candidates_at_In a b 0 a) by done.
  rewrite (candidates_at_In a b 1 b) by done.
  unfold valid_substitution. split.
  - intros [(alt & ? & ? & ? & ?)|(alt & ? & ? & ? & ?)];
      [exists 0%nat, a, alt|exists 1%nat, b, alt]; repeat split; auto.
  - intros (p & c & alt & [->| ->] & Hc & ? & ? & ? & ?); simpl in Hc;
      injection Hc as <-; [left|right]; exists alt; repeat split; auto.
Qed.

Lemma bigram_loop_In (t : text) (x : issue) :
  In x (bigram_loop CONFUSION VALID_WORDS t) <->
  exists i, (S i < length t)%nat /\
            In x (bigram_at CONFUSION VALID_WORDS t i).
Proof.
  unfold bigram_loop. rewrite in_flat_map. split.
  - intros (i & Hi & Hx). apply in_seq in Hi. exists i. split; [lia|done].
  - intros (i & Hi & Hx). exists i. split; [|done]. apply in_seq. lia.
Qed.

Lemma bigram_at_begin (t : text) (i : nat) (x : issue) :
  In x (bigram_at CONFUSION VALID_WORDS t i) -> begin x = Z.of_nat i.
Proof.
  unfold bigram_at. destruct (smart_sug _ _ _); [done|].
  by intros [<-|[]].
Qed.

Lemma bigram_at_rule (t : text) (i : nat) (x : issue) :
  In x (bigram_at CONFUSION VALID_WORDS t i) ->
  rule_id x = "confusion_bigram_suggested"%string.
Proof.
  unfold bigram_at. destruct (smart_sug _ _ _); [done|].
  by intros [<-|[]].
Qed.

Lemma confusion_loop_rule (t s : text) (idx : Z) (x : issue) :
  In x (confusion_loop CONFUSION t idx s) ->
  rule_id x = "confusion_char"%string.
Proof.
  revert idx. induction s as [|c s IH]; intros idx; simpl; [done|].
  rewrite in_app_iff. intros [Hx|Hx]; [|by eapply IH].
  unfold confusion_char in Hx. repeat case_match; try done.
  by destruct Hx as [<-|[]].
Qed.

(** The issues for the window at [i] among those of the whole scan. *)
Definition bigram_issue_at (i : nat) (x : issue) : Prop :=
  rule_id x = "confusion_bigram_suggested"%string /\ begin x = Z.of_nat i.

#[local] Instance bigram_issue_at_dec i x : Decision (bigram_issue_at i x).
Proof. unfold bigram_issue_at. apply _. Defined.

Lemma filter_none {A} (P : A -> Prop) `{!forall x, Decision (P x)} (l : list A) :
  (forall x, In x l -> ~ P x) -> filter P l = [].
Proof.
  induction l as [|a l IH]; intros Hn; [done|].
  rewrite filter_cons_False by (apply Hn; by left).
  apply IH. intros x Hx. apply Hn. by right.
Qed.

Lemma bigram_loop_filter (t : text) (i : nat) :
  (S i < length t)%nat ->
  filter (bigram_issue_at i) (bigram_loop CONFUSION VALID_WORDS t)
  = bigram_at CONFUSION VALID_WORDS t i.
Proof.
  intros Hi. unfold bigram_loop.
  assert (forall n s, (s <= i < s + n)%nat ->
            filter (bigram_issue_at i)
              (flat_map (bigram_at CONFUSION VALID_WORDS t) (seq s n))
            = bigram_at CONFUSION VALID_WORDS t i) as Hgen.
  { induction n as [|n IH]; intros s Hs; [lia|].
    simpl. rewrite filter_app. destruct (decide (s = i)) as [->|Hne].
    - rewrite filter_all.
      2:{ apply Forall_forall. intros x Hx%list_elem_of_In. split;
            [by eapply bigram_at_rule|by eapply bigram_at_begin]. }
      rewrite filter_none; [by rewrite app_nil_r|].
      intros x (j & Hj & Hx)%in_flat_map [_ Hb].
      apply in_seq in Hj. apply bigram_at_begin in Hx. lia.
    - rewrite filter_none.
      2:{ intros x Hx [_ Hb]. apply bigram_at_begin in Hx. lia. }
      simpl. apply IH. lia. }
  apply Hgen. lia.
Qed.

Lemma run_lex_checks_filter (t : text) (i : nat) :
  (S i < length t)%nat ->
  filter (bigram_issue_at i) (run_lex_checks CONFUSION VALID_WORDS t)
  = bigram_at CONFUSION VALID_WORDS t i.
Proof.
  intros Hi. unfold run_lex_checks.
  case_bool_decide as Ht; [subst; simpl in Hi; lia|].
  rewrite filter_app, bigram_loop_filter by done.
  rewrite filter_none; [done|].
  intros x Hx [Hr _]. apply confusion_loop_rule in Hx. congruence.
Qed.

(** C6. For the window [w] of two adjacent characters at [i], the scan of
    [run_lex_checks] emits a bigram issue if and only if replacing one of
    the two positions of [w] by a confusion alternative of the character
    there gives a valid word other than [w].  When it does, it emits exactly
    one, which spans the window, has confidence 0.72, and whose suggestions
    are the sorted set of the candidates: strictly increasing, and with
    exactly those substitutions as members. *)
Theorem bigram_issue_iff (t : text) (i : nat) (a b : char) :
  t !! i = Some a -> t !! S i = Some b ->
  let w := [a; b] in
  let here := filter (bigram_issue_at i)
                     (run_lex_checks CONFUSION VALID_WORDS t) in
  ((exists x, In x here) <-> (exists cand, valid_substitution w cand)) /\
  (forall x, In x here ->
     here = [x] /\
     begin x = Z.of_nat i /\ end_ x = Z.of_nat i + 2 /\ hit_text x = w /\
     confidence x = 0.72%Q /\
     suggestions x = sorted_set (smart_sug CONFUSION VALID_WORDS w) /\
     StronglySorted text_lt (suggestions x) /\
     (forall cand, In cand (suggestions x) <-> valid_substitution w cand)).
Proof.
  intros Ha Hb w here.
  assert (S i < length t)%nat as Hi by (by apply lookup_lt_Some in Hb).
  destruct (window_slice t i Hi) as (a' & b' & Ha' & Hb' & Hw).
  assert (a' = a) as -> by congruence. assert (b' = b) as -> by congruence.
  subst here. rewrite run_lex_checks_filter by done.
  unfold bigram_at. rewrite Hw. fold w.
  destruct (smart_sug CONFUSION VALID_WORDS w) as [|cand0 rest] eqn:Hs.
  - split; [|by intros x []]. split; [by intros [x []]|].
    intros [cand Hc%smart_sug_In]. fold w in Hc. rewrite Hs in Hc. done.
  - split.
    + split; [|eauto using in_eq]. intros _. exists cand0.
      apply smart_sug_In. fold w. rewrite Hs. by left.
    + intros x [<-|[]]. rewrite <- Hs. unfold _make_issue.
      cbn [begin end_ hit_text confidence suggestions].
      split; [reflexivity|]. do 5 (split; [reflexivity|]). split.
      * apply sorted_set_sorted.
      * intros cand. rewrite sorted_set_In. apply smart_sug_In.
Qed.

End Bigram.

Lemma bigram_issue_iff_witness :
  let t := utf8 "拟好" in
  let here := filter (bigram_issue_at 0)
                (Lexicon.run_lex_checks Lexicon._DEFAULT_CONFUSION
                   Lexicon.fallback_words t) in
  (exists x, In x here) <->
  (exists cand, valid_substitution Lexicon._DEFAULT_CONFUSION
                  Lexicon.fallback_words [Rules.ch "拟"; Rules.ch "好"] cand).
Proof.
  intros t here.
  assert (t !! 0%nat = Some (Rules.ch "拟")) as Ha by (vm_compute; reflexivity).
  assert (t !! 1%nat = Some (Rules.ch "好")) as Hb by (vm_compute; reflexivity).
  exact (proj1 (bigram_issue_iff Lexicon._DEFAULT_CONFUSION
                  Lexicon.fallback_words t 0 _ _ Ha Hb)).
Defined.

(** ** The term engine (terms.py) *)

Section TermSearch.
Import Terms.

(** The search as the specification words it: from [start], the offsets of
    the matches of [sub], each the first occurrence at or after the end of
    the match before it. *)
Inductive spec_search (t sub : text) : Z -> list Z -> Prop :=
| search_done start :
    (forall p, start <= p -> ~ occurs_at t sub p) ->
    spec_search t sub start []
| search_hit start p ps :
    start <= p -> occurs_at t sub p ->
    (forall q, start <= q < p -> ~ occurs_at t sub q) ->
    spec_search t sub (p + len sub) ps ->
    spec_search t sub start (p :: ps).

Lemma spec_search_functional (t sub : text) (start : Z) (ps1 ps2 : list Z) :
  spec_search t sub start ps1 -> spec_search t sub start ps2 -> ps1 = ps2.
Proof.
  intros H1. revert ps2.
  induction H1 as [start Hno|start p ps Hp Ho Hfirst _ IH]; intros ps2 H2;
    inversion H2 as [? Hno2|? p2 ps' Hp2 Ho2 Hfirst2 Hrest]; subst.
  - done.
  - by destruct (Hno p2).
  - by destruct (Hno2 p).
  - assert (p = p2) as <-.
    { destruct (Z.lt_trichotomy p p2) as [Hlt|[Heq|Hgt]]; [|done|].
      - destruct (Hfirst2 p); [lia|done].
      - destruct (Hfirst p2); [lia|done]. }
    f_equal. by apply IH.
Qed.

Lemma len_pos (s : text) : s <> [] -> 1 <= len s.
Proof. destruct s; [done|]. unfold len. simpl. lia. Qed.

(** The loop of the code performs this search, and [len(text) + 1 - start]
    iterations are enough for it to end. *)
Lemma term_loop_spec (t : text) (item : TermEntry) :
  term item <> [] ->
  forall fuel start,
    0 <= start <= len t -> len t + 1 - start <= Z.of_nat fuel ->
    exists ps, term_loop fuel t item start = Some (map (term_issue t item) ps)
               /\ spec_search t (term item) start ps.
Proof.
  intros Hne. induction fuel as [|fuel IH]; intros start Hs Hf; [lia|].
  cbn [term_loop].
  destruct (py_find_spec t (term item) start Hs) as [[-> Hno]|(Hr & Ho & Hfirst)].
  - exists []. split; [done|]. by constructor.
  - set (r := py_find t (term item) start) in *.
    destruct (Z.eqb_spec r (-1)) as [Heq|_]; [lia|].
    pose proof (occurs_at_slice _ _ _ Ho) as [Hend _].
    pose proof (len_pos _ Hne).
    destruct (IH (r + len (term item))) as (ps & -> & Hps); [lia|lia|].
    exists (r :: ps). split; [done|]. by constructor.
Qed.

(** Matches of one term do not overlap: each begins at or after the end of
    the one before. *)
Lemma spec_search_separated (t sub : text) (start : Z) (ps : list Z) :
  spec_search t sub start ps ->
  Sorted (fun p q => p + len sub <= q) ps /\
  Forall (fun p => start <= p /\ occurs_at t sub p) ps.
Proof.
  induction 1 as [start Hno|start p ps Hp Ho Hfirst Hrest [IHs IHf]].
  - split; constructor.
  - split.
    + constructor; [done|]. inversion Hrest; subst; constructor. done.
    + constructor; [done|]. eapply Forall_impl; [exact IHf|].
      intros q [Hq Hoq]. split; [|done]. pose proof (len_nonneg sub). lia.
Qed.


(** [sub] occurs in [t] exactly at [p] and [q], without overlap. *)
Definition occurs_twice (t sub : text) (p q : Z) : Prop :=
  occurs_at t sub p /\ occurs_at t sub q /\ p + len sub <= q /\
  forall r, occurs_at t sub r -> r = p \/ r = q.

Lemma spec_search_twice (t sub : text) (p q : Z) :
  sub <> [] -> occurs_twice t sub p q -> spec_search t sub 0 [p; q].
Proof.
  intros Hne (Hp & Hq & Hpq & Hall). pose proof (len_pos _ Hne).
  apply search_hit; [by destruct Hp as [[? ?] _]|done| |].
  { intros r Hr Hor. destruct (Hall r Hor); lia. }
  apply search_hit; [done|done| |].
  { intros r Hr Hor. destruct (Hall r Hor); lia. }
  apply search_done. intros r Hr Hor. destruct (Hall r Hor); lia.
Qed.

(** What [run_term_checks] adds for one entry. *)
Definition item_hits (t : text) (item : TermEntry) (l : list issue) : Prop :=
  l = map (term_issue t item) (map begin l) /\
  spec_search t (term item) 0 (map begin l).

Lemma map_begin_term_issue (t : text) (item : TermEntry) (ps : list Z) :
  map begin (map (term_issue t item) ps) = ps.
Proof. induction ps as [|p ps IH]; [done|]. simpl. by rewrite IH. Qed.

Lemma term_loops_spec (t : text) (terms : list TermEntry) :
  Forall (fun item => term item <> []) terms ->
  exists per, term_loops (S (length t)) t terms = Some (concat per) /\
              Forall2 (item_hits t) terms per.
Proof.
  induction 1 as [|item terms Hne _ (per & IHe & IHf)].
  - exists []. split; [done|constructor].
  - destruct (term_loop_spec t item Hne (S (length t)) 0) as (ps & Hl & Hs).
    { pose proof (len_nonneg t). lia. }
    { unfold len. lia. }
    exists (map (term_issue t item) ps :: per). split.
    + cbn [term_loops]. rewrite Hl, IHe. done.
    + constructor; [|done]. unfold item_hits.
      by rewrite map_begin_term_issue.
Qed.

Lemma load_terms_nonempty (entries : list TermEntry) :
  Forall (fun item => term item <> []) (load_terms entries).
Proof.
  apply Forall_forall. intros item Hin.
  by apply list_elem_of_filter in Hin as [? _].
Qed.

Lemma no_occurrence_in_empty (sub : text) (p : Z) :
  sub <> [] -> ~ occurs_at [] sub p.
Proof.
  intros Hne [_ Hs]. rewrite drop_nil in Hs. by destruct sub.
Qed.

(** [run_term_checks] returns, and its result is the concatenation, in the
    order of the configuration, of the hits of each loaded entry. *)
Lemma run_term_checks_spec (entries : list TermEntry) (t : text) :
  exists per, run_term_checks entries t = Some (concat per) /\
              Forall2 (item_hits t) (load_terms entries) per.
Proof.
  pose proof (load_terms_nonempty entries) as Hne.
  unfold run_term_checks. case_bool_decide as Ht.
  - subst t. exists (map (fun _ => []) (load_terms entries)). split.
    + f_equal. clear Hne. induction (load_terms entries); [done|]. simpl. auto.
    + induction Hne as [|item terms Hi _ IH]; simpl; constructor; [|done].
      split; [done|]. apply search_done. intros p _.
      by apply no_occurrence_in_empty.
  - destruct (load_terms entries) as [|item terms] eqn:E.
    + exists []. split; [done|constructor].
    + by apply term_loops_spec.
Qed.

Lemma Forall2_with_left {A B} (P : A -> Prop) (R : A -> B -> Prop)
    (l : list A) (k : list B) :
  Forall P l -> Forall2 R l k -> Forall2 (fun a b => P a /\ R a b) l k.
Proof.
  intros HP HR. induction HR as [|a b l k Hab _ IH]; [constructor|].
  inversion HP; subst. constructor; auto.
Qed.

(** The guarantees of the hits of one entry. *)
Definition hits_ok (t : text) (item : TermEntry) (l : list issue) : Prop :=
  spec_search t (term item) 0 (map begin l) /\
  l = map (term_issue t item) (map begin l) /\
  Forall (fun i =>
            type i = "term"%string /\ rule_id i = "invalid_term"%string /\
            hit_text i = term item /\ end_ i = begin i + len (term item) /\
            occurs_at t (term item) (begin i) /\
            py_slice t (begin i) (end_ i) = term item) l /\
  Sorted (fun i j => end_ i <= begin j) l /\
  (forall p q, occurs_twice t (term item) p q ->
               l = [term_issue t item p; term_issue t item q]).

Lemma item_hits_ok (t : text) (item : TermEntry) (l : list issue) :
  term item <> [] -> item_hits t item l -> hits_ok t item l.
Proof.
  intros Hne [Hl Hs]. split; [done|]. split; [done|].
  remember (map begin l) as ps eqn:Hps. clear Hps. subst l.
  destruct (spec_search_separated _ _ _ _ Hs) as [Hsorted Hocc].
  split; [|split].
  - clear Hs Hsorted. induction Hocc as [|p ps [_ Ho] _ IH]; [constructor|].
    simpl. constructor; [|done].
    pose proof (occurs_at_slice _ _ _ Ho) as [_ Hsl].
    cbn. repeat split; try done; apply Ho.
  - clear Hs Hocc. induction Hsorted as [|p ps _ IH Hhd]; [constructor|].
    simpl. constructor; [done|]. destruct Hhd; simpl; constructor. done.
  - intros p q Htwice.
    by rewrite (spec_search_functional _ _ _ _ _ Hs
                  (spec_search_twice _ _ _ _ Hne Htwice)).
Qed.

Lemma run_term_checks_hits (entries : list TermEntry) (t : text) :
  exists per,
    run_term_checks entries t = Some (concat per) /\
    Forall2 (hits_ok t) (load_terms entries) per.
Proof.
  destruct (run_term_checks_spec entries t) as (per & Hrun & Hper).
  exists per. split; [done|].
  eapply Forall2_impl.
  - apply (Forall2_with_left _ _ _ _ (load_terms_nonempty entries) Hper).
  - intros item l [Hne Hhits]. by apply item_hits_ok.
Qed.

(** C5. For each loaded entry the term engine searches the text from left
    to right for exact occurrences of the literal, each search starting at
    the end of the match before; every hit is reported as an [invalid_term]
    issue whose slice of the text is the literal itself, and the hits of an
    entry never overlap.  A term that occurs exactly twice, without
    overlap, gets exactly two issues.  The engine returns the hits of the
    entries one entry after the other. *)
Theorem term_search_non_overlapping (entries : list TermEntry) (t : text) :
  exists per,
    run_term_checks entries t = Some (concat per) /\
    Forall2 (hits_ok t) (load_terms entries) per.
Proof.
  destruct (run_term_checks_spec entries t) as (per & Hrun & Hper).
  exists per. split; [exact Hrun|].
  pose proof (Forall2_with_left _ _ _ _ (load_terms_nonempty entries) Hper)
    as Hboth.
  clear Hrun Hper. induction Hboth as [|item l terms per [Hne Hhits] _ IH].
  - constructor.
  - constructor; [|exact IH]. by apply item_hits_ok.
Qed.

End TermSearch.

(** ** The stable sort *)

Section StableSort.
Context {A : Type} (key : A -> Z).

Lemma insert_by_perm (x : A) (l : list A) :
  Permutation (insert_by key x l) (x :: l).
Proof.
  induction l as [|y l IH]; simpl; [done|].
  destruct (key x <=? key y); [done|].
  rewrite IH. apply perm_swap.
Qed.

Lemma sort_by_perm (l : list A) : Permutation (sort_by key l) l.
Proof.
  induction l as [|x l IH]; simpl; [done|].
  rewrite insert_by_perm. by constructor.
Qed.

(** Sorting keeps, between elements of equal key, the order [R] that holds
    from each element of the input to every later one. *)
Definition key_then (R : A -> A -> Prop) (x y : A) : Prop :=
  key x < key y \/ (key x = key y /\ R x y).

Lemma insert_by_sorted (R : A -> A -> Prop) (x : A) (l : list A) :
  StronglySorted (key_then R) l -> Forall (R x) l ->
  StronglySorted (key_then R) (insert_by key x l).
Proof.
  induction 1 as [|y l Hs IH Hy]; intros Hx; simpl; [repeat constructor|].
  inversion Hx as [|? ? Hxy Hxl]; subst.
  destruct (Z.leb_spec (key x) (key y)) as [Hle|Hgt].
  - constructor; [by constructor|]. constructor.
    + destruct (Z.eq_dec (key x) (key y)); [by right|left; lia].
    + rewrite Forall_forall in Hy, Hxl. apply Forall_forall. intros z Hz.
      specialize (Hy z Hz). specialize (Hxl z Hz).
      destruct (Z.eq_dec (key x) (key z)); [by right|].
      left. destruct Hy as [?|[? _]]; lia.
  - constructor; [by apply IH|].
    eapply Permutation_Forall; [symmetry; apply insert_by_perm|].
    constructor; [|done]. left. lia.
Qed.

Lemma sort_by_sorted (R : A -> A -> Prop) (l : list A) :
  StronglySorted R l -> StronglySorted (key_then R) (sort_by key l).
Proof.
  induction 1 as [|x l Hs IH Hx]; simpl; [constructor|].
  apply insert_by_sorted; [done|].
  eapply Permutation_Forall; [symmetry; apply sort_by_perm|done].
Qed.

Lemma StronglySorted_True (l : list A) : StronglySorted (fun _ _ => True) l.
Proof. induction l; constructor; [done|]. by apply Forall_forall. Qed.

(** The result is in ascending order of the keys. *)
Lemma sort_by_ascending (l : list A) :
  StronglySorted (fun x y => key x <= key y) (sort_by key l).
Proof.
  pose proof (sort_by_sorted _ l (StronglySorted_True l)) as Hs.
  induction Hs as [|x s _ IH Hx]; constructor; [done|].
  eapply Forall_impl; [exact Hx|]. unfold key_then. intros; lia.
Qed.

(** Sorting is stable: the elements of one key keep their order. *)
Lemma insert_by_filter_key (b : Z) (x : A) (l : list A) :
  filter (fun z => key z = b) (insert_by key x l)
  = if decide (key x = b) then x :: filter (fun z => key z = b) l
    else filter (fun z => key z = b) l.
Proof.
  induction l as [|y l IH]; simpl.
  - rewrite filter_cons, filter_nil. done.
  - destruct (Z.leb_spec (key x) (key y)) as [Hle|Hgt].
    + by rewrite (filter_cons _ x).
    + rewrite (filter_cons _ y), IH.
      destruct (decide (key x = b)); [|done].
      rewrite decide_False by lia. by rewrite filter_cons_False by lia.
Qed.

Lemma sort_by_stable (b : Z) (l : list A) :
  filter (fun z => key z = b) (sort_by key l) = filter (fun z => key z = b) l.
Proof.
  induction l as [|x l IH]; simpl; [done|].
  rewrite insert_by_filter_key, (filter_cons _ x), IH. done.
Qed.

End StableSort.

(** ** The type of the issues of each engine *)

Lemma rmap_Ok {A B} (f : A -> result B) (l : list A) (bs : list B) :
  rmap f l = Ok bs -> Forall2 (fun a b => f a = Ok b) l bs.
Proof.
  revert bs. induction l as [|a l IH]; simpl; intros bs.
  - intros [= <-]. constructor.
  - destruct (f a) as [b|] eqn:Ha; simpl; [|done].
    destruct (rmap f l) as [bs'|]; simpl; [|done].
    intros [= <-]. constructor; auto.
Qed.

Lemma Forall_concat_Forall2 {A B} (P : B -> Prop) (R : A -> list B -> Prop)
    (l : list A) (k : list (list B)) :
  Forall2 R l k -> (forall a bs, In a l -> R a bs -> Forall P bs) ->
  Forall P (concat k).
Proof.
  induction 1 as [|a bs l k Hab _ IH]; intros HP; simpl; [constructor|].
  apply Forall_app. split.
  - eapply HP; [by left|done].
  - apply IH. intros a' bs' Hin. apply HP. by right.
Qed.

Lemma Forall_flat_map {A B} (P : B -> Prop) (f : A -> list B) (l : list A) :
  (forall a, In a l -> Forall P (f a)) -> Forall P (flat_map f l).
Proof.
  induction l as [|a l IH]; intros HP; simpl; [constructor|].
  apply Forall_app. split; [apply HP; by left|].
  apply IH. intros a' Ha'. apply HP. by right.
Qed.

Definition has_type (ty : string) (i : issue) : Prop := type i = ty.

#[local] Instance has_type_dec ty i : Decision (has_type ty i).
Proof. unfold has_type. apply _. Defined.

Lemma rule_type (t : text) : Forall (has_type "rule") (Rules.run_rule_checks t).
Proof.
  unfold Rules.run_rule_checks. case_bool_decide; [constructor|].
  repeat (apply Forall_app; split);
    try (apply Forall_map, Forall_forall; intros; reflexivity).
  apply bracket_issues_Forall; intros; reflexivity.
Qed.

Lemma lex_type (conf : gmap char (list text)) (valid : gset text) (t : text) :
  Forall (has_type "lex") (Lexicon.run_lex_checks conf valid t).
Proof.
  unfold Lexicon.run_lex_checks. case_bool_decide; [constructor|].
  apply Forall_app. split.
  - generalize 0 at 1. generalize t at 2. intros s.
    induction s as [|c s IH]; intros idx; simpl; [constructor|].
    apply Forall_app. split; [|apply IH].
    unfold Lexicon.confusion_char. repeat case_match; by repeat constructor.
  - apply Forall_flat_map. intros i _. unfold Lexicon.bigram_at.
    case_match; by repeat constructor.
Qed.

Lemma pattern_type (rules : list Patterns.RegexRule) (t : text) :
  Forall (has_type "pattern") (Patterns.run_pattern_checks rules t).
Proof.
  apply Forall_flat_map. intros r _. unfold Patterns.run.
  apply Forall_map, Forall_forall. by intros [b e] _.
Qed.

Lemma pos_match_type (r : PosPatterns.PosRule) (tokens : list PosPatterns.PosToken)
    (l : list issue) :
  PosPatterns.match_ r tokens = Ok l -> Forall (has_type "pos") l.
Proof.
  unfold PosPatterns.match_. case_match; [by intros [= <-]|].
  destruct (rmap _ _) as [ms|] eqn:Hms; simpl; [|done]. intros [= <-].
  apply rmap_Ok in Hms. eapply Forall_concat_Forall2; [exact Hms|].
  intros i bs _. unfold PosPatterns.match_at.
  destruct (PosPatterns.sequence_ok _ _) as [[|]|]; simpl; try done.
  - repeat case_match; try done. intros [= <-]. by repeat constructor.
  - intros [= <-]. constructor.
Qed.

Lemma pos_type pseg (rules : list PosPatterns.PosRule) (t : text) (l : list issue) :
  PosPatterns.run_pos_checks pseg rules t = Ok l -> Forall (has_type "pos") l.
Proof.
  unfold PosPatterns.run_pos_checks.
  destruct pseg as [cut|]; [|by intros [= <-]].
  case_bool_decide; [by intros [= <-]|].
  destruct (cut t) as [pairs|]; simpl; [|done].
  destruct (rmap _ _) as [ms|] eqn:Hms; simpl; [|done]. intros [= <-].
  apply Forall_map. apply rmap_Ok in Hms.
  eapply Forall_concat_Forall2; [exact Hms|].
  intros r bs _ Hr. by apply pos_match_type in Hr.
Qed.

Lemma csc_type model (t : text) : Forall (has_type "csc") (Csc.run_csc model t).
Proof.
  unfold Csc.run_csc. destruct model as [correct|]; [|constructor].
  case_bool_decide; [constructor|].
  destruct (correct t) as [[corrected details]|]; [|constructor].
  apply Forall_flat_map. intros [[[old new] b] e] _. unfold Csc.detail_issue.
  destruct (rbind _ _) as [[bi ei]|]; [|constructor].
  case_match; by repeat constructor.
Qed.

Lemma term_type (entries : list Terms.TermEntry) (t : text) (l : list issue) :
  Terms.run_term_checks entries t = Some l -> Forall (has_type "term") l.
Proof.
  intros Hrun.
  destruct (run_term_checks_hits entries t) as (per & Hrun' & Hper).
  assert (l = concat per) as -> by congruence.
  eapply Forall_concat_Forall2; [exact Hper|].
  intros item bs _ (_ & _ & Hall & _).
  eapply Forall_impl; [exact Hall|]. by intros i [? _].
Qed.

(** ** The aggregator (app.py) *)

Section Aggregator.
Import App.
Variable cfg : config.

(** Whether [api_check] runs the engine behind the flag [key]. *)
Definition enabled (modes : json) (key : string) : bool :=
  match modes_get modes key with
  | Ok flag => truthy flag
  | Raise => false
  end.

Lemma guarded_enabled (modes : json) (key : string) (engine : result (list issue)) :
  guarded modes key engine
  = if enabled modes key then try_except engine [] else [].
Proof.
  unfold guarded, enabled. destruct (modes_get modes key) as [flag|]; [|done].
  simpl. by destruct (truthy flag).
Qed.

Lemma guarded_Forall (P : issue -> Prop) (modes : json) (key : string)
    (engine : result (list issue)) :
  (forall l, engine = Ok l -> Forall P l) -> Forall P (guarded modes key engine).
Proof.
  intros HP. rewrite guarded_enabled. destruct (enabled modes key); [|constructor].
  destruct engine as [l|]; simpl; [by apply HP|constructor].
Qed.

(** The six lists that [api_check] concatenates, in this order. *)
Definition rule_part (modes : json) (t : text) : list issue :=
  guarded modes "rule" (Ok (Rules.run_rule_checks t)).
Definition lex_part (modes : json) (t : text) : list issue :=
  guarded modes "lex"
    (Ok (Lexicon.run_lex_checks (CONFUSION cfg) (VALID_WORDS cfg) t)).
Definition pat_part (modes : json) (t : text) : list issue :=
  guarded modes "pat" (Ok (Patterns.run_pattern_checks (_REGEX_RULES cfg) t)).
Definition pos_part (modes : json) (t : text) : list issue :=
  guarded modes "pos" (PosPatterns.run_pos_checks (pseg cfg) (_POS_RULES cfg) t).
Definition csc_part (modes : json) (t : text) : list issue :=
  guarded modes "csc" (Ok (Csc.run_csc (_CSC_MODEL cfg) t)).

Definition in_code_order (modes : json) (t : text) (terms : list issue)
    : list issue :=
  rule_part modes t ++ lex_part modes t ++ pat_part modes t
  ++ pos_part modes t ++ csc_part modes t ++ terms.

(** [api_check] returns for every request: the term engine always ends. *)
Lemma api_check_returns (req : request) :
  let t := strip (default [] (req_text req)) in
  exists terms,
    Terms.run_term_checks (invalid_terms cfg) t = Some terms /\
    api_check cfg req
    = Some {| issues := sort_by begin (in_code_order (modes_of req) t terms);
              summary := summarize
                (sort_by begin (in_code_order (modes_of req) t terms)) |}.
Proof.
  intros t.
  destruct (run_term_checks_hits (invalid_terms cfg) t) as (per & Hrun & _).
  exists (concat per). split; [done|].
  unfold api_check, collect. fold t. rewrite Hrun. done.
Qed.

Lemma parts_types (modes : json) (t : text) :
  Forall (has_type "rule") (rule_part modes t) /\
  Forall (has_type "lex") (lex_part modes t) /\
  Forall (has_type "pattern") (pat_part modes t) /\
  Forall (has_type "pos") (pos_part modes t) /\
  Forall (has_type "csc") (csc_part modes t).
Proof.
  repeat split; apply guarded_Forall; intros l Hl; try injection Hl as <-.
  - apply rule_type.
  - apply lex_type.
  - apply pattern_type.
  - by eapply pos_type.
  - apply csc_type.
Qed.

(** *** The summary *)

Definition known_types : list string :=
  ["rule"; "lex"; "pattern"; "pos"; "csc"; "term"]%string.

Definition known_type (i : issue) : Prop := In (type i) known_types.

Definition total (by_type : list (string * Z)) : Z :=
  foldr Z.add 0 (map snd by_type).

Lemma summarize_total (l : list issue) :
  Forall known_type l -> total (by_type (summarize l)) = Z.of_nat (length l).
Proof.
  unfold total, summarize, count_type. cbn [by_type map foldr snd].
  induction 1 as [|a l Ha _ IH]; [done|].
  rewrite !filter_cons. unfold known_type, known_types in Ha. simpl in Ha.
  destruct Ha as [Ha|[Ha|[Ha|[Ha|[Ha|[Ha|[]]]]]]]; rewrite <- Ha;
    repeat (case_decide; try done); simpl length; lia.
Qed.

Lemma has_type_known (ty : string) (l : list issue) :
  In ty known_types -> Forall (has_type ty) l -> Forall known_type l.
Proof.
  intros Hty Hl. eapply Forall_impl; [exact Hl|].
  intros i Hi. unfold known_type. by rewrite Hi.
Qed.

Lemma in_code_order_known (modes : json) (t : text) (terms : list issue) :
  Forall (has_type "term") terms ->
  Forall known_type (in_code_order modes t terms).
Proof.
  intros Hterms.
  destruct (parts_types modes t) as (H1 & H2 & H3 & H4 & H5).
  unfold in_code_order. repeat (apply Forall_app; split);
    (eapply has_type_known; [|eassumption]); unfold known_types; simpl; tauto.
Qed.

(** C8. In every response [summary.count] is the length of the issue list,
    and the six counts of [summary.by_type] add up to it. *)
Theorem summary_counts (req : request) :
  exists resp,
    api_check cfg req = Some resp /\
    count (summary resp) = Z.of_nat (length (issues resp)) /\
    map fst (by_type (summary resp)) = known_types /\
    (forall ty n, In (ty, n) (by_type (summary resp)) ->
                  n = Z.of_nat (length (filter (has_type ty) (issues resp)))) /\
    total (by_type (summary resp)) = count (summary resp).
Proof.
  destruct (api_check_returns req) as (terms & Hterms & ->).
  eexists. split; [done|]. cbn [issues summary].
  split; [done|]. split; [done|]. split.
  - intros ty n Hin. unfold summarize in Hin. cbn [by_type] in Hin.
    apply in_map_iff in Hin as (ty' & [= <- <-] & _). done.
  - rewrite summarize_total; [done|].
    eapply Permutation_Forall; [symmetry; apply sort_by_perm|].
    apply in_code_order_known. by eapply term_type.
Qed.

(** *** The order of the issues *)

(** The position of a type in an order of precedence. *)
Fixpoint rank (order : list string) (ty : string) : nat :=
  match order with
  | [] => O
  | x :: order' => if decide (x = ty) then O else S (rank order' ty)
  end.

(** The order in which [api_check] runs the engines, and the order of
    precedence that the specification gives. *)
Definition code_order : list string :=
  ["rule"; "lex"; "pattern"; "pos"; "csc"; "term"]%string.
Definition spec_order : list string :=
  ["rule"; "lex"; "pattern"; "pos"; "term"; "csc"]%string.

Definition precedes (order : list string) (x y : issue) : Prop :=
  (rank order (type x) <= rank order (type y))%nat.

(** Ascending [begin]; for equal [begin], in the order of precedence: from
    each issue to every later one. *)
Definition ordered_as (order : list string) (l : list issue) : Prop :=
  StronglySorted (key_then begin (precedes order)) l.

Lemma same_type_sorted (order : list string) (ty : string) (l : list issue) :
  Forall (has_type ty) l -> StronglySorted (precedes order) l.
Proof.
  induction 1 as [|a l Ha Hl IH]; constructor; [done|].
  eapply Forall_impl; [exact Hl|]. intros b Hb. unfold precedes.
  by rewrite Ha, Hb.
Qed.

Lemma app_sorted (order : list string) (ty : string) (l1 l2 : list issue) :
  Forall (has_type ty) l1 ->
  Forall (fun y => (rank order ty <= rank order (type y))%nat) l2 ->
  StronglySorted (precedes order) l2 ->
  StronglySorted (precedes order) (l1 ++ l2).
Proof.
  intros H1 H2 Hs. apply StronglySorted_app_2; [|by eapply same_type_sorted|done].
  intros x y Hx Hy. rewrite Forall_forall in H1, H2.
  unfold precedes. rewrite (H1 x Hx). by apply H2.
Qed.

Lemma in_code_order_sorted (modes : json) (t : text) (terms : list issue) :
  Forall (has_type "term") terms ->
  StronglySorted (precedes code_order) (in_code_order modes t terms).
Proof.
  intros Hterms.
  destruct (parts_types modes t) as (H1 & H2 & H3 & H4 & H5).
  assert (forall ty n l, Forall (has_type ty) l -> (n <= rank code_order ty)%nat ->
            Forall (fun y => (n <= rank code_order (type y))%nat) l) as Hrank.
  { intros ty n l Hl Hn. eapply Forall_impl; [exact Hl|].
    intros y Hy. by rewrite Hy. }
  unfold in_code_order.
  repeat (eapply app_sorted; [eassumption| |]);
    try (by eapply same_type_sorted);
    repeat (apply Forall_app; split);
    try (eapply Hrank; [eassumption|vm_compute; lia]).
Qed.

(** C2, as the code has it.  The issues of a response are those of the
    engines, sorted by [begin] in ascending order; the sort is stable, so
    the issues of one [begin] keep the order in which the engines added
    them, which is: structural, lexicon, pattern, pos, spelling-model,
    term. *)
Theorem issues_sorted_stably (req : request) :
  let t := strip (default [] (req_text req)) in
  exists resp terms,
    api_check cfg req = Some resp /\
    Terms.run_term_checks (invalid_terms cfg) t = Some terms /\
    Permutation (issues resp) (in_code_order (modes_of req) t terms) /\
    StronglySorted (fun x y => begin x <= begin y) (issues resp) /\
    (forall b, filter (fun i => begin i = b) (issues resp)
               = filter (fun i => begin i = b)
                        (in_code_order (modes_of req) t terms)) /\
    ordered_as code_order (issues resp).
Proof.
  intros t. destruct (api_check_returns req) as (terms & Hterms & ->).
  fold t in Hterms |- *. eexists _, terms. split; [done|]. split; [done|].
  cbn [issues]. split; [apply sort_by_perm|]. split; [apply sort_by_ascending|].
  split; [intros b; apply sort_by_stable|].
  apply sort_by_sorted, in_code_order_sorted. by eapply term_type.
Qed.

(** *** The engine flags *)

Lemma api_check_modes (req req' : request) :
  req_text req = req_text req' ->
  (forall key, enabled (modes_of req) key = enabled (modes_of req') key) ->
  api_check cfg req = api_check cfg req'.
Proof.
  intros Ht Hm. unfold api_check, collect. rewrite Ht.
  by rewrite !guarded_enabled, !Hm.
Qed.

Definition with_modes (req : request) (modes : json) : request :=
  {| req_text := req_text req; req_modes := Some modes |}.

(** [modes.get(key)], taken as a condition, for a dictionary [m]. *)
Definition flag (m : gmap string json) (key : string) : bool :=
  truthy (default JNull (m !! key)).

(** What an engine adds to the issues: its result when its flag is set,
    nothing otherwise. *)
Definition when (on : bool) (l : list issue) : list issue :=
  if on then l else [].

(** The type of the issues of the engine behind a key of [modes]. *)
Definition engine_type (key : string) : option string :=
  if bool_decide (key = "rule"%string) then Some "rule"%string
  else if bool_decide (key = "lex"%string) then Some "lex"%string
  else if bool_decide (key = "pat"%string) then Some "pattern"%string
  else if bool_decide (key = "pos"%string) then Some "pos"%string
  else if bool_decide (key = "csc"%string) then Some "csc"%string
  else None.

(** The issues that [api_check] collects when [modes] is the dictionary
    [m], engine by engine. *)
Lemma in_code_order_flags (m : gmap string json) (t : text)
    (terms : list issue) :
  in_code_order (JObj m) t terms
  = when (flag m "rule") (Rules.run_rule_checks t)
    ++ when (flag m "lex")
         (Lexicon.run_lex_checks (CONFUSION cfg) (VALID_WORDS cfg) t)
    ++ when (flag m "pat")
         (Patterns.run_pattern_checks (_REGEX_RULES cfg) t)
    ++ when (flag m "pos")
         (try_except
            (PosPatterns.run_pos_checks (pseg cfg) (_POS_RULES cfg) t) [])
    ++ when (flag m "csc") (Csc.run_csc (_CSC_MODEL cfg) t)
    ++ terms.
Proof.
  unfold in_code_order, rule_part, lex_part, pat_part, pos_part, csc_part.
  by rewrite !guarded_enabled.
Qed.

Lemma when_Forall (P : issue -> Prop) (on : bool) (l : list issue) :
  (on = true -> Forall P l) -> Forall P (when on l).
Proof. destruct on; simpl; [auto|constructor]. Qed.

Lemma other_type (ty ty' : string) (l : list issue) :
  ty' <> ty -> Forall (has_type ty') l -> Forall (fun i => type i <> ty) l.
Proof.
  intros Hne Hl. eapply Forall_impl; [exact Hl|].
  intros i Hi. unfold has_type in Hi. congruence.
Qed.

(** C10. When [modes] is absent, null or an empty object, the defaults
    apply: the structural, lexicon, pattern and pos engines run and the
    spelling model does not, so the issues of the response are the issues
    of these four engines and of the term engine, sorted.  When [modes] is
    a non-empty object, the issues of the response are those of the engines
    whose key has a true value in it, and of the term engine, sorted: an
    engine whose key is not in the object does not run, no issue of its
    type is in the response, and the response is the one for the same
    object with the key set to false. *)
Theorem modes_defaulting (req : request) :
  let t := strip (default [] (req_text req)) in
  (req_modes req = None \/ req_modes req = Some JNull \/
   req_modes req = Some (JObj ∅) ->
   modes_of req = default_modes /\
   enabled default_modes "rule" = true /\ enabled default_modes "lex" = true /\
   enabled default_modes "pat" = true /\ enabled default_modes "pos" = true /\
   enabled default_modes "csc" = false /\
   api_check cfg req = api_check cfg (with_modes req default_modes) /\
   exists resp terms,
     api_check cfg req = Some resp /\
     Terms.run_term_checks (invalid_terms cfg) t = Some terms /\
     issues resp
     = sort_by begin
         (Rules.run_rule_checks t
          ++ Lexicon.run_lex_checks (CONFUSION cfg) (VALID_WORDS cfg) t
          ++ Patterns.run_pattern_checks (_REGEX_RULES cfg) t
          ++ try_except
               (PosPatterns.run_pos_checks (pseg cfg) (_POS_RULES cfg) t) []
          ++ terms) /\
     Forall (fun i => type i <> "csc"%string) (issues resp)) /\
  (forall (m : gmap string json) (key : string),
     req_modes req = Some (JObj m) -> m <> ∅ -> m !! key = None ->
     modes_of req = JObj m /\
     enabled (modes_of req) key = false /\
     (forall engine, guarded (modes_of req) key engine = []) /\
     api_check cfg req
     = api_check cfg (with_modes req (JObj (<[key := JBool false]> m))) /\
     flag m key = false /\
     exists resp terms,
       api_check cfg req = Some resp /\
       Terms.run_term_checks (invalid_terms cfg) t = Some terms /\
       issues resp
       = sort_by begin
           (when (flag m "rule") (Rules.run_rule_checks t)
            ++ when (flag m "lex")
                 (Lexicon.run_lex_checks (CONFUSION cfg) (VALID_WORDS cfg) t)
            ++ when (flag m "pat")
                 (Patterns.run_pattern_checks (_REGEX_RULES cfg) t)
            ++ when (flag m "pos")
                 (try_except
                    (PosPatterns.run_pos_checks (pseg cfg) (_POS_RULES cfg) t)
                    [])
            ++ when (flag m "csc") (Csc.run_csc (_CSC_MODEL cfg) t)
            ++ terms) /\
       (forall ty, engine_type key = Some ty ->
                   Forall (fun i => type i <> ty) (issues resp))).
Proof.
  intros t.
  destruct (api_check_returns req) as (terms & Hterms & Hresp).
  fold t in Hterms, Hresp.
  pose proof (term_type _ _ _ Hterms) as Hterm.
  split.
  - intros Hm.
    assert (modes_of req = default_modes) as Hd.
    { unfold modes_of. destruct Hm as [->|[->| ->]]; done. }
    split; [done|]. do 5 (split; [by vm_compute|]).
    split; [apply api_check_modes; [done|]; intros key; by rewrite Hd|].
    rewrite Hd in Hresp. unfold default_modes in Hresp.
    rewrite in_code_order_flags in Hresp.
    change (flag _ "rule") with true in Hresp.
    change (flag _ "lex") with true in Hresp.
    change (flag _ "pat") with true in Hresp.
    change (flag _ "pos") with true in Hresp.
    change (flag _ "csc") with false in Hresp.
    cbn [when app] in Hresp.
    eexists _, terms. split; [exact Hresp|]. split; [exact Hterms|].
    cbn [issues]. split; [reflexivity|].
    eapply Permutation_Forall; [symmetry; apply sort_by_perm|].
    repeat (apply Forall_app; split).
    + eapply other_type; [|apply rule_type]. done.
    + eapply other_type; [|apply lex_type]. done.
    + eapply other_type; [|apply pattern_type]. done.
    + destruct (PosPatterns.run_pos_checks _ _ t) as [l|] eqn:Hpos;
        [|constructor].
      eapply other_type; [|by eapply pos_type]. done.
    + eapply other_type; [|exact Hterm]. done.
  - intros m key Hm Hne Hkey.
    assert (modes_of req = JObj m) as Hd.
    { unfold modes_of. rewrite Hm. simpl. by rewrite bool_decide_false. }
    assert (enabled (JObj m) key = false) as Hoff.
    { unfold enabled. simpl. by rewrite Hkey. }
    assert (flag m key = false) as Hflag by (unfold flag; by rewrite Hkey).
    rewrite Hd. split; [done|]. split; [done|]. split.
    { intros engine. by rewrite guarded_enabled, Hoff. }
    split.
    { apply api_check_modes; [done|]. intros key'. rewrite Hd.
      assert (modes_of (with_modes req (JObj (<[key:=JBool false]> m)))
              = JObj (<[key:=JBool false]> m)) as ->.
      { unfold modes_of, with_modes. simpl.
        rewrite bool_decide_false; [done|]. apply insert_non_empty. }
      unfold enabled. simpl. destruct (decide (key = key')) as [<-|Hk].
      + by rewrite Hkey, lookup_insert_eq.
      + by rewrite lookup_insert_ne. }
    split; [exact Hflag|].
    rewrite Hd, in_code_order_flags in Hresp.
    eexists _, terms. split; [exact Hresp|]. split; [exact Hterms|].
    cbn [issues]. split; [reflexivity|].
    intros ty Hty.
    eapply Permutation_Forall; [symmetry; apply sort_by_perm|].
    assert (forall l, Forall (fun i => type i <> ty) (when (flag m key) l))
      as Hown by (intros l; rewrite Hflag; constructor).
    assert (ty <> "term"%string) as Hnot_term.
    { unfold engine_type in Hty. repeat case_bool_decide; congruence. }
    unfold engine_type in Hty.
    repeat (apply Forall_app; split);
      try (eapply other_type; [|exact Hterm]; congruence).
    + destruct (decide (key = "rule"%string)) as [->|Hk]; [apply Hown|].
      apply when_Forall. intros _. eapply other_type; [|apply rule_type].
      repeat case_bool_decide; congruence.
    + destruct (decide (key = "lex"%string)) as [->|Hk]; [apply Hown|].
      apply when_Forall. intros _. eapply other_type; [|apply lex_type].
      repeat case_bool_decide; congruence.
    + destruct (decide (key = "pat"%string)) as [->|Hk]; [apply Hown|].
      apply when_Forall. intros _. eapply other_type; [|apply pattern_type].
      repeat case_bool_decide; congruence.
    + destruct (decide (key = "pos"%string)) as [->|Hk]; [apply Hown|].
      apply when_Forall. intros _.
      destruct (PosPatterns.run_pos_checks _ _ t) as [l|] eqn:Hpos;
        [|constructor].
      eapply other_type; [|by eapply pos_type].
      repeat case_bool_decide; congruence.
    + destruct (decide (key = "csc"%string)) as [->|Hk]; [apply Hown|].
      apply when_Forall. intros _. eapply other_type; [|apply csc_type].
      repeat case_bool_decide; congruence.
Qed.

(** *** The term engine *)



End Aggregator.

(** ** Spans of the issues *)

(** The span of an issue lies in the text and its hit is the text there. *)
Definition issue_ok (t : text) (i : issue) : Prop :=
  0 <= begin i <= end_ i /\ end_ i <= len t /\
  hit_text i = py_slice t (begin i) (end_ i).

Lemma py_slice_one (t : text) (n : nat) (c : char) :
  t !! n = Some c -> py_slice t (Z.of_nat n) (Z.of_nat n + 1) = [c].
Proof.
  intros Hc. pose proof (lookup_lt_Some _ _ _ Hc) as Hn.
  rewrite py_slice_in_range by (unfold len; lia).
  replace (Z.to_nat (Z.of_nat n + 1 - Z.of_nat n)) with 1%nat by lia.
  rewrite Nat2Z.id, (drop_S _ _ _ Hc). done.
Qed.

Lemma issue_ok_one (t : text) (i : issue) (idx : Z) (c : char) :
  0 <= idx -> t !! Z.to_nat idx = Some c ->
  begin i = idx -> end_ i = idx + 1 -> hit_text i = [c] -> issue_ok t i.
Proof.
  intros Hidx Hc Hb He Hh. pose proof (lookup_lt_Some _ _ _ Hc) as Hn.
  unfold issue_ok. rewrite Hb, He, Hh. split; [lia|].
  split; [unfold len; lia|].
  rewrite <- (py_slice_one t (Z.to_nat idx) c Hc). by rewrite Z2Nat.id.
Qed.

Section RegexLike.
Import Rules.

(** Every span of [finditer_by] is a match of [match_at] at its start. *)
Lemma finditer_by_spec (match_at : text -> option nat) (s : text) :
  forall skip pos b e,
    In (b, e) (finditer_by match_at skip pos s) ->
    exists k, b = (pos + k)%nat /\ (k < length s)%nat /\
              match_at (drop k s) = Some (e - b)%nat /\ (b <= e)%nat.
Proof.
  induction s as [|c s IH]; intros skip pos b e; simpl; [done|].
  assert (forall skip', In (b, e) (finditer_by match_at skip' (S pos) s) ->
            exists k, b = (pos + k)%nat /\ (k < S (length s))%nat /\
                      match_at (drop k (c :: s)) = Some (e - b)%nat /\
                      (b <= e)%nat) as Hrest.
  { intros skip' Hin. destruct (IH _ _ _ _ Hin) as (k & -> & Hk & Hm & Hle).
    exists (S k). repeat split; try lia. done. }
  destruct skip as [|skip]; [|apply Hrest].
  destruct (match_at (c :: s)) as [n|] eqn:Hm; [|apply Hrest].
  intros [[= <- <-]|Hin]; [|by eapply Hrest].
  exists 0%nat. repeat split; try lia.
  simpl. rewrite Hm. f_equal. lia.
Qed.

Lemma finditer_spec (match_at : text -> option nat) (t : text) (b e : nat) :
  In (b, e) (finditer match_at t) ->
  (b < length t)%nat /\ (b <= e)%nat /\ match_at (drop b t) = Some (e - b)%nat.
Proof.
  intros Hin. apply finditer_by_spec in Hin as (k & -> & Hk & Hm & Hle).
  simpl. done.
Qed.

Lemma run_length_le (p : char -> bool) (s : text) :
  (run_length p s <= length s)%nat.
Proof. induction s as [|c s IH]; simpl; [done|]. destruct (p c); simpl; lia. Qed.

(** The matchers never match more than is left of the text. *)
Lemma multi_space_at_le (s : text) (n : nat) :
  multi_space_at s = Some n -> (n <= length s)%nat.
Proof.
  unfold multi_space_at. case_match; [|done]. intros [= <-].
  apply run_length_le.
Qed.

Lemma space_before_cn_punct_at_le (s : text) (n : nat) :
  space_before_cn_punct_at s = Some n -> (n <= length s)%nat.
Proof.
  unfold space_before_cn_punct_at. repeat case_match; try done.
  intros [= <-]. apply run_length_le.
Qed.

Lemma repeat_char_at_le (s : text) (n : nat) :
  repeat_char_at s = Some n -> (n <= length s)%nat.
Proof.
  unfold repeat_char_at. destruct s as [|c s]; [done|].
  repeat case_match; try done. intros [= <-].
  pose proof (run_length_le (N.eqb c) s). simpl. lia.
Qed.

(** A match of a particle pattern has three or four characters, the
    particle being the last but one. *)
Lemma particle_at_spec (p : char) (s : text) (n : nat) :
  particle_at p s = Some n ->
  (3 <= n <= length s)%nat /\ s !! (n - 2)%nat = Some p.
Proof.
  unfold particle_at. destruct s as [|a [|b rest]]; try done.
  destruct (is_cjk a); [|done].
  destruct (is_cjk b && _) eqn:E4.
  - intros [= <-]. destruct rest as [|c [|d rest]];
      try (by rewrite andb_false_r in E4).
    apply andb_prop in E4 as [_ [Hc _]%andb_prop]. apply N.eqb_eq in Hc as ->.
    simpl. split; [lia|done].
  - destruct ((b =? p)%N && _) eqn:E3; [|done]. intros [= <-].
    destruct rest as [|c rest]; [by rewrite andb_false_r in E3|].
    apply andb_prop in E3 as [Hb _]. apply N.eqb_eq in Hb as ->.
    simpl. split; [lia|done].
Qed.

Lemma match_issue_ok (match_at : text -> option nat) (t : text)
    (rid : string) (ev : text) (sug : list text) (conf : Q) :
  (forall s n, match_at s = Some n -> (n <= length s)%nat) ->
  Forall (issue_ok t) (map (match_issue rid t ev sug conf) (finditer match_at t)).
Proof.
  intros Hle. apply Forall_map, Forall_forall. intros [b e] Hin%list_elem_of_In.
  apply finditer_spec in Hin as (Hb & Hbe & Hm). apply Hle in Hm.
  rewrite length_drop in Hm. unfold issue_ok, match_issue; cbn.
  split; [lia|]. split; [unfold len; lia|done].
Qed.

Lemma particle_issue_ok (p : string) (t : text) (rid : string) (ev : text)
    (sug : list text) (conf : Q) :
  utf8 p = [ch p] ->
  Forall (issue_ok t)
    (map (particle_issue rid t (utf8 p) ev sug conf)
         (finditer (particle_at (ch p)) t)).
Proof.
  intros Hp. apply Forall_map, Forall_forall. intros [b e] Hin%list_elem_of_In.
  apply finditer_spec in Hin as (Hb & Hbe & Hm).
  apply particle_at_spec in Hm as [Hn Hc]. rewrite length_drop in Hn.
  eapply (issue_ok_one t _ (Z.of_nat e - 1 - 1) (ch p)); cbn; try done; try lia.
  replace (Z.to_nat (Z.of_nat e - 1 - 1)) with (b + (e - b - 2))%nat by lia.
  etrans; [symmetry; apply lookup_drop|exact Hc].
Qed.

Lemma rule_issues_ok (t : text) : Forall (issue_ok t) (run_rule_checks t).
Proof.
  unfold run_rule_checks. case_bool_decide; [constructor|].
  repeat (apply Forall_app; split).
  - apply match_issue_ok, multi_space_at_le.
  - apply match_issue_ok, space_before_cn_punct_at_le.
  - apply match_issue_ok, repeat_char_at_le.
  - apply bracket_issues_Forall; intros idx c Hidx Hc;
      by eapply issue_ok_one.
  - by apply particle_issue_ok.
  - by apply particle_issue_ok.
  - by apply particle_issue_ok.
Qed.

End RegexLike.

Lemma lex_issues_ok (conf : gmap char (list text)) (valid : gset text)
    (t : text) :
  Forall (issue_ok t) (Lexicon.run_lex_checks conf valid t).
Proof.
  unfold Lexicon.run_lex_checks. case_bool_decide; [constructor|].
  apply Forall_app. split.
  - assert (forall s idx, 0 <= idx -> drop (Z.to_nat idx) t = s ->
              Forall (issue_ok t) (Lexicon.confusion_loop conf t idx s)) as Hl.
    { induction s as [|c s IH]; intros idx Hidx Hd; simpl; [constructor|].
      apply drop_cons_inv in Hd as [Hc Hd].
      apply Forall_app. split.
      - unfold Lexicon.confusion_char.
        repeat case_match; try (by constructor).
        constructor; [|constructor]. by eapply issue_ok_one.
      - apply IH; [lia|]. by replace (Z.to_nat (idx + 1)) with (S (Z.to_nat idx)) by lia. }
    by apply Hl.
  - apply Forall_flat_map. intros i Hi%in_seq. unfold Lexicon.bigram_at.
    case_match; [constructor|]. repeat constructor; cbn; try lia.
    unfold len. lia.
Qed.

(** The contract of [re]: the spans of the matches lie in the text. *)
Definition spans_in_text (rules : list Patterns.RegexRule) (t : text) : Prop :=
  forall r b e, In r rules -> In (b, e) (Patterns.finditer r t) ->
                0 <= b <= e /\ e <= len t.

Lemma pattern_issues_ok (rules : list Patterns.RegexRule) (t : text) :
  spans_in_text rules t ->
  Forall (issue_ok t) (Patterns.run_pattern_checks rules t).
Proof.
  intros Hspans. apply Forall_flat_map. intros r Hr. unfold Patterns.run.
  apply Forall_map, Forall_forall. intros [b e] Hin%list_elem_of_In.
  destruct (Hspans r b e Hr Hin) as [Hbe He].
  unfold issue_ok; cbn [begin end_ hit_text]. done.
Qed.

Lemma term_issues_ok (entries : list Terms.TermEntry) (t : text) (l : list issue) :
  Terms.run_term_checks entries t = Some l -> Forall (issue_ok t) l.
Proof.
  intros Hrun.
  destruct (run_term_checks_hits entries t) as (per & Hrun' & Hper).
  assert (l = concat per) as -> by congruence.
  eapply Forall_concat_Forall2; [exact Hper|].
  intros item bs _ (_ & _ & Hall & _).
  eapply Forall_impl; [exact Hall|].
  intros i (_ & _ & Hhit & Hend & Ho & Hsl).
  pose proof (occurs_at_slice _ _ _ Ho) as [Hle _].
  destruct Ho as [[? ?] _]. pose proof (len_nonneg (Terms.term item)).
  unfold issue_ok. rewrite Hsl, Hhit, Hend. repeat split; done || lia.
Qed.

Section PosSpans.
Import PosPatterns.

(** Tokens that follow one another without a gap, from the offset [o]. *)
Fixpoint chained (o : Z) (toks : list PosToken) : Prop :=
  match toks with
  | [] => True
  | tk :: toks' =>
    tok_begin tk = o /\ tok_end tk = o + len (word tk) /\
    chained (tok_end tk) toks'
  end.

Definition words (toks : list PosToken) : text := concat (map word toks).

Lemma py_find_here (t w : text) (o : Z) : occurs_at t w o -> py_find t w o = o.
Proof.
  intros Ho. pose proof Ho as [Hr _].
  destruct (py_find_spec t w o Hr) as [[_ Hno]|(Hle & _ & Hfirst)].
  - destruct (Hno o); [lia|done].
  - destruct (Z.eq_dec (py_find t w o) o) as [|Hne]; [done|].
    destruct (Hfirst o); [lia|done].
Qed.

(** When the surface forms of the tagger make up the text, [locate] finds
    every token where the one before it ends. *)
Lemma locate_partition (t post : text) (cut : list (text * text)) :
  forall pre, t = pre ++ concat (map fst cut) ++ post ->
              chained (len pre) (locate t (len pre) cut) /\
              map word (locate t (len pre) cut) = map fst cut.
Proof.
  induction cut as [|[w tg] cut IH]; intros pre Ht; [done|].
  cbn [locate map concat fst] in *.
  assert (occurs_at t w (len pre)) as Ho.
  { apply occurs_at_split. exists pre, (concat (map fst cut) ++ post).
    split; [|done]. by rewrite Ht, <- !app_assoc. }
  rewrite (py_find_here _ _ _ Ho).
  destruct (Z.ltb_spec (len pre) 0) as [Hneg|_];
    [pose proof (len_nonneg pre); lia|].
  rewrite <- len_app.
  destruct (IH (pre ++ w)) as [Hch Hw]; [by rewrite Ht, <- !app_assoc|].
  split; [|cbn; by rewrite Hw].
  cbn [chained tok_begin tok_end word]. rewrite len_app. split; [done|].
  split; [done|]. by rewrite <- len_app.
Qed.

Lemma words_app (a b : list PosToken) : words (a ++ b) = words a ++ words b.
Proof. unfold words. by rewrite map_app, concat_app. Qed.

Lemma chained_drop (toks : list PosToken) :
  forall o i, chained o toks -> chained (o + len (words (take i toks))) (drop i toks).
Proof.
  induction toks as [|tk toks IH]; intros o i Hch.
  - by destruct i.
  - destruct i as [|i]; simpl.
    + replace (o + len (words [])) with o by (unfold words, len; simpl; lia).
      done.
    + destruct Hch as (Hb & He & Hch). specialize (IH _ i Hch).
      replace (o + len (words (tk :: take i toks)))
        with (tok_end tk + len (words (take i toks))); [done|].
      unfold words. cbn [map concat]. rewrite len_app. lia.
Qed.

Lemma chained_take (toks : list PosToken) :
  forall o k, chained o toks -> chained o (take k toks).
Proof.
  induction toks as [|tk toks IH]; intros o k Hch; [by destruct k|].
  destruct k as [|k]; [done|]. destruct Hch as (Hb & He & Hch).
  simpl. auto.
Qed.

Lemma chained_last (toks : list PosToken) :
  forall o n last, chained o toks -> toks !! n = Some last ->
                   length toks = S n -> tok_end last = o + len (words toks).
Proof.
  induction toks as [|tk toks IH]; intros o n last Hch Hl Hlen; [done|].
  destruct Hch as (Hb & He & Hch). destruct n as [|n]; simpl in *.
  - injection Hl as <-. destruct toks; [|done].
    unfold words. simpl. by rewrite app_nil_r.
  - rewrite (IH _ n last Hch Hl) by lia.
    unfold words. cbn [map concat]. rewrite len_app. lia.
Qed.

Lemma match_at_ok (t pre post : text) (r : PosRule) (toks : list PosToken)
    (i : nat) (l : list issue) :
  t = pre ++ words toks ++ post -> chained (len pre) toks ->
  sequence r <> [] ->
  match_at r toks i = Ok l -> Forall (issue_ok t) l.
Proof.
  intros Ht Hch Hseq. unfold match_at.
  destruct (sequence_ok _ _) as [[|]|]; simpl; try done;
    [|intros [= <-]; constructor].
  destruct (toks !! i) as [first|] eqn:Hfirst; [|done].
  destruct (toks !! (i + length (sequence r) - 1)%nat) as [last|] eqn:Hlast;
    [|done].
  intros [= <-]. constructor; [|constructor].
  assert (1 <= length (sequence r))%nat as Hk1
    by (destruct (sequence r); [done|simpl; lia]).
  set (k := length (sequence r)) in *.
  set (W := take k (drop i toks)).
  pose proof (lookup_lt_Some _ _ _ Hlast) as Hk.
  pose proof (chained_take _ _ k (chained_drop _ _ i Hch)) as HW. fold W in HW.
  set (o := len pre + len (words (take i toks))) in *.
  assert (t = (pre ++ words (take i toks)) ++ words W
              ++ (words (drop k (drop i toks)) ++ post)) as Ht'.
  { rewrite Ht. rewrite <- (take_drop i toks) at 1.
    rewrite <- (take_drop k (drop i toks)) at 1. fold W.
    by rewrite !words_app, <- !app_assoc. }
  assert (len (pre ++ words (take i toks)) = o) as Ho by (by rewrite len_app).
  assert (tok_begin first = o) as Hb.
  { unfold W in HW. rewrite (drop_S _ _ _ Hfirst) in HW.
    destruct k as [|k']; [lia|]. by destruct HW as (? & _). }
  assert (tok_end last = o + len (words W)) as He.
  { apply (chained_last W o (k - 1)); [done| |].
    - unfold W. rewrite lookup_take_lt by lia.
      etrans; [apply lookup_drop|]. rewrite <- Hlast. f_equal. lia.
    - unfold W. rewrite length_take, length_drop. lia. }
  unfold issue_ok. cbn [begin end_ hit_text]. fold W. fold (words W).
  pose proof (len_nonneg (words W)). pose proof (len_nonneg pre).
  pose proof (len_nonneg (words (take i toks))).
  rewrite Hb, He. split; [lia|]. split.
  - rewrite Ht', !len_app. pose proof (len_nonneg (words (drop k (drop i toks)))).
    pose proof (len_nonneg post). lia.
  - rewrite Ht' at 1. rewrite <- Ho. by rewrite py_slice_middle.
Qed.

Lemma match_ok (t pre post : text) (r : PosRule) (toks : list PosToken)
    (l : list issue) :
  t = pre ++ words toks ++ post -> chained (len pre) toks ->
  match_ r toks = Ok l -> Forall (issue_ok t) l.
Proof.
  intros Ht Hch. unfold match_.
  destruct (Nat.eqb_spec (length (sequence r)) 0) as [|Hlen];
    [by intros [= <-]|].
  destruct (rmap _ _) as [ms|] eqn:Hms; simpl; [|done]. intros [= <-].
  apply rmap_Ok in Hms. eapply Forall_concat_Forall2; [exact Hms|].
  intros i bs _ Hi. eapply match_at_ok; [exact Ht|done| |exact Hi].
  by destruct (sequence r).
Qed.

Lemma set_context_ok (t : text) (i : issue) (l r : text) :
  issue_ok t i -> issue_ok t (set_context i l r).
Proof. done. Qed.

(** The issues of the pos engine, when the surface forms that the tagger
    returns for the text make up the text. *)
Lemma pos_issues_ok (cut : text -> result (list (text * text)))
    (rules : list PosRule) (t : text) (pairs : list (text * text))
    (l : list issue) :
  cut t = Ok pairs -> concat (map fst pairs) = t ->
  run_pos_checks (Some cut) rules t = Ok l -> Forall (issue_ok t) l.
Proof.
  intros Hcut Hpart. unfold run_pos_checks.
  case_bool_decide; [by intros [= <-]|]. rewrite Hcut. simpl.
  destruct (rmap _ _) as [ms|] eqn:Hms; simpl; [|done]. intros [= <-].
  destruct (locate_partition t [] pairs []) as [Hch Hw].
  { by rewrite Hpart, app_nil_r. }
  change (len []) with 0 in Hch, Hw.
  apply Forall_map. apply rmap_Ok in Hms.
  assert (Forall (issue_ok t) (concat ms)) as Hall.
  { eapply Forall_concat_Forall2; [exact Hms|].
    intros r bs _ Hr. eapply (match_ok t [] []); [|exact Hch|exact Hr].
    unfold words. by rewrite Hw, Hpart, app_nil_r. }
  eapply Forall_impl; [exact Hall|]. intros i Hi. by apply set_context_ok.
Qed.

End PosSpans.

(** ** The context fields *)

(** The two context fields are the eight characters of [t] on each side of
    the span. *)
Definition context_ok (t : text) (i : issue) : Prop :=
  context_left i = py_slice t (Z.max 0 (begin i - 8)) (begin i) /\
  context_right i = py_slice t (end_ i) (end_ i + 8).

Lemma rule_context (t : text) : Forall (context_ok t) (Rules.run_rule_checks t).
Proof.
  unfold Rules.run_rule_checks. case_bool_decide; [constructor|].
  repeat (apply Forall_app; split);
    try (apply Forall_map, Forall_forall; intros; split; reflexivity).
  apply bracket_issues_Forall; intros; split; reflexivity.
Qed.

Lemma lex_context (conf : gmap char (list text)) (valid : gset text) (t : text) :
  Forall (context_ok t) (Lexicon.run_lex_checks conf valid t).
Proof.
  unfold Lexicon.run_lex_checks. case_bool_decide; [constructor|].
  apply Forall_app. split.
  - assert (forall s idx,
              Forall (context_ok t) (Lexicon.confusion_loop conf t idx s)) as Hl.
    { induction s as [|c s IH]; intros idx; simpl; [constructor|].
      apply Forall_app. split; [|apply IH].
      unfold Lexicon.confusion_char.
      repeat case_match; by constructor. }
    apply Hl.
  - apply Forall_flat_map. intros i _. unfold Lexicon.bigram_at.
    case_match; [constructor|]. constructor; [|constructor]. split; reflexivity.
Qed.

Lemma pattern_context (rules : list Patterns.RegexRule) (t : text) :
  Forall (context_ok t) (Patterns.run_pattern_checks rules t).
Proof.
  apply Forall_flat_map. intros r _. unfold Patterns.run.
  apply Forall_map, Forall_forall. intros [b e] _. split; reflexivity.
Qed.

Lemma pos_context pseg (rules : list PosPatterns.PosRule) (t : text)
    (l : list issue) :
  PosPatterns.run_pos_checks pseg rules t = Ok l -> Forall (context_ok t) l.
Proof.
  unfold PosPatterns.run_pos_checks.
  destruct pseg as [cut|]; [|by intros [= <-]].
  case_bool_decide; [by intros [= <-]|].
  destruct (cut t) as [pairs|]; simpl; [|done].
  destruct (rmap _ _) as [ms|]; simpl; [|done]. intros [= <-].
  apply Forall_map, Forall_forall. intros i _. split; reflexivity.
Qed.

Lemma csc_context model (t : text) : Forall (context_ok t) (Csc.run_csc model t).
Proof.
  unfold Csc.run_csc. destruct model as [correct|]; [|constructor].
  case_bool_decide; [constructor|].
  destruct (correct t) as [[corrected details]|]; [|constructor].
  apply Forall_flat_map. intros [[[old new] b] e] _. unfold Csc.detail_issue.
  destruct (rbind _ _) as [[bi ei]|]; [|constructor].
  case_match; [constructor|]. constructor; [|constructor]. split; reflexivity.
Qed.

Lemma term_context (entries : list Terms.TermEntry) (t : text) (l : list issue) :
  Terms.run_term_checks entries t = Some l -> Forall (context_ok t) l.
Proof.
  intros Hrun.
  destruct (run_term_checks_hits entries t) as (per & Hrun' & Hper).
  assert (l = concat per) as -> by congruence.
  eapply Forall_concat_Forall2; [exact Hper|].
  intros item bs _ (_ & -> & _).
  apply Forall_map, Forall_forall. intros p _. split; reflexivity.
Qed.

(** ** [strip] *)

Lemma lstrip_spec (x : text) :
  exists ws, x = ws ++ lstrip x /\ Forall (fun c => isspace c = true) ws /\
             (forall c r, lstrip x = c :: r -> isspace c = false).
Proof.
  induction x as [|c x (ws & Hx & Hws & Hhd)]; simpl.
  - exists []. by repeat split.
  - destruct (isspace c) eqn:Hc.
    + exists (c :: ws). split; [by rewrite Hx at 1|]. split; [by constructor|done].
    + exists []. split; [done|]. split; [constructor|]. by intros c' r [= <- _].
Qed.

Lemma lstrip_id (x : text) :
  (forall c r, x = c :: r -> isspace c = false) -> lstrip x = x.
Proof. destruct x as [|c x]; [done|]. intros H. simpl. by rewrite (H c x). Qed.

Lemma lstrip_idemp (x : text) : lstrip (lstrip x) = lstrip x.
Proof. destruct (lstrip_spec x) as (_ & _ & _ & H). by apply lstrip_id. Qed.

Lemma rstrip_prefix (x : text) :
  exists ws, x = rstrip x ++ ws /\ Forall (fun c => isspace c = true) ws.
Proof.
  destruct (lstrip_spec (rev x)) as (ws & Hx & Hws & _).
  exists (rev ws). split; [|by apply Forall_rev].
  unfold rstrip. by rewrite <- rev_app_distr, <- Hx, rev_involutive.
Qed.

Lemma strip_idemp (x : text) : strip (strip x) = strip x.
Proof.
  unfold strip.
  assert (lstrip (rstrip (lstrip x)) = rstrip (lstrip x)) as ->.
  { apply lstrip_id. intros c r Hr.
    destruct (rstrip_prefix (lstrip x)) as (ws & Hx & _).
    rewrite Hr in Hx. destruct (lstrip_spec x) as (_ & _ & _ & Hhd).
    by eapply Hhd. }
  unfold rstrip. by rewrite rev_involutive, lstrip_idemp.
Qed.

Lemma strip_spaces (x : text) :
  Forall (fun c => isspace c = true) x -> strip x = [].
Proof.
  intros Hx. unfold strip. assert (lstrip x = []) as ->; [|done].
  induction Hx as [|c x Hc _ IH]; [done|]. simpl. by rewrite Hc.
Qed.

(** The stripped text is the submitted text without the whitespace at its
    two ends. *)
Lemma strip_spec (x : text) :
  exists l r, x = l ++ strip x ++ r /\
              Forall (fun c => isspace c = true) l /\
              Forall (fun c => isspace c = true) r.
Proof.
  destruct (lstrip_spec x) as (l & Hl & Hls & _).
  destruct (rstrip_prefix (lstrip x)) as (r & Hr & Hrs).
  exists l, r. split; [|done]. unfold strip. by rewrite <- Hr.
Qed.

(** ** Spans, contexts and stripping in the response *)

(** X21. The issues of the structural, lexicon, pattern and term engines
    satisfy [0 <= begin <= end <= len(text)] and
    [hit_text == text[begin:end]], the pattern engine under the contract of
    [re] that the spans of matches lie in the text.  Those of the pos engine
    do when the surface forms that the tagger returns make up the text. *)
Theorem engine_spans (cfg : App.config) (t : text) :
  spans_in_text (App._REGEX_RULES cfg) t ->
  (forall cut pairs, App.pseg cfg = Some cut -> cut t = Ok pairs ->
                     concat (map fst pairs) = t) ->
  Forall (issue_ok t) (Rules.run_rule_checks t) /\
  Forall (issue_ok t)
    (Lexicon.run_lex_checks (App.CONFUSION cfg) (App.VALID_WORDS cfg) t) /\
  Forall (issue_ok t) (Patterns.run_pattern_checks (App._REGEX_RULES cfg) t) /\
  (forall l, PosPatterns.run_pos_checks (App.pseg cfg) (App._POS_RULES cfg) t
             = Ok l -> Forall (issue_ok t) l) /\
  (exists l, Terms.run_term_checks (App.invalid_terms cfg) t = Some l /\
             Forall (issue_ok t) l).
Proof.
  intros Hspans Hpart.
  split; [apply rule_issues_ok|]. split; [apply lex_issues_ok|].
  split; [by apply pattern_issues_ok|]. split.
  - intros l Hl. destruct (App.pseg cfg) as [cut|] eqn:Hcut.
    + destruct (cut t) as [pairs|] eqn:Hpairs.
      * eapply pos_issues_ok; [exact Hpairs| |exact Hl]. by eapply Hpart.
      * unfold PosPatterns.run_pos_checks in Hl.
        case_bool_decide; [by injection Hl as <-|]. by rewrite Hpairs in Hl.
    + by injection Hl as <-.
  - destruct (run_term_checks_hits (App.invalid_terms cfg) t) as (per & Hrun & _).
    exists (concat per). split; [done|]. by eapply term_issues_ok.
Qed.

(** A model whose answer has an end offset beyond the text. *)
Definition overrun_model (t : text) : result (text * list Csc.detail) :=
  Ok (t, [(utf8 "b", utf8 "c", Csc.PyInt 1, Csc.PyInt 5)]).

(** C3 at a concrete answer of the model: for the text "ab" and the detail
    [("b", "c", 1, 5)], whose end offset is beyond the text, [run_csc]
    does not discard the pair: it emits the issue with [end = 5]. *)
Theorem csc_keeps_end_beyond_text :
  map (fun i => (type i, begin i, end_ i, hit_text i))
      (Csc.run_csc (Some overrun_model) (utf8 "ab"))
  = [("csc"%string, 1, 5, utf8 "b")] /\
  len (utf8 "ab") = 2.
Proof. split; by vm_compute. Qed.

Lemma in_code_order_In (cfg : App.config) (modes : json) (t : text)
    (terms : list issue) (i : issue) :
  In i (in_code_order cfg modes t terms) <->
  In i (rule_part modes t) \/ In i (lex_part cfg modes t) \/
  In i (pat_part cfg modes t) \/ In i (pos_part cfg modes t) \/
  In i (csc_part cfg modes t) \/ In i terms.
Proof. unfold in_code_order. rewrite !in_app_iff. tauto. Qed.

Lemma Forall_In {A} (P : A -> Prop) (l : list A) (x : A) :
  Forall P l -> In x l -> P x.
Proof. rewrite Forall_forall. intros H Hx. by apply H, list_elem_of_In. Qed.

Lemma parts_context (cfg : App.config) (modes : json) (t : text)
    (terms : list issue) :
  Terms.run_term_checks (App.invalid_terms cfg) t = Some terms ->
  Forall (context_ok t) (in_code_order cfg modes t terms).
Proof.
  intros Hterms. unfold in_code_order.
  repeat (apply Forall_app; split);
    try (apply guarded_Forall; intros l Hl; try injection Hl as <-).
  - apply rule_context.
  - apply lex_context.
  - apply pattern_context.
  - by eapply pos_context.
  - apply csc_context.
  - by eapply term_context.
Qed.

Lemma empty_text_parts (cfg : App.config) (modes : json) :
  Terms.run_term_checks (App.invalid_terms cfg) [] = Some [] /\
  in_code_order cfg modes [] [] = pat_part cfg modes [].
Proof.
  split; [done|]. unfold in_code_order, rule_part, lex_part, pos_part, csc_part.
  rewrite !guarded_enabled.
  assert (PosPatterns.run_pos_checks (App.pseg cfg) (App._POS_RULES cfg) []
          = Ok []) as -> by (by destruct (App.pseg cfg)).
  assert (Csc.run_csc (App._CSC_MODEL cfg) [] = []) as ->
    by (by destruct (App._CSC_MODEL cfg)).
  repeat (destruct (enabled _ _)); simpl; by rewrite ?app_nil_r.
Qed.

Lemma no_empty_match (rules : list Patterns.RegexRule) :
  (forall r, In r rules -> Patterns.finditer r [] = []) ->
  Patterns.run_pattern_checks rules [] = [].
Proof.
  induction rules as [|r rules IH]; intros Hno; [done|]. simpl.
  unfold Patterns.run at 1. rewrite (Hno r) by (by left). simpl.
  apply IH. intros r' Hr'. apply Hno. by right.
Qed.

Definition spaces (x : text) : Prop := Forall (fun c => isspace c = true) x.

(** C9, as the code has it.  [api_check] strips the whitespace at the two
    ends of the submitted text and gives the engines the stripped text: the
    response is the one for the stripped text, the context fields of every
    issue are slices of the stripped text around its span, and the spans of
    the structural, lexicon and term issues are spans of the stripped text.
    For a submission of whitespace only the engines get the empty text, on
    which only the pattern engine, which applies its rules to any text, can
    emit an issue: there is none when the pattern engine is off or no rule
    matches the empty text. *)
Theorem offsets_refer_to_stripped_text (cfg : App.config) (req : App.request) :
  let submitted := default [] (App.req_text req) in
  let t := strip submitted in
  exists resp,
    App.api_check cfg req = Some resp /\
    (exists l r, submitted = l ++ t ++ r /\ spaces l /\ spaces r) /\
    App.api_check cfg {| App.req_text := Some t;
                         App.req_modes := App.req_modes req |} = Some resp /\
    (forall i, In i (App.issues resp) ->
       context_ok t i /\
       (type i = "rule"%string \/ type i = "lex"%string \/
        type i = "term"%string -> issue_ok t i)) /\
    (spaces submitted ->
       t = [] /\
       Forall (has_type "pattern") (App.issues resp) /\
       (enabled (App.modes_of req) "pat" = false \/
        (forall r, In r (App._REGEX_RULES cfg) -> Patterns.finditer r [] = []) ->
        App.issues resp = [])).
Proof.
  intros submitted t.
  destruct (api_check_returns cfg req) as (terms & Hterms & Hresp).
  fold submitted in Hterms, Hresp. fold t in Hterms, Hresp.
  eexists. split; [exact Hresp|]. split; [apply strip_spec|]. split.
  { rewrite <- Hresp. unfold App.api_check, App.modes_of.
    cbn [App.req_text App.req_modes].
    change (default [] (Some t)) with t. unfold t, submitted.
    by rewrite strip_idemp. }
  cbn [App.issues].
  pose proof (sort_by_perm begin (in_code_order cfg (App.modes_of req) t terms))
    as Hperm.
  split.
  - intros i Hi. apply list_elem_of_In in Hi. rewrite Hperm in Hi.
    apply list_elem_of_In in Hi. split.
    { eapply Forall_In; [|exact Hi]. by apply parts_context. }
    intros Hty. apply in_code_order_In in Hi.
    destruct (parts_types cfg (App.modes_of req) t) as (H1 & H2 & H3 & H4 & H5).
    destruct Hi as [Hi|[Hi|[Hi|[Hi|[Hi|Hi]]]]].
    + eapply Forall_In; [|exact Hi]. apply guarded_Forall.
      intros l [= <-]. apply rule_issues_ok.
    + eapply Forall_In; [|exact Hi]. apply guarded_Forall.
      intros l [= <-]. apply lex_issues_ok.
    + pose proof (Forall_In _ _ _ H3 Hi) as Hp. unfold has_type in Hp.
      rewrite Hp in Hty. by destruct Hty as [|[|]].
    + pose proof (Forall_In _ _ _ H4 Hi) as Hp. unfold has_type in Hp.
      rewrite Hp in Hty. by destruct Hty as [|[|]].
    + pose proof (Forall_In _ _ _ H5 Hi) as Hp. unfold has_type in Hp.
      rewrite Hp in Hty. by destruct Hty as [|[|]].
    + eapply Forall_In; [|exact Hi]. by eapply term_issues_ok.
  - intros Hsp. pose proof (strip_spaces _ Hsp) as Ht. fold t in Ht.
    split; [done|]. revert Hterms Hperm. rewrite Ht. intros Hterms Hperm.
    destruct (empty_text_parts cfg (App.modes_of req)) as [Hempty Hparts].
    assert (terms = []) as -> by congruence.
    rewrite Hparts in Hperm |- *.
    destruct (parts_types cfg (App.modes_of req) []) as (_ & _ & H3 & _).
    split.
    { eapply Permutation_Forall; [symmetry; exact Hperm|done]. }
    intros Hoff. assert (pat_part cfg (App.modes_of req) [] = []) as ->; [|done].
    unfold pat_part. rewrite guarded_enabled.
    destruct Hoff as [-> | Hno]; [done|].
    rewrite no_empty_match by done. by destruct (enabled _ _).
Qed.

Definition sample_entry : Terms.TermEntry :=
  {| Terms.term := utf8 "ab"; Terms.suggestions := [utf8 "AB"];
     Terms.hint := utf8 "x"; Terms.confidence := 0.8%Q |}.

Lemma sample_occurs_twice : occurs_twice (utf8 "abcab") (utf8 "ab") 0 3.
Proof.
  split; [by vm_compute|]. split; [by vm_compute|]. split; [by vm_compute|].
  intros r [[Hlo Hhi] Hs]. change (len (utf8 "abcab")) with 5 in Hhi.
  assert (r = 0 \/ r = 1 \/ r = 2 \/ r = 3 \/ r = 4 \/ r = 5) as Hr by lia.
  destruct Hr as [->|[->|[->|[->|[->| ->]]]]]; vm_compute in Hs;
    try discriminate; auto.
Qed.

Lemma term_search_non_overlapping_witness :
  occurs_twice (utf8 "abcab") (utf8 "ab") 0 3 /\
  Terms.run_term_checks [sample_entry] (utf8 "abcab")
  = Some [Terms.term_issue (utf8 "abcab") sample_entry 0;
          Terms.term_issue (utf8 "abcab") sample_entry 3].
Proof.
  split; [exact sample_occurs_twice|].
  destruct (term_search_non_overlapping [sample_entry] (utf8 "abcab"))
    as (per & Hrun & Hper).
  change (Terms.load_terms [sample_entry]) with [sample_entry] in Hper.
  inversion Hper as [|item l terms per' Hhits Hrest]; subst.
  inversion Hrest; subst.
  destruct Hhits as (_ & _ & _ & _ & Htwice).
  rewrite Hrun, (Htwice 0 3 sample_occurs_twice). reflexivity.
Defined.

(** ** Concrete configurations and requests *)

Definition no_rules_cfg (terms : list Terms.TermEntry)
    (regex : list Patterns.RegexRule)
    (model : option (text -> result (text * list Csc.detail))) : App.config :=
  {| App.CONFUSION := Lexicon._DEFAULT_CONFUSION;
     App.VALID_WORDS := Lexicon.fallback_words;
     App._REGEX_RULES := regex;
     App._POS_RULES := [];
     App.invalid_terms := terms;
     App.pseg := None;
     App._CSC_MODEL := model |}.

(** A model that proposes to replace the first character. *)
Definition first_char_model (t : text) : result (text * list Csc.detail) :=
  Ok (t, [(utf8 "a", utf8 "x", Csc.PyInt 0, Csc.PyInt 1)]).

Definition tie_cfg : App.config :=
  no_rules_cfg [sample_entry] [] (Some first_char_model).

Definition only_csc_req : App.request :=
  {| App.req_text := Some (utf8 "ab");
     App.req_modes := Some (JObj {[ "csc"%string := JBool true ]}) |}.

(** C2 as stated fails: with a term issue and a spelling-model issue at the
    same [begin], the response has the spelling-model issue first, against
    the order of precedence that the specification gives. *)
Lemma spec_precedence_counterexample :
  exists resp,
    App.api_check tie_cfg only_csc_req = Some resp /\
    map (fun i => (type i, begin i, end_ i)) (App.issues resp)
    = [("csc"%string, 0, 1); ("term"%string, 0, 2)] /\
    ~ ordered_as spec_order (App.issues resp).
Proof.
  destruct (App.api_check tie_cfg only_csc_req) as [resp|] eqn:E;
    vm_compute in E; [|discriminate].
  injection E as <-. eexists. split; [reflexivity|]. split; [reflexivity|].
  intros Hs. apply StronglySorted_inv in Hs as [_ Hall].
  apply Forall_inv in Hall. destruct Hall as [Hlt|[_ Hrank]].
  - vm_compute in Hlt. discriminate.
  - vm_compute in Hrank. lia.
Qed.

(** The pattern [^], which matches once, at the start of any text. *)
Definition caret_rule : Patterns.RegexRule :=
  {| Patterns.rule_id := "line_start";
     Patterns.hint := utf8 "^";
     Patterns.suggest := [];
     Patterns.confidence := 0.7%Q;
     Patterns.finditer := fun _ => [(0, 0)] |}.

Definition caret_cfg : App.config := no_rules_cfg [] [caret_rule] None.

Definition blank_req : App.request :=
  {| App.req_text := Some (utf8 "  "); App.req_modes := None |}.

(** C9 as stated fails: a submission of two spaces gets an issue when a
    configured pattern matches the empty text. *)
Lemma whitespace_only_counterexample :
  spaces (utf8 "  ") /\
  exists resp,
    App.api_check caret_cfg blank_req = Some resp /\
    map issue_key (App.issues resp) = [("line_start"%string, 0, 0, [])].
Proof.
  split; [by repeat constructor|].
  destruct (App.api_check caret_cfg blank_req) as [resp|] eqn:E;
    vm_compute in E; [|discriminate].
  injection E as <-. eexists. split; reflexivity.
Qed.

(** A tagger that leaves the whitespace out, and a rule for a pronoun
    followed by an adjective. *)
Definition gap_cut (t : text) : result (list (text * text)) :=
  Ok [(utf8 "你", utf8 "r"); (utf8 "好", utf8 "a")].

Definition gap_rule : PosPatterns.PosRule :=
  {| PosPatterns.rule_id := "pron_adj";
     PosPatterns.sequence :=
       [ {| PosPatterns.cond_word := None; PosPatterns.cond_regex := None;
            PosPatterns.cond_tag := Some (utf8 "r") |};
         {| PosPatterns.cond_word := None; PosPatterns.cond_regex := None;
            PosPatterns.cond_tag := Some (utf8 "a") |} ];
     PosPatterns.hint := utf8 "x";
     PosPatterns.suggest := [];
     PosPatterns.confidence := 0.6%Q |}.

(** The configuration of a process whose spelling model gives the answer
    of [overrun_model], without rules and terms. *)
Definition overrun_cfg : App.config :=
  no_rules_cfg [] [] (Some overrun_model).

(** C1 at a concrete request: for the text "ab", with the spelling model
    switched on and answering with the detail [("b", "c", 1, 5)], the
    response of [api_check] has one issue, of the spelling-model engine,
    with [begin = 1] and [end = 5] on a text of two characters: [end] is
    beyond [len(text)].  Its hit is the slice [text[1:5]], which is "b". *)
Theorem response_span_beyond_text :
  exists resp,
    App.api_check overrun_cfg only_csc_req = Some resp /\
    map (fun i => (type i, begin i, end_ i, hit_text i)) (App.issues resp)
    = [("csc"%string, 1, 5, utf8 "b")] /\
    strip (utf8 "ab") = utf8 "ab" /\ len (utf8 "ab") = 2 /\
    Forall (fun i => ~ end_ i <= len (utf8 "ab") /\
                     hit_text i = py_slice (utf8 "ab") (begin i) (end_ i))
           (App.issues resp).
Proof.
  destruct (App.api_check overrun_cfg only_csc_req) as [resp|] eqn:E;
    vm_compute in E; [|discriminate].
  injection E as <-. eexists. split; [reflexivity|].
  split; [reflexivity|]. split; [by vm_compute|]. split; [by vm_compute|].
  constructor; [|constructor]. split; [|by vm_compute].
  intros Hend. vm_compute in Hend. by apply Hend.
Qed.

(** A rule whose pattern matches the first character of a text, and a tagger
    that returns the text as one token. *)
Definition first_char_rule : Patterns.RegexRule :=
  {| Patterns.rule_id := "first_char";
     Patterns.hint := utf8 "x";
     Patterns.suggest := [];
     Patterns.confidence := 0.7%Q;
     Patterns.finditer := fun t => match t with [] => [] | _ :: _ => [(0, 1)] end |}.

Definition whole_cut (t : text) : result (list (text * text)) :=
  Ok [(t, utf8 "x")].

Definition whole_cfg : App.config :=
  {| App.CONFUSION := Lexicon._DEFAULT_CONFUSION;
     App.VALID_WORDS := Lexicon.fallback_words;
     App._REGEX_RULES := [first_char_rule];
     App._POS_RULES := [gap_rule];
     App.invalid_terms := [sample_entry];
     App.pseg := Some whole_cut;
     App._CSC_MODEL := Some first_char_model |}.

Lemma engine_spans_witness :
  spans_in_text (App._REGEX_RULES whole_cfg) (utf8 "ab") /\
  Forall (issue_ok (utf8 "ab"))
    (Patterns.run_pattern_checks (App._REGEX_RULES whole_cfg) (utf8 "ab")) /\
  (forall l, PosPatterns.run_pos_checks (App.pseg whole_cfg)
               (App._POS_RULES whole_cfg) (utf8 "ab") = Ok l ->
             Forall (issue_ok (utf8 "ab")) l).
Proof.
  assert (spans_in_text (App._REGEX_RULES whole_cfg) (utf8 "ab")) as Hspans.
  { intros r b e [<-|[]] [[= <- <-]|[]]. by vm_compute. }
  assert (forall cut pairs, App.pseg whole_cfg = Some cut ->
            cut (utf8 "ab") = Ok pairs ->
            concat (map fst pairs) = utf8 "ab") as Hpart.
  { intros cut pairs [= <-] [= <-]. reflexivity. }
  split; [exact Hspans|].
  pose proof (engine_spans whole_cfg (utf8 "ab") Hspans Hpart)
    as (_ & _ & Hpat & Hpos & _).
  split; [exact Hpat|exact Hpos].
Defined.









Definition only_lex_req : App.request :=
  {| App.req_text := Some (utf8 "（拟好");
     App.req_modes := Some (JObj {[ "lex"%string := JBool true ]}) |}.

Lemma modes_defaulting_witness :
  enabled (App.modes_of only_lex_req) "rule" = false /\
  App.api_check tie_cfg only_lex_req
  = App.api_check tie_cfg
      (with_modes only_lex_req
         (JObj (<["rule"%string := JBool false]>
                  {[ "lex"%string := JBool true ]}))) /\
  (exists resp,
     App.api_check tie_cfg only_lex_req = Some resp /\
     Forall (fun i => type i <> "rule"%string) (App.issues resp)) /\
  App.modes_of blank_req = App.default_modes /\
  (exists resp,
     App.api_check tie_cfg blank_req = Some resp /\
     Forall (fun i => type i <> "csc"%string) (App.issues resp)).
Proof.
  destruct (modes_defaulting tie_cfg only_lex_req) as [_ Hobj].
  destruct (Hobj {[ "lex"%string := JBool true ]} "rule"%string)
    as (_ & Hoff & _ & Heq & _ & resp & terms & Hresp & _ & _ & Hnone).
  - reflexivity.
  - apply insert_non_empty.
  - vm_compute. reflexivity.
  - split; [exact Hoff|]. split; [exact Heq|]. split.
    { exists resp. split; [exact Hresp|]. apply Hnone. reflexivity. }
    destruct (modes_defaulting tie_cfg blank_req) as [Hdef _].
    destruct Hdef as (Hd & _ & _ & _ & _ & _ & _ & resp' & terms' & Hresp' & _
                      & _ & Hcsc); [left; reflexivity|].
    split; [exact Hd|]. exists resp'. split; [exact Hresp'|exact Hcsc].
Defined.

Lemma offsets_refer_to_stripped_text_witness :
  spaces (utf8 "  ") /\
  exists resp,
    App.api_check tie_cfg blank_req = Some resp /\ App.issues resp = [].
Proof.
  assert (spaces (default [] (App.req_text blank_req))) as Hsp
    by (by repeat constructor).
  split; [exact Hsp|].
  destruct (offsets_refer_to_stripped_text tie_cfg blank_req)
    as (resp & Hresp & _ & _ & _ & Hblank).
  destruct (Hblank Hsp) as (_ & _ & Hnone).
  exists resp. split; [exact Hresp|]. apply Hnone. right. by intros r [].
Defined.

(** * Further properties of the engines *)

(** ** The pattern checks of rules.py *)

Section StructuralMatches.
Import Rules.
Variable match_at : text -> option nat.

(** Matches start at or after the characters still to be skipped. *)
Lemma finditer_by_lower (s : text) :
  forall skip pos b e,
    In (b, e) (finditer_by match_at skip pos s) -> (pos + skip <= b)%nat.
Proof.
  induction s as [|c s IH]; intros skip pos b e; simpl; [done|].
  destruct skip as [|skip].
  - destruct (match_at (c :: s)) as [n|].
    + intros [[= <- <-]|Hin]; [lia|]. apply IH in Hin. lia.
    + intros Hin. apply IH in Hin. lia.
  - intros Hin. apply IH in Hin. lia.
Qed.

(** The matches come in the order of the text and do not overlap. *)
Lemma finditer_by_sorted (s : text) :
  forall skip pos,
    Sorted (fun x y : nat * nat => (x.2 <= y.1)%nat)
           (finditer_by match_at skip pos s).
Proof.
  induction s as [|c s IH]; intros skip pos; simpl; [constructor|].
  destruct skip as [|skip]; [|apply IH].
  destruct (match_at (c :: s)) as [n|]; [|apply IH].
  constructor; [apply IH|].
  destruct (finditer_by match_at (pred n) (S pos) s) as [|[b e] rest] eqn:E;
    constructor.
  assert (In (b, e) (finditer_by match_at (pred n) (S pos) s)) as Hin
    by (rewrite E; by left).
  apply finditer_by_lower in Hin. simpl. lia.
Qed.

(** Every position at which the pattern matches is inside a reported match:
    it is reported itself, or an earlier match covers it. *)
Lemma finditer_by_complete (s : text) :
  (forall s' n, match_at s' = Some n -> (1 <= n)%nat) ->
  forall skip pos k,
    (skip <= k < length s)%nat -> is_Some (match_at (drop k s)) ->
    exists b e, In (b, e) (finditer_by match_at skip pos s) /\
                (b <= pos + k < e)%nat.
Proof.
  intros Hpos. induction s as [|c s IH]; intros skip pos k Hk Hm; simpl in *;
    [lia|].
  destruct skip as [|skip].
  - destruct (match_at (c :: s)) as [n|] eqn:E.
    + destruct (decide (k < n)%nat) as [Hlt|Hge].
      * exists pos, (pos + n)%nat. split; [by left|lia].
      * pose proof (Hpos _ _ E).
        destruct k as [|k]; [lia|]. simpl in Hm.
        destruct (IH (pred n) (S pos) k) as (b & e & Hin & Hr); [lia|done|].
        exists b, e. split; [by right|lia].
    + destruct k as [|k]; [simpl in Hm; rewrite E in Hm; by destruct Hm|].
      simpl in Hm.
      destruct (IH 0%nat (S pos) k) as (b & e & Hin & Hr); [lia|done|].
      exists b, e. split; [done|lia].
  - destruct k as [|k]; [lia|]. simpl in Hm.
    destruct (IH skip (S pos) k) as (b & e & Hin & Hr); [lia|done|].
    exists b, e. split; [done|lia].
Qed.

End StructuralMatches.

Definition with_rule (rid : string) (i : issue) : Prop := rule_id i = rid.

#[local] Instance with_rule_dec rid i : Decision (with_rule rid i).
Proof. unfold with_rule. apply _. Defined.

Lemma filter_map_all {A B} (P : B -> Prop) `{!forall x, Decision (P x)}
    (f : A -> B) (l : list A) :
  (forall a, P (f a)) -> filter P (map f l) = map f l.
Proof.
  intros Hall. induction l as [|a l IH]; [done|]. simpl.
  rewrite filter_cons_True by apply Hall. by rewrite IH.
Qed.

Lemma Sorted_map {A B} (R : B -> B -> Prop) (f : A -> B) (l : list A) :
  Sorted (fun x y => R (f x) (f y)) l -> Sorted R (map f l).
Proof.
  induction 1 as [|a l _ IH Hhd]; simpl; constructor; [done|].
  destruct Hhd; simpl; by constructor.
Qed.

Lemma Sorted_weaken {A} (R R' : A -> A -> Prop) (l : list A) :
  (forall x y, R x y -> R' x y) -> Sorted R l -> Sorted R' l.
Proof.
  intros HR. induction 1 as [|a l _ IH Hhd]; constructor; [done|].
  destruct Hhd; constructor. auto.
Qed.

Lemma run_length_spec (p : char -> bool) (s : text) :
  Forall (fun c => p c = true) (take (Rules.run_length p s) s) /\
  (forall c, s !! Rules.run_length p s = Some c -> p c = false).
Proof.
  induction s as [|a s [IHf IHn]]; simpl; [split; [constructor|done]|].
  destruct (p a) eqn:Ha; simpl.
  - split; [by constructor|done].
  - split; [constructor|]. by intros c [= <-].
Qed.

(** The issues of one rule id among those of [run_rule_checks]. *)
Ltac rule_filter t :=
  unfold Rules.run_rule_checks; case_bool_decide; [by subst|];
  rewrite !filter_app;
  rewrite (filter_none _ (Rules.bracket_issues t))
    by (intros x Hx%list_elem_of_In Hr;
        pose proof (bracket_issues_rule t) as Hb;
        rewrite Forall_forall in Hb; specialize (Hb x Hx);
        unfold with_rule in Hr; destruct Hb as [Hb|Hb];
        rewrite Hb in Hr; discriminate);
  repeat match goal with
         | |- context [filter ?P (map ?f ?l)] =>
             first [ rewrite (filter_map_all P f l) by (intros; reflexivity)
                   | rewrite (filter_map_none P f l)
                       by (intros ? Hr; vm_compute in Hr; discriminate) ]
         end;
  simpl; rewrite ?app_nil_r; reflexivity.

Lemma multi_space_issues (t : text) :
  filter (with_rule "multi_space") (Rules.run_rule_checks t)
  = map (Rules.match_issue "multi_space" t (utf8 "连续空格")
           [utf8 "删除多余空格"] 0.85)
        (Rules.finditer Rules.multi_space_at t).
Proof. rule_filter t. Qed.

Lemma space_before_cn_punct_issues (t : text) :
  filter (with_rule "space_before_cn_punct") (Rules.run_rule_checks t)
  = map (Rules.match_issue "space_before_cn_punct" t (utf8 "中文标点前空格")
           [utf8 "删除多余空格"] 0.8)
        (Rules.finditer Rules.space_before_cn_punct_at t).
Proof. rule_filter t. Qed.

Lemma repeat_char_issues (t : text) :
  filter (with_rule "repeat_char") (Rules.run_rule_checks t)
  = map (Rules.match_issue "repeat_char" t (utf8 "连续重复汉字")
           [utf8 "删除重复字或合并为合适词"] 0.7)
        (Rules.finditer Rules.repeat_char_at t).
Proof. rule_filter t. Qed.

Lemma match_hit (t : text) (b e : nat) :
  (b <= e)%nat -> (e <= length t)%nat ->
  py_slice t (Z.of_nat b) (Z.of_nat e) = take (e - b) (drop b t).
Proof.
  intros Hbe He. rewrite py_slice_in_range by (unfold len; lia).
  rewrite Nat2Z.id. f_equal. lia.
Qed.

Lemma Forall_map_In {A B} (P : B -> Prop) (f : A -> B) (l : list A) :
  (forall a, In a l -> P (f a)) -> Forall P (map f l).
Proof.
  intros HP. apply Forall_map, Forall_forall. intros a Ha%list_elem_of_In. auto.
Qed.

(** The class of the multi-space check: U+3000 or whitespace. *)
Definition space_class (c : char) : bool := (c =? 12288)%N || isspace c.

(** X1. The [multi_space] issues of [run_rule_checks] are runs of at least
    two space characters (U+3000 or whitespace) of the text that cannot be
    extended to the right; they come in text order without overlap; and
    every two adjacent space characters lie in such an issue. *)
Theorem multi_space_runs (t : text) :
  let found := filter (with_rule "multi_space") (Rules.run_rule_checks t) in
  Forall (fun i =>
            issue_ok t i /\ 2 <= end_ i - begin i /\
            Forall (fun c => space_class c = true) (hit_text i) /\
            (forall c, t !! Z.to_nat (end_ i) = Some c -> space_class c = false) /\
            confidence i = 0.85%Q) found /\
  Sorted (fun i j => end_ i <= begin j) found /\
  (forall p a b, t !! p = Some a -> t !! S p = Some b ->
                 space_class a = true -> space_class b = true ->
                 exists i, In i found /\ begin i <= Z.of_nat p < end_ i).
Proof.
  intros found. subst found. rewrite multi_space_issues.
  split; [|split].
  - apply Forall_map_In. intros [b e] Hin.
    apply finditer_spec in Hin as (Hb & Hbe & Hm).
    pose proof (multi_space_at_le _ _ Hm) as Hle. rewrite length_drop in Hle.
    unfold Rules.multi_space_at in Hm. fold space_class in Hm.
    change (fun c => space_class c) with space_class in Hm.
    destruct (run_length_spec space_class (drop b t)) as [Hall Hnext].
    destruct (Nat.leb_spec 2 (Rules.run_length space_class (drop b t)))
      as [H2|]; [|done].
    injection Hm as Hm. rewrite Hm in Hall, Hnext, H2.
    unfold issue_ok, Rules.match_issue. cbn [begin end_ hit_text confidence fst snd Rules._make_issue].
    rewrite match_hit by lia. repeat split; try lia; try done.
    + unfold len. lia.
    + intros c Hc. apply Hnext. etrans; [apply lookup_drop|].
      rewrite <- Hc. f_equal. lia.
  - apply Sorted_map. unfold Rules.finditer.
    eapply Sorted_weaken; [|apply finditer_by_sorted].
    intros [b e] [b' e'] Hle. unfold Rules.match_issue.
    cbn [begin end_ fst snd Rules._make_issue] in Hle |- *. lia.
  - intros p a b Ha Hb Hsa Hsb.
    pose proof (lookup_lt_Some _ _ _ Ha) as Hp.
    destruct (finditer_by_complete Rules.multi_space_at t) with (skip := 0%nat)
      (pos := 0%nat) (k := p) as (b0 & e0 & Hin & Hr).
    + intros s' n Hn. unfold Rules.multi_space_at in Hn.
      destruct (Nat.leb_spec 2 (Rules.run_length
        (fun c => (c =? 12288)%N || isspace c) s')); [|done].
      injection Hn as <-. lia.
    + lia.
    + rewrite (drop_S _ _ _ Ha), (drop_S _ _ _ Hb).
      unfold Rules.multi_space_at. simpl. fold (space_class a) (space_class b).
      rewrite Hsa, Hsb. by eexists.
    + eexists. split; [apply in_map; exact Hin|]. unfold Rules.match_issue.
      cbn [begin end_ fst snd Rules._make_issue]. lia.
Qed.

Lemma Forall_eqb_replicate (c : char) (l : text) :
  Forall (fun x => (c =? x)%N = true) l -> l = replicate (length l) c.
Proof.
  induction 1 as [|x l Hx%N.eqb_eq _ IH]; [done|]. simpl. by rewrite <- IH, Hx.
Qed.

Lemma run_length_exact (p : char -> bool) (s : text) (n : nat) :
  Forall (fun c => p c = true) (take n s) ->
  (forall c, s !! n = Some c -> p c = false) ->
  (n <= length s)%nat -> Rules.run_length p s = n.
Proof.
  revert n. induction s as [|a s IH]; intros n Hall Hnext Hn.
  - simpl in Hn. by replace n with 0%nat by lia.
  - destruct n as [|n]; simpl in *.
    + by rewrite (Hnext a).
    + apply Forall_cons in Hall as [-> Hall]. f_equal. apply IH; [done|done|lia].
Qed.

(** X2. The [repeat_char] issues of [run_rule_checks] are runs of one
    ideograph, at least twice, that cannot be extended to the right; they
    come in text order without overlap; and every ideograph that is
    followed by itself lies in such an issue. *)
Theorem repeat_char_runs (t : text) :
  let found := filter (with_rule "repeat_char") (Rules.run_rule_checks t) in
  Forall (fun i =>
            issue_ok t i /\ 2 <= end_ i - begin i /\
            (exists c, Rules.is_cjk c = true /\
                       hit_text i = replicate (Z.to_nat (end_ i - begin i)) c /\
                       t !! Z.to_nat (end_ i) <> Some c) /\
            confidence i = 0.7%Q) found /\
  Sorted (fun i j => end_ i <= begin j) found /\
  (forall p c, t !! p = Some c -> t !! S p = Some c -> Rules.is_cjk c = true ->
               exists i, In i found /\ begin i <= Z.of_nat p < end_ i).
Proof.
  intros found. subst found. rewrite repeat_char_issues.
  split; [|split].
  - apply Forall_map_In. intros [b e] Hin.
    apply finditer_spec in Hin as (Hb & Hbe & Hm).
    pose proof (repeat_char_at_le _ _ Hm) as Hle. rewrite length_drop in Hle.
    destruct (lookup_lt_is_Some_2 t b Hb) as [c Hc].
    rewrite (drop_S _ _ _ Hc) in Hm. unfold Rules.repeat_char_at in Hm.
    destruct (Rules.is_cjk c) eqn:Hcjk; [|done].
    destruct (run_length_spec (N.eqb c) (drop (S b) t)) as [Hall Hnext].
    set (k := Rules.run_length (N.eqb c) (drop (S b) t)) in *.
    destruct (Nat.leb_spec 1 k) as [Hk|]; [|done]. injection Hm as Hm.
    unfold issue_ok, Rules.match_issue.
    cbn [begin end_ hit_text confidence fst snd Rules._make_issue].
    rewrite match_hit by lia. split; [split; [lia|split; [unfold len; lia|done]]|].
    split; [lia|]. split; [|done]. exists c. split; [done|]. split.
    + rewrite <- Hm, (drop_S _ _ _ Hc). simpl.
      replace (Z.to_nat (Z.of_nat e - Z.of_nat b)) with (S k) by lia. simpl.
      f_equal. rewrite (Forall_eqb_replicate c _ Hall) at 1.
      f_equal. rewrite length_take.
      pose proof (run_length_le (N.eqb c) (drop (S b) t)). fold k in H. lia.
    + rewrite Nat2Z.id. intros He.
      assert (drop (S b) t !! k = Some c) as Hk'.
      { etrans; [apply lookup_drop|]. rewrite <- He. f_equal. lia. }
      apply Hnext in Hk'. by rewrite N.eqb_refl in Hk'.
  - apply Sorted_map. unfold Rules.finditer.
    eapply Sorted_weaken; [|apply finditer_by_sorted].
    intros [b e] [b' e'] Hle. unfold Rules.match_issue.
    cbn [begin end_ fst snd Rules._make_issue] in Hle |- *. lia.
  - intros p c Hc Hc' Hcjk.
    pose proof (lookup_lt_Some _ _ _ Hc) as Hp.
    destruct (finditer_by_complete Rules.repeat_char_at t) with (skip := 0%nat)
      (pos := 0%nat) (k := p) as (b0 & e0 & Hin & Hr).
    + intros s' n Hn. unfold Rules.repeat_char_at in Hn.
      repeat case_match; try done. injection Hn as <-. lia.
    + lia.
    + rewrite (drop_S _ _ _ Hc), (drop_S _ _ _ Hc').
      unfold Rules.repeat_char_at. rewrite Hcjk. simpl.
      rewrite N.eqb_refl. by eexists.
    + eexists. split; [apply in_map; exact Hin|]. unfold Rules.match_issue.
      cbn [begin end_ fst snd Rules._make_issue]. lia.
Qed.

Lemma cn_punct_not_space (c : char) :
  Rules.mem c Rules.cn_punct = true -> isspace c = false.
Proof.
  intros Hc%mem_In. vm_compute in Hc.
  repeat (destruct Hc as [<-|Hc]; [by vm_compute|]). done.
Qed.

(** X3. The [space_before_cn_punct] issues of [run_rule_checks] are
    non-empty runs of whitespace that end right before one of the marks
    "，。；：！？、"; they come in text order without overlap; and every
    whitespace character from which only whitespace leads up to such a mark
    lies in an issue that ends at the mark. *)
Theorem space_before_cn_punct_runs (t : text) :
  let found := filter (with_rule "space_before_cn_punct")
                      (Rules.run_rule_checks t) in
  Forall (fun i =>
            issue_ok t i /\ 1 <= end_ i - begin i /\
            Forall (fun c => isspace c = true) (hit_text i) /\
            (exists c, t !! Z.to_nat (end_ i) = Some c /\
                       Rules.mem c Rules.cn_punct = true) /\
            confidence i = 0.8%Q) found /\
  Sorted (fun i j => end_ i <= begin j) found /\
  (forall p q c, (p < q)%nat ->
                 Forall (fun a => isspace a = true) (take (q - p) (drop p t)) ->
                 t !! q = Some c -> Rules.mem c Rules.cn_punct = true ->
                 exists i, In i found /\ begin i <= Z.of_nat p < end_ i /\
                           end_ i = Z.of_nat q).
Proof.
  intros found. subst found. rewrite space_before_cn_punct_issues.
  assert (forall b e, In (b, e) (Rules.finditer Rules.space_before_cn_punct_at t) ->
            (b < e <= length t)%nat /\
            Forall (fun c => isspace c = true) (take (e - b) (drop b t)) /\
            exists c, t !! e = Some c /\ Rules.mem c Rules.cn_punct = true)
    as Hshape.
  { intros b e Hin. apply finditer_spec in Hin as (Hb & Hbe & Hm).
    pose proof (space_before_cn_punct_at_le _ _ Hm) as Hle.
    rewrite length_drop in Hle.
    unfold Rules.space_before_cn_punct_at in Hm.
    destruct (run_length_spec isspace (drop b t)) as [Hall _].
    destruct (Nat.leb_spec 1 (Rules.run_length isspace (drop b t)))
      as [H1|]; [|done].
    destruct (drop (Rules.run_length isspace (drop b t)) (drop b t))
      as [|c rest] eqn:Hd; [done|].
    destruct (Rules.mem c Rules.cn_punct) eqn:Hc; [|done].
    injection Hm as Hm. rewrite Hm in Hall, Hd, H1.
    split; [lia|]. split; [done|]. exists c. split; [|done].
    apply drop_cons_inv in Hd as [Hd _].
    rewrite <- Hd. symmetry. etrans; [apply lookup_drop|]. f_equal. lia. }
  split; [|split].
  - apply Forall_map_In. intros [b e] Hin.
    destruct (Hshape b e Hin) as (Hbe & Hall & c & Hc & Hp).
    unfold issue_ok, Rules.match_issue.
    cbn [begin end_ hit_text confidence fst snd Rules._make_issue].
    rewrite match_hit by lia. rewrite Nat2Z.id.
    split; [split; [lia|split; [unfold len; lia|done]]|].
    split; [lia|]. split; [done|]. split; [eauto|done].
  - apply Sorted_map. unfold Rules.finditer.
    eapply Sorted_weaken; [|apply finditer_by_sorted].
    intros [b e] [b' e'] Hle. unfold Rules.match_issue.
    cbn [begin end_ fst snd Rules._make_issue] in Hle |- *. lia.
  - intros p q c Hpq Hws Hc Hpunct.
    pose proof (lookup_lt_Some _ _ _ Hc) as Hq.
    assert (Rules.run_length isspace (drop p t) = (q - p)%nat) as Hrun.
    { apply run_length_exact; [done| |rewrite length_drop; lia].
      intros c' Hc'. apply cn_punct_not_space.
      assert (t !! q = Some c') as Hq'.
      { rewrite <- Hc'. symmetry. etrans; [apply lookup_drop|]. f_equal. lia. }
      by replace c' with c by congruence. }
    destruct (finditer_by_complete Rules.space_before_cn_punct_at t)
      with (skip := 0%nat) (pos := 0%nat) (k := p) as (b0 & e0 & Hin & Hr).
    + intros s' n Hn. unfold Rules.space_before_cn_punct_at in Hn.
      destruct (Nat.leb_spec 1 (Rules.run_length isspace s')); [|done].
      repeat case_match; try done. injection Hn as <-. lia.
    + lia.
    + unfold Rules.space_before_cn_punct_at. rewrite Hrun.
      destruct (Nat.leb_spec 1 (q - p)); [|lia].
      rewrite drop_drop. replace (p + (q - p))%nat with q by lia.
      rewrite (drop_S _ _ _ Hc), Hpunct. by eexists.
    + destruct (Hshape b0 e0 Hin) as (Hbe & Hall & c0 & Hc0 & Hp0).
      eexists. split; [apply in_map; exact Hin|]. unfold Rules.match_issue.
      cbn [begin end_ fst snd Rules._make_issue]. split; [lia|].
      f_equal. destruct (Nat.lt_trichotomy e0 q) as [Hlt|[Heq|Hgt]]; [|done|].
      * (* the mark at [e0] would be one of the whitespace characters *)
        exfalso. rewrite Forall_forall in Hws.
        assert (isspace c0 = true) as Hsp.
        { apply Hws. apply list_elem_of_lookup. exists (e0 - p)%nat.
          rewrite lookup_take_lt by lia. etrans; [apply lookup_drop|].
          rewrite <- Hc0. f_equal. lia. }
        apply cn_punct_not_space in Hp0. congruence.
      * (* the mark at [q] would be inside the whitespace of the issue *)
        exfalso. rewrite Forall_forall in Hall.
        assert (isspace c = true) as Hsp.
        { apply Hall. apply list_elem_of_lookup. exists (q - b0)%nat.
          rewrite lookup_take_lt by lia. etrans; [apply lookup_drop|].
          rewrite <- Hc. f_equal. lia. }
        apply cn_punct_not_space in Hpunct. congruence.
Qed.

Lemma de_maybe_di_issues (t : text) :
  filter (with_rule "de_maybe_di") (Rules.run_rule_checks t)
  = map (Rules.particle_issue "de_maybe_di" t (utf8 "的") (utf8 "可能应为“地”")
           [utf8 "将“的”改为“地”"] 0.55)
        (Rules.finditer (Rules.particle_at (Rules.ch "的")) t).
Proof. rule_filter t. Qed.

Lemma di_maybe_de_issues (t : text) :
  filter (with_rule "di_maybe_de") (Rules.run_rule_checks t)
  = map (Rules.particle_issue "di_maybe_de" t (utf8 "地") (utf8 "可能应为“的”")
           [utf8 "将“地”改为“的”"] 0.55)
        (Rules.finditer (Rules.particle_at (Rules.ch "地")) t).
Proof. rule_filter t. Qed.

Lemma dei_maybe_de_issues (t : text) :
  filter (with_rule "dei_maybe_de") (Rules.run_rule_checks t)
  = map (Rules.particle_issue "dei_maybe_de" t (utf8 "得")
           (utf8 "可能应为“地/的”") [utf8 "根据上下文调整“得”的用法"] 0.5)
        (Rules.finditer (Rules.particle_at (Rules.ch "得")) t).
Proof. rule_filter t. Qed.

(** The particle of a match stands between two ideographs. *)
Lemma particle_at_neighbours (p : char) (s : text) (n : nat) :
  Rules.particle_at p s = Some n ->
  (3 <= n <= length s)%nat /\ s !! (n - 2)%nat = Some p /\
  (exists a, s !! (n - 3)%nat = Some a /\ Rules.is_cjk a = true) /\
  (exists c, s !! (n - 1)%nat = Some c /\ Rules.is_cjk c = true).
Proof.
  unfold Rules.particle_at. destruct s as [|a [|b rest]]; try done.
  destruct (Rules.is_cjk a) eqn:Ha; [|done].
  destruct (Rules.is_cjk b && _) eqn:E4.
  - intros [= <-]. destruct rest as [|c [|d rest]];
      try (by rewrite andb_false_r in E4).
    apply andb_prop in E4 as [Hb [Hc Hd]%andb_prop]. apply N.eqb_eq in Hc as ->.
    simpl. split; [lia|]. split; [done|]. split; eauto.
  - destruct ((b =? p)%N && _) eqn:E3; [|done]. intros [= <-].
    destruct rest as [|c rest]; [by rewrite andb_false_r in E3|].
    apply andb_prop in E3 as [Hb Hc]. apply N.eqb_eq in Hb as ->.
    simpl. split; [lia|]. split; [done|]. split; eauto.
Qed.

(** What the three particle hints have in common, for the issues [found]
    of one of them, its particle [p] and its confidence [conf]. *)
Definition particle_hints (t : text) (p : char) (conf : Q)
    (found : list issue) : Prop :=
  Forall (fun i =>
            issue_ok t i /\ 1 <= begin i /\ end_ i = begin i + 1 /\
            hit_text i = [p] /\ confidence i = conf /\
            (exists a, t !! Z.to_nat (begin i - 1) = Some a /\
                       Rules.is_cjk a = true) /\
            (exists c, t !! Z.to_nat (begin i + 1) = Some c /\
                       Rules.is_cjk c = true)) found /\
  Sorted (fun i j => begin i + 3 <= begin j) found.

Lemma particle_issues_hints (t : text) (p : string) (rid : string) (ev : text)
    (sug : list text) (conf : Q) :
  utf8 p = [Rules.ch p] ->
  particle_hints t (Rules.ch p) conf
    (map (Rules.particle_issue rid t (utf8 p) ev sug conf)
         (Rules.finditer (Rules.particle_at (Rules.ch p)) t)).
Proof.
  intros Hp. split.
  - pose proof (particle_issue_ok p t rid ev sug conf Hp) as Hok.
    rewrite Forall_forall in Hok.
    apply Forall_map_In. intros [b e] Hin.
    split; [apply Hok, list_elem_of_In; by apply in_map|].
    apply finditer_spec in Hin as (Hb & Hbe & Hm).
    apply particle_at_neighbours in Hm as (Hn & _ & (a & Ha & Hcjk) & (c & Hc & Hcjk')).
    rewrite length_drop in Hn.
    unfold Rules.particle_issue.
    cbn [begin end_ hit_text confidence fst snd Rules._make_issue].
    split; [lia|]. split; [done|]. split; [done|]. split; [done|]. split.
    + exists a. split; [|done]. rewrite <- Ha. symmetry.
      etrans; [apply lookup_drop|]. f_equal. lia.
    + exists c. split; [|done]. rewrite <- Hc. symmetry.
      etrans; [apply lookup_drop|]. f_equal. lia.
  - apply Sorted_map.
    assert (forall s skip pos,
              Sorted (fun x y : nat * nat => (x.2 + 1 <= y.2 - 2)%nat /\ (3 <= y.2)%nat)
                     (Rules.finditer_by (Rules.particle_at (Rules.ch p)) skip pos s))
      as Hs.
    { induction s as [|c s IH]; intros skip pos; cbn [Rules.finditer_by];
        [constructor|].
      destruct skip as [|skip]; [|apply IH].
      destruct (Rules.particle_at (Rules.ch p) (c :: s)) as [n|] eqn:E;
        [|apply IH].
      constructor; [apply IH|].
      destruct (Rules.finditer_by _ (pred n) (S pos) s) as [|[b e] rest] eqn:E';
        constructor.
      assert (In (b, e) (Rules.finditer_by (Rules.particle_at (Rules.ch p))
                           (pred n) (S pos) s)) as Hin by (rewrite E'; by left).
      pose proof (finditer_by_lower _ _ _ _ _ _ Hin) as Hlow.
      apply finditer_by_spec in Hin as (k & -> & _ & Hm & _).
      apply particle_at_neighbours in Hm as (Hn & _).
      apply particle_at_neighbours in E as (Hn' & _). simpl. lia. }
    eapply Sorted_weaken; [|apply (Hs t 0%nat 0%nat)].
    intros [b e] [b' e'] [Hle H3]. unfold Rules.particle_issue.
    cbn [begin end_ fst snd Rules._make_issue] in Hle, H3 |- *. lia.
Qed.

(** X4. Each issue of the three particle hints of [run_rule_checks] spans
    one character, which is the particle of the hint ("的", "地" or "得") and
    stands in the text between two ideographs, and has the confidence of its
    hint: 0.55 for [de_maybe_di] and [di_maybe_de], 0.5 for [dei_maybe_de];
    two issues of one hint are at least three characters apart. *)
Theorem particle_hint_issues (t : text) :
  particle_hints t (Rules.ch "的") 0.55
    (filter (with_rule "de_maybe_di") (Rules.run_rule_checks t)) /\
  particle_hints t (Rules.ch "地") 0.55
    (filter (with_rule "di_maybe_de") (Rules.run_rule_checks t)) /\
  particle_hints t (Rules.ch "得") 0.5
    (filter (with_rule "dei_maybe_de") (Rules.run_rule_checks t)).
Proof.
  rewrite de_maybe_di_issues, di_maybe_de_issues, dei_maybe_de_issues.
  split; [|split]; by apply particle_issues_hints.
Qed.

(** ** The bracket issues, by kind *)

Lemma unpaired_bracket_issues (t : text) :
  filter (with_rule "unpaired_bracket") (Rules.run_rule_checks t)
  = (Rules.bracket_loop t 0 t []).2.
Proof.
  assert (forall s idx stack,
            Forall (with_rule "unpaired_bracket")
                   (Rules.bracket_loop t idx s stack).2) as Hout.
  { induction s as [|c s IH]; intros idx stack; [constructor|].
    cbn [Rules.bracket_loop].
    destruct (Rules.bracket_step t idx c stack) as [st1 out1] eqn:E1.
    specialize (IH (idx + 1) st1).
    destruct (Rules.bracket_loop t (idx + 1) s st1) as [st2 out2].
    simpl in *. apply Forall_app. split; [|done].
    unfold Rules.bracket_step in E1.
    repeat case_match; simplify_eq; by repeat constructor. }
  unfold Rules.run_rule_checks. case_bool_decide; [by subst|].
  rewrite !filter_app.
  repeat match goal with
         | |- context [filter ?P (map ?f ?l)] =>
             rewrite (filter_map_none P f l)
               by (intros ? Hr; vm_compute in Hr; discriminate)
         end.
  unfold Rules.bracket_issues. specialize (Hout t 0 []).
  destruct (Rules.bracket_loop t 0 t []) as [st out]. simpl in *.
  rewrite filter_app, (filter_all _ _ Hout).
  rewrite filter_map_none by (intros ? Hr; vm_compute in Hr; discriminate).
  by rewrite !app_nil_r.
Qed.

Lemma unclosed_bracket_issues (t : text) :
  filter (with_rule "unclosed_bracket") (Rules.run_rule_checks t)
  = map (Rules.unclosed_issue t) (rev (Rules.bracket_loop t 0 t []).1).
Proof.
  pose proof (unpaired_bracket_issues t) as Hunp.
  unfold Rules.run_rule_checks in *. case_bool_decide; [by subst|].
  rewrite !filter_app.
  repeat match goal with
         | |- context [filter ?P (map ?f ?l)] =>
             rewrite (filter_map_none P f l)
               by (intros ? Hr; vm_compute in Hr; discriminate)
         end.
  unfold Rules.bracket_issues.
  assert (Forall (with_rule "unpaired_bracket") (Rules.bracket_loop t 0 t []).2)
    as Hout.
  { rewrite <- Hunp. apply Forall_forall. intros x Hx.
    by apply list_elem_of_filter in Hx as [? _]. }
  destruct (Rules.bracket_loop t 0 t []) as [st out]. simpl in *.
  rewrite filter_app. rewrite (filter_none _ out).
  2:{ intros x Hx%list_elem_of_In Hr. rewrite Forall_forall in Hout.
      specialize (Hout x Hx). unfold with_rule in *. congruence. }
  rewrite filter_map_all by (intros; reflexivity).
  by rewrite !app_nil_r.
Qed.

(** The invariant of the scan: the stack holds openers of the text, the
    later the nearer to the top; the issues are for closers, in text
    order. *)
Definition stack_ok (t : text) (bound : Z) (stack : list (char * Z)) : Prop :=
  Forall (fun e => 0 <= e.2 < bound /\ t !! Z.to_nat e.2 = Some e.1 /\
                   opener e.1) stack /\
  Sorted (fun e1 e2 : char * Z => e2.2 < e1.2) stack.

Definition unpaired_ok (t : text) (from : Z) (out : list issue) : Prop :=
  Forall (fun i => from <= begin i /\
                   exists c, i = Rules.unpaired_issue t (begin i) c /\
                             t !! Z.to_nat (begin i) = Some c /\ closer c) out /\
  Sorted (fun i j => begin i < begin j) out.

Lemma bracket_loop_positions (t : text) :
  forall s idx stack,
    0 <= idx -> drop (Z.to_nat idx) t = s -> stack_ok t idx stack ->
    stack_ok t (idx + len s) (Rules.bracket_loop t idx s stack).1 /\
    unpaired_ok t idx (Rules.bracket_loop t idx s stack).2.
Proof.
  induction s as [|c s IH]; intros idx stack Hidx Hd Hst.
  { simpl. replace (idx + len []) with idx by (unfold len; simpl; lia).
    split; [done|]. split; constructor. }
  apply drop_cons_inv in Hd as [Hc Hd].
  replace (S (Z.to_nat idx)) with (Z.to_nat (idx + 1)) in Hd by lia.
  assert (0 <= idx + 1) as Hidx' by lia.
  replace (idx + len (c :: s)) with (idx + 1 + len s)
    by (unfold len; simpl length; lia).
  assert (forall stack', stack_ok t (idx + 1) stack' ->
            stack_ok t (idx + 1 + len s)
              (Rules.bracket_loop t (idx + 1) s stack').1 /\
            unpaired_ok t idx (Rules.bracket_loop t (idx + 1) s stack').2)
    as Hnext.
  { intros stack' Hst'. destruct (IH (idx + 1) stack' Hidx' Hd Hst')
      as [Hs [Hf Hso]]. split; [done|]. split; [|done].
    eapply Forall_impl; [exact Hf|]. intros i [Hi Hrest]. split; [lia|done]. }
  assert (stack_ok t (idx + 1) stack) as Hst1.
  { destruct Hst as [Hf Hso]. split; [|done].
    eapply Forall_impl; [exact Hf|]. intros e (Hb & He). split; [lia|done]. }
  assert (forall stack',
            stack_ok t (idx + 1) stack' -> closer c ->
            stack_ok t (idx + 1 + len s)
              (Rules.bracket_loop t (idx + 1) s stack').1 /\
            unpaired_ok t idx
              (Rules.unpaired_issue t idx c
               :: (Rules.bracket_loop t (idx + 1) s stack').2)) as Hemit.
  { intros stack' Hst' Hcl.
    destruct (IH (idx + 1) stack' Hidx' Hd Hst') as [Hs [Hf Hso]].
    split; [done|]. split.
    - constructor.
      + split; [cbn; lia|]. exists c. by repeat split.
      + eapply Forall_impl; [exact Hf|]. intros i [Hi Hrest]. split; [lia|done].
    - constructor; [done|].
      destruct (Rules.bracket_loop t (idx + 1) s stack').2 as [|j rest];
        constructor.
      apply Forall_cons in Hf as [[Hj _] _]. cbn. lia. }
  cbn [Rules.bracket_loop]. unfold Rules.bracket_step.
  destruct (Rules.in_pairs c) eqn:Hop.
  { specialize (Hnext ((c, idx) :: stack)).
    destruct (Rules.bracket_loop t (idx + 1) s _) as [st out]. simpl in *.
    apply Hnext. destruct Hst as [Hf Hso]. split.
    - constructor.
      + simpl. split; [lia|]. split; [done|]. by apply in_pairs_opener.
      + eapply Forall_impl; [exact Hf|]. intros e (Hb & He). split; [lia|done].
    - constructor; [done|]. destruct stack as [|e stack]; constructor.
      apply Forall_cons in Hf as [[Hb _] _]. simpl. lia. }
  destruct (Rules.in_pairs_values c) eqn:Hcl.
  - apply in_pairs_values_closer in Hcl.
    destruct stack as [|top stack].
    + specialize (Hemit [] Hst1 Hcl).
      destruct (Rules.bracket_loop t (idx + 1) s _) as [st out]. by simpl in *.
    + case_bool_decide.
      * assert (stack_ok t (idx + 1) stack) as Hpop.
        { destruct Hst1 as [Hf Hso]. apply Forall_cons in Hf as [_ Hf].
          split; [done|]. by inversion Hso. }
        specialize (Hnext stack Hpop).
        destruct (Rules.bracket_loop t (idx + 1) s _) as [st out]. by simpl in *.
      * specialize (Hemit (top :: stack) Hst1 Hcl).
        destruct (Rules.bracket_loop t (idx + 1) s _) as [st out]. by simpl in *.
  - specialize (Hnext stack Hst1).
    destruct (Rules.bracket_loop t (idx + 1) s _) as [st out]. by simpl in *.
Qed.

(** X5. The [unpaired_bracket] issues of [run_rule_checks] are at closers
    of the text and the [unclosed_bracket] issues at openers, each spanning
    that one character; the issues of each kind come in text order, and no
    two of a kind are at the same place. *)
Theorem bracket_issue_positions (t : text) :
  let unpaired := filter (with_rule "unpaired_bracket") (Rules.run_rule_checks t) in
  let unclosed := filter (with_rule "unclosed_bracket") (Rules.run_rule_checks t) in
  Forall (fun i => issue_ok t i /\ end_ i = begin i + 1 /\
                   exists c, hit_text i = [c] /\ closer c) unpaired /\
  Sorted (fun i j => begin i < begin j) unpaired /\
  Forall (fun i => issue_ok t i /\ end_ i = begin i + 1 /\
                   exists c, hit_text i = [c] /\ opener c) unclosed /\
  Sorted (fun i j => begin i < begin j) unclosed.
Proof.
  intros unpaired unclosed. subst unpaired unclosed.
  rewrite unpaired_bracket_issues, unclosed_bracket_issues.
  destruct (bracket_loop_positions t t 0 []) as [[Hst Hsorted] [Hout Hosorted]];
    [done|done|split; constructor|].
  destruct (Rules.bracket_loop t 0 t []) as [stack out]. simpl in *.
  split; [|split; [done|split]].
  - eapply Forall_impl; [exact Hout|].
    intros i (Hi & c & Heq & Hc & Hcl). split.
    + eapply (issue_ok_one t i (begin i) c); try done; by rewrite Heq.
    + split; [by rewrite Heq|]. exists c. split; [by rewrite Heq|done].
  - apply Forall_map, Forall_rev. eapply Forall_impl; [exact Hst|].
    intros [o i] ((Hi & _) & Ho & Hop). simpl in *. split.
    + by eapply (issue_ok_one t _ i o).
    + split; [done|]. by exists o.
  - apply Sorted_map.
    assert (StronglySorted (fun e1 e2 : char * Z => e2.2 < e1.2) stack) as Hss.
    { apply Sorted_StronglySorted; [|done]. intros x y z ? ?. lia. }
    assert (StronglySorted (fun e1 e2 : char * Z => e1.2 < e2.2) (rev stack))
      as Hrev.
    { clear -Hss. induction Hss as [|e stack _ IH Hall]; simpl; [constructor|].
      apply StronglySorted_app_2; [|done|repeat constructor].
      intros x1 x2 Hx1%list_elem_of_In Hx2%list_elem_of_singleton. subst x2.
      apply in_rev, list_elem_of_In in Hx1.
      rewrite Forall_forall in Hall. by apply Hall. }
    eapply Sorted_weaken; [|apply StronglySorted_Sorted, Hrev].
    intros [o1 i1] [o2 i2] Hlt. exact Hlt.
Qed.

Definition count_chars (p : char -> bool) (s : text) : nat :=
  length (List.filter p s).

Lemma bracket_loop_counts (t : text) :
  forall s idx stack,
    (length (Rules.bracket_loop t idx s stack).1
     + count_chars Rules.in_pairs_values s
     = length stack + count_chars Rules.in_pairs s
       + length (Rules.bracket_loop t idx s stack).2)%nat.
Proof.
  unfold count_chars.
  induction s as [|c s IH]; intros idx stack; [simpl; lia|].
  cbn [Rules.bracket_loop List.filter]. unfold Rules.bracket_step.
  destruct (Rules.in_pairs c) eqn:Hop.
  { assert (Rules.in_pairs_values c = false) as ->.
    { destruct (Rules.in_pairs_values c) eqn:Hcl; [|done].
      apply in_pairs_values_closer, closer_not_opener in Hcl. congruence. }
    specialize (IH (idx + 1) ((c, idx) :: stack)).
    destruct (Rules.bracket_loop t (idx + 1) s _) as [st out].
    simpl in *. lia. }
  destruct (Rules.in_pairs_values c) eqn:Hcl.
  - destruct stack as [|top stack].
    + specialize (IH (idx + 1) []).
      destruct (Rules.bracket_loop t (idx + 1) s _) as [st out]. simpl in *. lia.
    + case_bool_decide.
      * specialize (IH (idx + 1) stack).
        destruct (Rules.bracket_loop t (idx + 1) s _) as [st out]. simpl in *. lia.
      * specialize (IH (idx + 1) (top :: stack)).
        destruct (Rules.bracket_loop t (idx + 1) s _) as [st out]. simpl in *. lia.
  - specialize (IH (idx + 1) stack).
    destruct (Rules.bracket_loop t (idx + 1) s _) as [st out]. simpl in *. lia.
Qed.

(** X6. In [run_rule_checks] the openers of the text that are not reported
    as unclosed are as many as the closers that are not reported as
    unpaired: the number of openers plus the number of [unpaired_bracket]
    issues is the number of closers plus the number of [unclosed_bracket]
    issues. *)
Theorem bracket_issue_counts (t : text) :
  (count_chars Rules.in_pairs t
   + length (filter (with_rule "unpaired_bracket") (Rules.run_rule_checks t))
   = count_chars Rules.in_pairs_values t
     + length (filter (with_rule "unclosed_bracket") (Rules.run_rule_checks t)))%nat.
Proof.
  rewrite unpaired_bracket_issues, unclosed_bracket_issues.
  pose proof (bracket_loop_counts t t 0 []) as Hc.
  destruct (Rules.bracket_loop t 0 t []) as [stack out]. simpl in *.
  rewrite length_map, length_rev. lia.
Qed.

(** ** The single-character scan of lexicon.py *)

Section ConfusionChar.
Import Lexicon.
Variable CONFUSION : gmap char (list text).
Variable VALID_WORDS : gset text.

Definition char_issue_at (idx : nat) (x : issue) : Prop :=
  rule_id x = "confusion_char"%string /\ begin x = Z.of_nat idx.

#[local] Instance char_issue_at_dec idx x : Decision (char_issue_at idx x).
Proof. unfold char_issue_at. apply _. Defined.

Lemma confusion_char_begin (t : text) (idx : Z) (c : char) (x : issue) :
  In x (confusion_char CONFUSION t idx c) ->
  begin x = idx /\ rule_id x = "confusion_char"%string.
Proof.
  unfold confusion_char. repeat case_match; try done. by intros [<-|[]].
Qed.

Lemma confusion_loop_begin (t s : text) :
  forall idx x, In x (confusion_loop CONFUSION t idx s) -> idx <= begin x.
Proof.
  induction s as [|c s IH]; intros idx x; simpl; [done|].
  rewrite in_app_iff. intros [Hx|Hx].
  - apply confusion_char_begin in Hx as [-> _]. lia.
  - apply IH in Hx. lia.
Qed.

Lemma confusion_loop_filter (t s : text) :
  forall (i0 : Z) (k : nat) (c : char),
    s !! k = Some c ->
    filter (fun x => rule_id x = "confusion_char"%string /\
                     begin x = i0 + Z.of_nat k)
           (confusion_loop CONFUSION t i0 s)
    = confusion_char CONFUSION t (i0 + Z.of_nat k) c.
Proof.
  induction s as [|a s IH]; intros i0 k c Hc; [done|].
  cbn [confusion_loop]. rewrite filter_app. destruct k as [|k]; simpl in Hc.
  - injection Hc as ->. replace (i0 + Z.of_nat 0) with i0 by lia.
    rewrite filter_all.
    2:{ apply Forall_forall. intros x Hx%list_elem_of_In.
        by apply confusion_char_begin in Hx as [? ?]. }
    rewrite filter_none; [by rewrite app_nil_r|].
    intros x Hx [_ Hb]. apply confusion_loop_begin in Hx. lia.
  - rewrite filter_none.
    2:{ intros x Hx [_ Hb]. apply confusion_char_begin in Hx as [? _]. lia. }
    simpl. replace (i0 + Z.of_nat (S k)) with (i0 + 1 + Z.of_nat k) by lia.
    by apply IH.
Qed.

Lemma run_lex_checks_char_filter (t : text) (idx : nat) (c : char) :
  t !! idx = Some c ->
  filter (char_issue_at idx) (run_lex_checks CONFUSION VALID_WORDS t)
  = confusion_char CONFUSION t (Z.of_nat idx) c.
Proof.
  intros Hc. unfold run_lex_checks. case_bool_decide; [by subst|].
  rewrite filter_app.
  rewrite (filter_none _ (bigram_loop CONFUSION VALID_WORDS t)).
  2:{ intros x (i & _ & Hx)%bigram_loop_In [Hr _].
      apply bigram_at_rule in Hx. congruence. }
  rewrite app_nil_r. apply (confusion_loop_filter t t 0 idx c Hc).
Qed.

(** X7. For the character [c] at an index of the text, [run_lex_checks]
    emits a [confusion_char] issue there if and only if the confusion table
    lists for [c] an alternative other than [c] itself.  It is then the only
    one there, spans that character, has confidence 0.65, and its
    suggestions are the alternatives of [c] in the order of the table
    without [c] itself. *)
Theorem confusion_char_issue_iff (t : text) (idx : nat) (c : char) :
  t !! idx = Some c ->
  let here := filter (char_issue_at idx)
                     (run_lex_checks CONFUSION VALID_WORDS t) in
  ((exists x, In x here) <->
   (exists alt, In alt (confusion_get CONFUSION c) /\ alt <> [c])) /\
  (forall x, In x here ->
     here = [x] /\
     begin x = Z.of_nat idx /\ end_ x = Z.of_nat idx + 1 /\ hit_text x = [c] /\
     confidence x = 0.65%Q /\
     suggestions x = filter (fun alt => alt <> [c]) (confusion_get CONFUSION c) /\
     ~ In [c] (suggestions x) /\
     is_Some (CONFUSION !! c)).
Proof.
  intros Hc here. subst here. rewrite (run_lex_checks_char_filter t idx c Hc).
  unfold confusion_char, confusion_get.
  destruct (CONFUSION !! c) as [alts|] eqn:Hget; simpl.
  2:{ split; [|by intros x []]. split; [by intros [x []]|by intros (alt & [] & _)]. }
  destruct (filter (fun x => x <> [c]) alts) as [|a rest] eqn:Hf.
  - split; [|by intros x []]. split; [by intros [x []]|].
    intros (alt & Hin & Hne).
    assert (alt ∈ filter (fun x => x <> [c]) alts) as Hmem
      by (apply list_elem_of_filter; split; [done|by apply list_elem_of_In]).
    rewrite Hf in Hmem. by apply elem_of_nil in Hmem.
  - split.
    + split; [|eauto using in_eq]. intros _. exists a.
      assert (a ∈ filter (fun x => x <> [c]) alts) as Hmem
        by (rewrite Hf; left).
      apply list_elem_of_filter in Hmem as [Hne Hin].
      split; [by apply list_elem_of_In|done].
    + intros x [<-|[]]. unfold _make_issue.
      cbn [begin end_ hit_text confidence suggestions].
      do 6 (split; [reflexivity|]). split; [|by eexists].
      intros Hin%list_elem_of_In. rewrite <- Hf in Hin.
      by apply list_elem_of_filter in Hin as [Hne _].
Qed.

End ConfusionChar.

Lemma confusion_char_issue_iff_witness :
  let here := filter (char_issue_at 0)
                (Lexicon.run_lex_checks Lexicon._DEFAULT_CONFUSION
                   Lexicon.fallback_words (utf8 "拟好")) in
  (exists x, In x here) <->
  (exists alt, In alt (Lexicon.confusion_get Lexicon._DEFAULT_CONFUSION
                         (Rules.ch "拟")) /\ alt <> [Rules.ch "拟"]).
Proof.
  intros here.
  assert (utf8 "拟好" !! 0%nat = Some (Rules.ch "拟")) as Hc
    by (vm_compute; reflexivity).
  exact (proj1 (confusion_char_issue_iff Lexicon._DEFAULT_CONFUSION
                  Lexicon.fallback_words (utf8 "拟好") 0 _ Hc)).
Defined.

(** ** The loaders of lexicon.py *)

(** Values as [yaml.safe_load] returns them; a mapping is the list of its
    items, in the order of the document. *)
Unset Elimination Schemes.
Inductive yaml : Type :=
| YNull
| YBool (b : bool)
| YInt (z : Z)
| YFloat (q : Q)
| YStr (s : text)
| YSeq (l : list yaml)
| YMap (m : list (yaml * yaml)).
Set Elimination Schemes.

(** [d.get(k)] for a string key: the value of the item whose key is [k]. *)
Fixpoint dict_get (m : list (yaml * yaml)) (k : text) : option yaml :=
  match m with
  | [] => None
  | (YStr s, v) :: m' => if bool_decide (s = k) then Some v else dict_get m' k
  | _ :: m' => dict_get m' k
  end.

Module LexiconData.

(** [str(x)] for the [x] of [vals] that are non-empty strings. *)
Definition str_item (x : yaml) : option text :=
  match x with
  | YStr s => if bool_decide (s <> []) then Some s else None
  | _ => None
  end.

(** The body of the loop over [mapping.items()]. *)
Definition override_entry (conf : gmap char (list text)) (entry : yaml * yaml)
    : gmap char (list text) :=
  match entry with
  | (YStr [k], YSeq vals) => <[k := omap str_item vals]> conf
  | _ => conf
  end.

(** [load_confusion]; [loaded] is what reading data/confusion.yml gives:
    [Raise] for any exception, [Ok None] when the file does not exist,
    otherwise the parsed document. *)
Definition load_confusion (loaded : result (option yaml))
    : gmap char (list text) :=
  match loaded with
  | Ok (Some (YMap data)) =>
    match dict_get data (utf8 "confusion") with
    | Some (YMap mapping) =>
      foldl override_entry Lexicon._DEFAULT_CONFUSION mapping
    | _ => Lexicon._DEFAULT_CONFUSION
    end
  | _ => Lexicon._DEFAULT_CONFUSION
  end.

(** [load_valid_words]; [lines] are the lines read from data/dict_core.txt,
    none when the file does not exist or cannot be opened. *)
Definition load_valid_words (lines : list text) : gset text :=
  let words : gset text :=
    list_to_set (filter (fun w => w <> []) (map strip lines)) in
  if bool_decide (words = ∅) then Lexicon.fallback_words else words.

End LexiconData.

Section Loaders.
Import LexiconData.

Lemma override_entry_other (conf : gmap char (list text)) (entry : yaml * yaml)
    (k : char) :
  (forall vals, entry <> (YStr [k], YSeq vals)) ->
  override_entry conf entry !! k = conf !! k.
Proof.
  intros Hne. destruct entry as [key v]. unfold override_entry.
  destruct key as [| | | |s| |]; try done.
  destruct s as [|k' [|? ?]]; try done.
  destruct v as [| | | | |vals|]; try done.
  apply lookup_insert_ne. intros ->. by apply (Hne vals).
Qed.

Lemma foldl_override_other (mapping : list (yaml * yaml)) (k : char) :
  forall conf,
    (forall vals, ~ In (YStr [k], YSeq vals) mapping) ->
    foldl override_entry conf mapping !! k = conf !! k.
Proof.
  induction mapping as [|entry mapping IH]; intros conf Hno; [done|].
  simpl. rewrite IH.
  - apply override_entry_other. intros vals ->. apply (Hno vals). by left.
  - intros vals Hin. apply (Hno vals). by right.
Qed.

Lemma foldl_override_entry (mapping : list (yaml * yaml)) (k : char)
    (vals : list yaml) :
  forall conf,
    List.NoDup (map fst mapping) -> In (YStr [k], YSeq vals) mapping ->
    foldl override_entry conf mapping !! k = Some (omap str_item vals).
Proof.
  induction mapping as [|entry mapping IH]; intros conf Hnd Hin; [done|].
  simpl in *. inversion Hnd as [|? ? Hfresh Hnd']; subst.
  destruct Hin as [->|Hin].
  - rewrite foldl_override_other.
    + simpl. apply lookup_insert_eq.
    + intros vals' Hin'. apply Hfresh. by apply (in_map fst) in Hin'.
  - by apply IH.
Qed.

(** X8. [load_confusion] starts from the built-in table and lets the
    document override it key by key: a character with an entry in the
    [confusion] mapping whose value is a list gets the non-empty strings of
    that list, and every other character keeps its built-in alternatives.
    When the file is missing or cannot be read or parsed, the result is the
    built-in table. *)
Theorem load_confusion_override (data mapping : list (yaml * yaml)) :
  dict_get data (utf8 "confusion") = Some (YMap mapping) ->
  List.NoDup (map fst mapping) ->
  let conf := load_confusion (Ok (Some (YMap data))) in
  (forall k vals, In (YStr [k], YSeq vals) mapping ->
                  conf !! k = Some (omap str_item vals)) /\
  (forall k, (forall vals, ~ In (YStr [k], YSeq vals) mapping) ->
             conf !! k = Lexicon._DEFAULT_CONFUSION !! k) /\
  load_confusion Raise = Lexicon._DEFAULT_CONFUSION /\
  load_confusion (Ok None) = Lexicon._DEFAULT_CONFUSION.
Proof.
  intros Hget Hnd conf. subst conf. unfold load_confusion. rewrite Hget.
  split; [|split; [|done]].
  - intros k vals Hin. by apply foldl_override_entry.
  - intros k Hno. by apply foldl_override_other.
Qed.

(** X9. [load_valid_words] returns the non-blank lines of the dictionary
    file with the whitespace at their ends removed; the built-in words are
    used only when there is no such line, and are then the whole result, so
    the set is never empty. *)
Theorem load_valid_words_fallback (lines : list text) :
  load_valid_words lines <> ∅ /\
  ((exists line, In line lines /\ strip line <> []) ->
   forall w, w ∈ load_valid_words lines <->
             exists line, In line lines /\ w = strip line /\ w <> []) /\
  ((forall line, In line lines -> strip line = []) ->
   load_valid_words lines = Lexicon.fallback_words).
Proof.
  unfold load_valid_words.
  set (words := list_to_set (filter (fun w => w <> []) (map strip lines))
       : gset text).
  assert (forall w, w ∈ words <->
            exists line, In line lines /\ w = strip line /\ w <> []) as Hwords.
  { intros w. unfold words.
    rewrite elem_of_list_to_set, list_elem_of_filter, list_elem_of_In, in_map_iff.
    split.
    - intros (Hne & line & <- & Hin). eauto.
    - intros (line & Hin & -> & Hne). eauto. }
  split; [|split].
  - case_bool_decide as He; [|done].
    intros Hf. assert (utf8 "你好" ∈ Lexicon.fallback_words) as Hin
      by (by vm_compute).
    rewrite Hf in Hin. by apply not_elem_of_empty in Hin.
  - intros (line & Hin & Hne). rewrite bool_decide_false; [done|].
    intros He. assert (strip line ∈ words) as Hw by (apply Hwords; eauto).
    rewrite He in Hw. by apply not_elem_of_empty in Hw.
  - intros Hblank. rewrite bool_decide_true; [done|].
    apply set_eq. intros w. rewrite Hwords. split.
    + intros (line & Hin & -> & Hne). by rewrite Hblank in Hne.
    + intros Hw. by apply not_elem_of_empty in Hw.
Qed.

End Loaders.

(** ** The pos engine on any answer of the tagger *)

Section PosOrder.
Import PosPatterns.

(** Tokens in the order of the text from the offset [o], each as long as its
    word. *)
Fixpoint ordered_from (o : Z) (toks : list PosToken) : Prop :=
  match toks with
  | [] => True
  | tk :: toks' =>
    o <= tok_begin tk /\ tok_end tk = tok_begin tk + len (word tk) /\
    ordered_from (tok_end tk) toks'
  end.

Lemma py_find_lower (t w : text) (o : Z) :
  0 <= o -> py_find t w o < 0 \/ o <= py_find t w o.
Proof.
  intros Ho. unfold py_find. destruct (Z.ltb_spec o 0); [lia|].
  destruct (Z.ltb_spec (len t) o); [lia|].
  pose proof (find_from_spec w (drop (Z.to_nat o) t) (Z.to_nat o)) as Hf.
  destruct (find_from _ _ _) as [i|]; [|lia]. right. lia.
Qed.

Lemma locate_ordered (t : text) (cut : list (text * text)) :
  forall o, 0 <= o -> ordered_from o (locate t o cut).
Proof.
  induction cut as [|[w tg] cut IH]; intros o Ho; [done|].
  cbn [locate ordered_from tok_begin tok_end word].
  pose proof (py_find_lower t w o Ho) as Hfind. pose proof (len_nonneg w).
  destruct (Z.ltb_spec (py_find t w o) 0).
  - split; [lia|]. split; [done|]. apply IH. lia.
  - split; [lia|]. split; [done|]. apply IH. lia.
Qed.

Lemma ordered_from_weaken (toks : list PosToken) (o o' : Z) :
  o' <= o -> ordered_from o toks -> ordered_from o' toks.
Proof. destruct toks; [done|]. simpl. intros ? (? & ? & ?). split; [lia|done]. Qed.

Lemma ordered_from_drop (toks : list PosToken) :
  forall o i, ordered_from o toks -> ordered_from o (drop i toks).
Proof.
  induction toks as [|tk toks IH]; intros o i Ho; [by destruct i|].
  destruct i as [|i]; [done|]. simpl. destruct Ho as (Hb & He & Ho).
  apply IH. eapply ordered_from_weaken; [|exact Ho]. pose proof (len_nonneg (word tk)). lia.
Qed.

Lemma ordered_from_take (toks : list PosToken) :
  forall o k, ordered_from o toks -> ordered_from o (take k toks).
Proof.
  induction toks as [|tk toks IH]; intros o k Ho; [by destruct k|].
  destruct k as [|k]; [done|]. destruct Ho as (Hb & He & Ho). simpl. auto.
Qed.

(** The words of a window fit between the start of its first token and the
    end of its last. *)
Lemma ordered_from_span (toks : list PosToken) :
  forall o first last n,
    ordered_from o toks -> toks !! 0%nat = Some first ->
    toks !! n = Some last -> length toks = S n ->
    o <= tok_begin first /\ tok_begin first + len (words toks) <= tok_end last.
Proof.
  induction toks as [|tk toks IH]; intros o first last n Ho Hf Hl Hlen; [done|].
  injection Hf as ->. destruct Ho as (Hb & He & Ho). split; [done|].
  unfold words. cbn [map concat]. rewrite len_app. fold (words toks).
  destruct n as [|n]; simpl in *.
  - injection Hl as <-. destruct toks; [|done]. unfold words, len in *.
    simpl. lia.
  - destruct toks as [|tk2 toks]; [done|].
    destruct (IH (tok_end first) tk2 last n Ho eq_refl Hl) as [Hb2 Hspan];
      [simpl in *; lia|]. lia.
Qed.

Lemma match_at_ordered (r : PosRule) (toks : list PosToken) (o : Z) (i : nat)
    (l : list issue) :
  ordered_from o toks -> sequence r <> [] -> match_at r toks i = Ok l ->
  Forall (fun x => o <= begin x /\ begin x + len (hit_text x) <= end_ x) l.
Proof.
  intros Ho Hseq. unfold match_at.
  destruct (sequence_ok _ _) as [[|]|]; simpl; try done;
    [|intros [= <-]; constructor].
  destruct (toks !! i) as [first|] eqn:Hfirst; [|done].
  destruct (toks !! (i + length (sequence r) - 1)%nat) as [last|] eqn:Hlast;
    [|done].
  intros [= <-]. constructor; [|constructor].
  assert (1 <= length (sequence r))%nat as Hk1
    by (destruct (sequence r); [done|simpl; lia]).
  set (k := length (sequence r)) in *.
  pose proof (lookup_lt_Some _ _ _ Hlast) as Hk.
  pose proof (ordered_from_take _ _ k (ordered_from_drop _ _ i Ho)) as HW.
  cbn [begin end_ hit_text]. fold (words (take k (drop i toks))).
  apply (ordered_from_span _ o first last (k - 1) HW).
  - rewrite lookup_take_lt by lia. etrans; [apply lookup_drop|].
    rewrite <- Hfirst. f_equal. lia.
  - rewrite lookup_take_lt by lia. etrans; [apply lookup_drop|].
    rewrite <- Hlast. f_equal. lia.
  - rewrite length_take, length_drop. lia.
Qed.

(** X10. Whatever the tagger returns, every issue of [run_pos_checks] has
    [0 <= begin], and its hit, the concatenation of the words of the matched
    tokens, is not longer than its span: [begin + len(hit_text) <= end]. *)
Theorem pos_spans_ordered pseg (rules : list PosRule) (t : text) (l : list issue) :
  run_pos_checks pseg rules t = Ok l ->
  Forall (fun x => 0 <= begin x /\ begin x + len (hit_text x) <= end_ x) l.
Proof.
  unfold run_pos_checks. destruct pseg as [cut|]; [|by intros [= <-]].
  case_bool_decide; [by intros [= <-]|].
  destruct (cut t) as [pairs|]; simpl; [|done].
  destruct (rmap _ _) as [ms|] eqn:Hms; simpl; [|done]. intros [= <-].
  apply Forall_map. apply rmap_Ok in Hms.
  assert (Forall (fun x => 0 <= begin x /\
                           begin x + len (hit_text x) <= end_ x) (concat ms))
    as Hall.
  { eapply Forall_concat_Forall2; [exact Hms|].
    intros r bs _ Hr. unfold match_ in Hr.
    destruct (Nat.eqb_spec (length (sequence r)) 0) as [|Hlen];
      [injection Hr as <-; constructor|].
    destruct (rmap (match_at r (locate t 0 pairs)) _) as [ms'|] eqn:Hms';
      simpl in Hr; [|done].
    injection Hr as <-. apply rmap_Ok in Hms'.
    eapply Forall_concat_Forall2; [exact Hms'|].
    intros i out _ Hi.
    eapply (match_at_ordered r _ 0 i out); [|by destruct (sequence r)|exact Hi].
    by apply locate_ordered. }
  eapply Forall_impl; [exact Hall|]. by intros x Hx.
Qed.

End PosOrder.

Section PosWindows.
Import PosPatterns.

(** A token satisfies an entry of a sequence: the word is the one asked for,
    the pattern matches the whole word, the tag begins with the tag asked
    for; a key that is absent asks for nothing. *)
Definition cond_holds (cond : PosCond) (tok : PosToken) : Prop :=
  (forall w, cond_word cond = Some w -> word tok = w) /\
  (forall f, cond_regex cond = Some f -> f (word tok) = Ok true) /\
  (forall e, cond_tag cond = Some e -> exists rest, tag tok = e ++ rest).

(** The rule matches the window of tokens that begins at [i]. *)
Definition window_holds (r : PosRule) (tokens : list PosToken) (i : nat) : Prop :=
  Forall2 cond_holds (sequence r) (take (length (sequence r)) (drop i tokens)).

(** No pattern of the rule makes [re] raise on a word of the tokens. *)
Definition regexes_total (conds : list PosCond) (tokens : list PosToken) : Prop :=
  forall cond f tok, In cond conds -> cond_regex cond = Some f ->
                     In tok tokens -> f (word tok) <> Raise.

Lemma cond_ok_spec (cond : PosCond) (tok : PosToken) :
  (forall f, cond_regex cond = Some f -> f (word tok) <> Raise) ->
  exists b, cond_ok cond tok = Ok b /\ (b = true <-> cond_holds cond tok).
Proof.
  intros Htotal. unfold cond_ok, cond_holds.
  destruct (cond_word cond) as [w|].
  - case_bool_decide as Hw.
    + exists false. split; [done|]. split; [done|].
      intros (Hword & _). by destruct Hw; apply Hword.
    + idtac.
      destruct (cond_regex cond) as [f|].
      * destruct (f (word tok)) as [[|]|] eqn:Hf; simpl.
        -- destruct (cond_tag cond) as [e|].
           ++ eexists. split; [done|]. rewrite startswith_spec. split.
              ** intros Hs. repeat split; [by intros ? [= <-]|by intros ? [= <-]|].
                 by intros ? [= <-].
              ** intros (_ & _ & Ht). by apply Ht.
           ++ exists true. split; [done|]. split; [|done]. intros _.
              repeat split; [by intros ? [= <-]|by intros ? [= <-]|done].
        -- exists false. split; [done|]. split; [done|].
           intros (_ & Hre & _). specialize (Hre f eq_refl). congruence.
        -- by destruct (Htotal f).
      * simpl. destruct (cond_tag cond) as [e|].
        -- eexists. split; [done|]. rewrite startswith_spec. split.
           ++ intros Hs. repeat split; [by intros ? [= <-]|done|by intros ? [= <-]].
           ++ intros (_ & _ & Ht). by apply Ht.
        -- exists true. split; [done|]. split; [|done]. intros _.
           repeat split; [by intros ? [= <-]|done|done].
  - destruct (cond_regex cond) as [f|].
    + destruct (f (word tok)) as [[|]|] eqn:Hf; simpl.
      * destruct (cond_tag cond) as [e|].
        -- eexists. split; [done|]. rewrite startswith_spec. split.
           ++ intros Hs. repeat split; [done|by intros ? [= <-]|by intros ? [= <-]].
           ++ intros (_ & _ & Ht). by apply Ht.
        -- exists true. split; [done|]. split; [|done]. intros _.
           repeat split; [done|by intros ? [= <-]|done].
      * exists false. split; [done|]. split; [done|].
        intros (_ & Hre & _). specialize (Hre f eq_refl). congruence.
      * by destruct (Htotal f).
    + simpl. destruct (cond_tag cond) as [e|].
      * eexists. split; [done|]. rewrite startswith_spec. split.
        -- intros Hs. repeat split; [done|done|by intros ? [= <-]].
        -- intros (_ & _ & Ht). by apply Ht.
      * exists true. split; [done|]. split; [|done]. intros _. by repeat split.
Qed.

Lemma sequence_ok_spec (conds : list PosCond) :
  forall toks,
    (length conds <= length toks)%nat -> regexes_total conds toks ->
    exists b, sequence_ok conds toks = Ok b /\
              (b = true <-> Forall2 cond_holds conds (take (length conds) toks)).
Proof.
  induction conds as [|cond conds IH]; intros toks Hlen Htotal.
  - exists true. split; [done|]. split; [|done]. intros _. simpl. constructor.
  - destruct toks as [|tok toks]; [simpl in Hlen; lia|].
    cbn [sequence_ok length take].
    destruct (cond_ok_spec cond tok) as (b & -> & Hb).
    { intros f Hf. apply (Htotal cond f tok); [by left|done|by left]. }
    simpl. destruct b.
    + destruct (IH toks) as (b' & -> & Hb').
      { simpl in Hlen. lia. }
      { intros c f tk Hc Hf Htk. apply (Htotal c f tk); [by right|done|by right]. }
      exists b'. split; [done|]. rewrite Hb'. split.
      * intros H. constructor; [by apply Hb|done].
      * intros H. by inversion H.
    + exists false. split; [done|]. split; [done|].
      intros H. inversion H as [|? ? ? ? Hc _]; subst. by apply Hb in Hc.
Qed.

(** What [match] appends for the window at [i]: one issue from the start
    of the first token to the end of the last when the window matches,
    nothing otherwise. *)
Definition window_out (r : PosRule) (tokens : list PosToken) (i : nat)
    (out : list issue) : Prop :=
  (window_holds r tokens i /\
   exists first last,
     tokens !! i = Some first /\
     tokens !! (i + length (sequence r) - 1)%nat = Some last /\
     out = [mk_issue "pos" (rule_id r) (tok_begin first) (tok_end last)
              (concat (map word (take (length (sequence r)) (drop i tokens))))
              (suggest r) (hint r) (confidence r) [] []]) \/
  (~ window_holds r tokens i /\ out = []).

Lemma match_at_spec (r : PosRule) (tokens : list PosToken) (i : nat) :
  sequence r <> [] -> regexes_total (sequence r) tokens ->
  (i + length (sequence r) <= length tokens)%nat ->
  exists out, match_at r tokens i = Ok out /\ window_out r tokens i out.
Proof.
  intros Hseq Htotal Hi. unfold match_at, window_out, window_holds.
  assert (1 <= length (sequence r))%nat as Hk
    by (destruct (sequence r); [done|simpl; lia]).
  destruct (sequence_ok_spec (sequence r) (drop i tokens)) as (b & -> & Hb).
  { rewrite length_drop. lia. }
  { intros c f tk Hc Hf Htk. apply (Htotal c f tk); [done|done|].
    apply list_elem_of_In. apply list_elem_of_In in Htk.
    apply list_elem_of_lookup in Htk as [j Hj]. rewrite lookup_drop in Hj.
    by eapply list_elem_of_lookup_2. }
  simpl. destruct b.
  - destruct (lookup_lt_is_Some_2 tokens i) as [first Hfirst]; [lia|].
    destruct (lookup_lt_is_Some_2 tokens (i + length (sequence r) - 1))
      as [last Hlast]; [lia|].
    rewrite Hfirst, Hlast. eexists. split; [done|]. left.
    split; [by apply Hb|]. by exists first, last.
  - exists []. split; [done|]. right. split; [|done].
    intros H. apply Hb in H. done.
Qed.

(** X11. When no pattern of a rule makes [re] raise on a word, [match]
    returns, whatever the tokens: the index of a token it reads is always
    in range.  It looks at the windows of as many tokens as the rule has
    entries, from every start index, in order, and emits one issue for
    each window all of whose tokens satisfy their entries, and only for
    those; a rule without entries or with more entries than there are
    tokens gives no issue. *)
Theorem pos_rule_windows (r : PosRule) (tokens : list PosToken) :
  regexes_total (sequence r) tokens ->
  exists outs,
    match_ r tokens = Ok (concat outs) /\
    (sequence r = [] -> outs = []) /\
    (sequence r <> [] ->
     Forall2 (window_out r tokens)
       (seq 0 (length tokens + 1 - length (sequence r))) outs) /\
    (length (concat outs) <= length tokens + 1 - length (sequence r))%nat.
Proof.
  intros Htotal. unfold match_.
  destruct (Nat.eqb_spec (length (sequence r)) 0) as [Hk0|Hk].
  { exists []. apply length_zero_iff_nil in Hk0.
    split; [done|]. split; [done|]. split; [done|simpl; lia]. }
  assert (sequence r <> []) as Hseq by (intros H; by rewrite H in Hk).
  set (n := length tokens) in *. set (k := length (sequence r)) in *.
  assert (forall m start, (start + m <= n + 1 - k)%nat ->
            exists outs, rmap (match_at r tokens) (seq start m) = Ok outs /\
                         Forall2 (window_out r tokens) (seq start m) outs /\
                         (length (concat outs) <= m)%nat) as Hgen.
  { induction m as [|m IH]; intros start Hm.
    - exists []. split; [done|]. split; [constructor|simpl; lia].
    - destruct (match_at_spec r tokens start Hseq Htotal) as (out & Hout & Hw).
      { fold n k. lia. }
      destruct (IH (S start)) as (outs & Houts & Hf & Hl); [lia|].
      exists (out :: outs). cbn [seq rmap]. rewrite Hout, Houts. simpl.
      split; [done|]. split; [by constructor|].
      rewrite length_app.
      assert (length out <= 1)%nat
        by (destruct Hw as [(_ & ? & ? & _ & _ & ->)|[_ ->]]; simpl; lia).
      lia. }
  destruct (Hgen (n + 1 - k)%nat 0%nat) as (outs & -> & Hf & Hl); [lia|].
  exists outs. simpl. split; [done|]. split; [done|]. split; [done|lia].
Qed.

End PosWindows.

(** ** The further properties at concrete inputs *)

Lemma multi_space_runs_witness :
  exists i,
    In i (filter (with_rule "multi_space") (Rules.run_rule_checks (utf8 "a  b")))
    /\ begin i <= Z.of_nat 1 < end_ i.
Proof.
  apply (proj2 (proj2 (multi_space_runs (utf8 "a  b"))) 1%nat 32%N 32%N);
    vm_compute; reflexivity.
Defined.

Lemma repeat_char_runs_witness :
  exists i,
    In i (filter (with_rule "repeat_char") (Rules.run_rule_checks (utf8 "看看好")))
    /\ begin i <= Z.of_nat 0 < end_ i.
Proof.
  apply (proj2 (proj2 (repeat_char_runs (utf8 "看看好"))) 0%nat (Rules.ch "看"));
    vm_compute; reflexivity.
Defined.

Lemma space_before_cn_punct_runs_witness :
  exists i,
    In i (filter (with_rule "space_before_cn_punct")
            (Rules.run_rule_checks (utf8 "好 ，")))
    /\ begin i <= Z.of_nat 1 < end_ i /\ end_ i = Z.of_nat 2.
Proof.
  apply (proj2 (proj2 (space_before_cn_punct_runs (utf8 "好 ，")))
           1%nat 2%nat (Rules.ch "，")).
  - lia.
  - vm_compute. by repeat constructor.
  - vm_compute; reflexivity.
  - vm_compute; reflexivity.
Defined.

(** A document that replaces the alternatives of one character; the item
    that is not a string is left out. *)
Definition sample_mapping : list (yaml * yaml) :=
  [(YStr (utf8 "好"), YSeq [YStr (utf8 "号"); YInt 3; YStr (utf8 "郝")])].

Definition sample_document : list (yaml * yaml) :=
  [(YStr (utf8 "confusion"), YMap sample_mapping)].

Lemma load_confusion_override_witness :
  LexiconData.load_confusion (Ok (Some (YMap sample_document))) !! Rules.ch "好"
  = Some [utf8 "号"; utf8 "郝"] /\
  LexiconData.load_confusion (Ok (Some (YMap sample_document))) !! Rules.ch "号"
  = Some [utf8 "好"].
Proof.
  assert (dict_get sample_document (utf8 "confusion") = Some (YMap sample_mapping))
    as Hget by (vm_compute; reflexivity).
  assert (List.NoDup (map fst sample_mapping)) as Hnodup.
  { constructor; [intros []|constructor]. }
  destruct (load_confusion_override sample_document sample_mapping Hget Hnodup)
    as (Hin & Hout & _).
  split.
  - apply (Hin (Rules.ch "好") [YStr (utf8 "号"); YInt 3; YStr (utf8 "郝")]).
    by left.
  - rewrite (Hout (Rules.ch "号")); [vm_compute; reflexivity|].
    intros vals [Heq|[]]. vm_compute in Heq. discriminate.
Defined.

Lemma load_valid_words_fallback_witness :
  utf8 "你好" ∈ LexiconData.load_valid_words [utf8 " 你好 "; utf8 "  "] /\
  LexiconData.load_valid_words [utf8 "  "; []] = Lexicon.fallback_words.
Proof.
  destruct (load_valid_words_fallback [utf8 " 你好 "; utf8 "  "])
    as (_ & Hsome & _).
  destruct (load_valid_words_fallback [utf8 "  "; []]) as (_ & _ & Hnone).
  split.
  - apply Hsome.
    + exists (utf8 " 你好 "). split; [by left|]. vm_compute. discriminate.
    + exists (utf8 " 你好 "). split; [by left|]. split; vm_compute; [reflexivity|discriminate].
  - apply Hnone. intros line [<-|[<-|[]]]; vm_compute; reflexivity.
Defined.

Lemma pos_spans_ordered_witness :
  exists l,
    PosPatterns.run_pos_checks (Some gap_cut) [gap_rule] (utf8 "你很好") = Ok l /\
    Forall (fun x => 0 <= begin x /\ begin x + len (hit_text x) <= end_ x) l.
Proof.
  destruct (PosPatterns.run_pos_checks (Some gap_cut) [gap_rule] (utf8 "你很好"))
    as [l|] eqn:E; [|vm_compute in E; discriminate].
  exists l. split; [reflexivity|].
  exact (pos_spans_ordered (Some gap_cut) [gap_rule] (utf8 "你很好") l E).
Defined.

(** A rule with a pattern: any single character, then a word tagged as an
    adjective. *)
Definition one_char_rule : PosPatterns.PosRule :=
  {| PosPatterns.rule_id := "char_adj";
     PosPatterns.sequence :=
       [ {| PosPatterns.cond_word := None;
            PosPatterns.cond_regex := Some (fun w => Ok (len w =? 1));
            PosPatterns.cond_tag := None |};
         {| PosPatterns.cond_word := None; PosPatterns.cond_regex := None;
            PosPatterns.cond_tag := Some (utf8 "a") |} ];
     PosPatterns.hint := utf8 "x";
     PosPatterns.suggest := [];
     PosPatterns.confidence := 0.6%Q |}.

Definition sample_tokens : list PosPatterns.PosToken :=
  PosPatterns.locate (utf8 "你很好") 0
    [(utf8 "你", utf8 "r"); (utf8 "很", utf8 "d"); (utf8 "好", utf8 "a")].

Lemma pos_rule_windows_witness :
  exists outs,
    PosPatterns.match_ one_char_rule sample_tokens = Ok (concat outs) /\
    (length (concat outs) <= 2)%nat.
Proof.
  assert (regexes_total (PosPatterns.sequence one_char_rule) sample_tokens)
    as Htotal.
  { intros cond f tok [<-|[<-|[]]] [= <-] _. done. }
  destruct (pos_rule_windows one_char_rule sample_tokens Htotal)
    as (outs & Hrun & _ & _ & Hlen).
  exists outs. split; [exact Hrun|exact Hlen].
Defined.

(** ** The entries of the term engine (terms.py) *)

Section TermEntries.
Import Terms.

Lemma run_term_checks_loops (entries : list TermEntry) (t : text) :
  t <> [] ->
  run_term_checks entries t = term_loops (S (length t)) t (load_terms entries).
Proof.
  intros Ht. unfold run_term_checks. rewrite bool_decide_eq_false_2 by done.
  by destruct (load_terms entries).
Qed.

Lemma term_loops_app (fuel : nat) (t : text) (a b : list TermEntry) :
  term_loops fuel t (a ++ b)
  = l1 ← term_loops fuel t a; l2 ← term_loops fuel t b; Some (l1 ++ l2).
Proof.
  induction a as [|item a IH]; cbn [term_loops app].
  - by destruct (term_loops fuel t b).
  - rewrite IH. destruct (term_loop fuel t item 0) as [out|]; [|done].
    destruct (term_loops fuel t a) as [l1|]; [|done].
    destruct (term_loops fuel t b) as [l2|]; [|done].
    simpl. by rewrite app_assoc.
Qed.

Lemma run_term_checks_app (e1 e2 : list TermEntry) (t : text) :
  run_term_checks (e1 ++ e2) t
  = l1 ← run_term_checks e1 t; l2 ← run_term_checks e2 t; Some (l1 ++ l2).
Proof.
  destruct (decide (t = [])) as [->|Ht]; [done|].
  rewrite !run_term_checks_loops by done.
  unfold load_terms. rewrite filter_app. apply term_loops_app.
Qed.

(** Hits that do not overlap, each of [k] characters, fit in the text. *)
Lemma separated_hits_fit (t : text) (k : Z) (l : list issue) :
  0 <= k ->
  Sorted (fun i j => end_ i <= begin j) l ->
  Forall (fun i => 0 <= begin i /\ end_ i = begin i + k /\ end_ i <= len t) l ->
  forall lo, (forall i, hd_error l = Some i -> lo <= begin i) ->
             0 <= lo <= len t ->
             lo + Z.of_nat (length l) * k <= len t.
Proof.
  intros Hk Hs Hall. induction Hs as [|i l _ IH Hhd]; intros lo Hlo Hrange.
  - simpl. lia.
  - apply Forall_cons in Hall as [(Hb & He & Hlen) Hall].
    pose proof (Hlo i eq_refl) as Hi.
    assert (end_ i + Z.of_nat (length l) * k <= len t) as Hrest.
    { apply IH; [done| |lia]. intros j Hj.
      destruct l as [|j' l']; [done|]. apply HdRel_inv in Hhd.
      by injection Hj as <-. }
    cbn [length]. lia.
Qed.

(** X12. The entries of the term list do not interact: [run_term_checks]
    returns, and its result is the concatenation, in the order of the
    configuration, of what it returns for each entry alone (nothing for an
    entry whose term is empty).  The hits of one entry do not overlap, so
    an entry has at most [len(text) / len(term)] issues. *)
Theorem term_entries_independent (entries : list TermEntry) (t : text) :
  exists per,
    run_term_checks entries t = Some (concat per) /\
    Forall2 (fun e l =>
               run_term_checks [e] t = Some l /\
               (term e = [] -> l = []) /\
               Z.of_nat (length l) * len (term e) <= len t)
            entries per.
Proof.
  induction entries as [|e entries (per & Hrun & Hper)].
  - exists []. split; [|constructor]. unfold run_term_checks.
    by case_bool_decide.
  - destruct (run_term_checks_hits [e] t) as (pe & He & Hpe).
    exists (concat pe :: per). split.
    + change (e :: entries) with ([e] ++ entries).
      rewrite run_term_checks_app, He, Hrun. done.
    + constructor; [|done]. split; [done|].
      unfold load_terms in Hpe. cbn [filter list_filter] in Hpe.
      pose proof (len_nonneg t).
      destruct (decide (term e <> [])) as [Hne|Hemp].
      * apply Forall2_cons_inv_l in Hpe as (l & pe' & Hl & Hnil & ->).
        apply Forall2_nil_inv_l in Hnil as ->.
        cbn [concat]. rewrite app_nil_r. split; [done|].
        destruct Hl as (_ & _ & Hall & Hsorted & _).
        pose proof (len_nonneg (term e)).
        pose proof (separated_hits_fit t (len (term e)) l) as Hfit.
        specialize (Hfit ltac:(lia) Hsorted).
        assert (0 + Z.of_nat (length l) * len (term e) <= len t); [|lia].
        apply Hfit; [| |lia].
        -- eapply Forall_impl; [exact Hall|]. intros i (_ & _ & _ & Hend & Ho & _).
           pose proof (occurs_at_slice _ _ _ Ho) as [Hfits _].
           destruct Ho as [[? ?] _]. lia.
        -- intros i Hi. destruct l as [|i' l']; [done|]. injection Hi as <-.
           apply Forall_cons in Hall as [(_ & _ & _ & _ & [[? ?] _] & _) _]. done.
      * apply Forall2_nil_inv_l in Hpe as ->. cbn [concat length].
        split; [done|]. lia.
Qed.

End TermEntries.

Lemma term_entries_independent_witness :
  exists l, Terms.run_term_checks [sample_entry] (utf8 "abcab") = Some l /\
            Z.of_nat (length l) * 2 <= 5.
Proof.
  destruct (term_entries_independent [sample_entry] (utf8 "abcab"))
    as (per & Hrun & Hper).
  apply Forall2_cons_inv_l in Hper as (l & per' & (Hl & _ & Hfit) & _ & _).
  exists l. split; [exact Hl|exact Hfit].
Defined.

(** ** The spelling-model engine (csc.py) *)

(** The length of a slice between two offsets that are not negative. *)
Lemma py_slice_len (t : text) (b e : Z) :
  0 <= b -> 0 <= e ->
  len (py_slice t b e) = Z.max 0 (Z.min e (len t) - Z.min b (len t)).
Proof.
  intros Hb He. unfold py_slice, slice_index.
  destruct (Z.ltb_spec b 0); [lia|]. destruct (Z.ltb_spec e 0); [lia|].
  unfold len. rewrite length_take, length_drop. lia.
Qed.

Section CscHits.
Import Csc.

(** The fields of an issue of the spelling model that do not depend on the
    detail it comes from, and the shape of its hit: the characters of the
    text from [begin] to [end], or to the end of the text if that comes
    first; there is at least one. *)
Definition csc_hit (t : text) (i : issue) : Prop :=
  type i = "csc"%string /\ rule_id i = "csc"%string /\
  confidence i = 0.9%Q /\ length (suggestions i) = 1%nat /\
  hit_text i <> [] /\
  len (hit_text i) = Z.min (end_ i) (len t) - begin i /\
  hit_text i = take (Z.to_nat (end_ i - begin i)) (drop (Z.to_nat (begin i)) t).

Lemma detail_issue_hit (t : text) (d : detail) :
  Forall (csc_hit t) (detail_issue t d) /\ (length (detail_issue t d) <= 1)%nat.
Proof.
  destruct d as [[[old new] b] e]. unfold detail_issue.
  destruct (rbind _ _) as [[bi ei]|]; [|split; [constructor|simpl; lia]].
  destruct (Z.ltb_spec bi 0); [split; [constructor|simpl; lia]|].
  destruct (Z.leb_spec ei bi); [split; [constructor|simpl; lia]|].
  destruct (Z.leb_spec (len t) bi); [split; [constructor|simpl; lia]|].
  cbn [orb]. split; [|simpl; lia]. constructor; [|constructor].
  unfold csc_hit. cbn [type rule_id confidence suggestions hit_text begin end_].
  assert (len (py_slice t bi ei) = Z.min ei (len t) - bi) as Hlen
    by (rewrite py_slice_len by lia; lia).
  repeat split; try done.
  - intros Hnil. rewrite Hnil in Hlen. unfold len in Hlen at 1. simpl in Hlen. lia.
  - unfold py_slice, slice_index.
    destruct (Z.ltb_spec bi 0); [lia|]. destruct (Z.ltb_spec ei 0); [lia|].
    rewrite (Z.min_l bi) by lia.
    destruct (Z.le_gt_cases ei (len t)); [by rewrite Z.min_l by lia|].
    rewrite Z.min_r by lia. unfold len in *.
    rewrite !take_ge; [done| |]; rewrite length_drop; lia.
Qed.

(** X13. Every issue of [run_csc] has type and rule id [csc], confidence
    0.9 and exactly one suggestion; its hit is never empty: it is the text
    from [begin] to [end], cut at the end of the text when [end] lies
    beyond it.  There is at most one issue per detail of the model, and the
    corrected text that the model returns plays no role. *)
Theorem csc_hits_clipped model (t : text) :
  Forall (csc_hit t) (run_csc model t) /\
  (forall correct corrected details,
     model = Some correct -> correct t = Ok (corrected, details) ->
     (length (run_csc model t) <= length details)%nat /\
     run_csc model t = run_csc (Some (fun _ => Ok ([], details))) t).
Proof.
  split.
  - unfold run_csc. destruct model as [correct|]; [|constructor].
    case_bool_decide; [constructor|].
    destruct (correct t) as [[corrected details]|]; [|constructor].
    apply Forall_flat_map. intros d _. apply detail_issue_hit.
  - intros correct corrected details -> Hc. unfold run_csc. rewrite Hc.
    case_bool_decide; [split; [simpl; lia|done]|]. split; [|done].
    clear Hc. induction details as [|d details IH]; [done|].
    cbn [flat_map length]. rewrite length_app.
    pose proof (proj2 (detail_issue_hit t d)). lia.
Qed.

End CscHits.

Lemma csc_hits_clipped_witness :
  (length (Csc.run_csc (Some overrun_model) (utf8 "ab")) <= 1)%nat.
Proof.
  exact (proj1 (proj2 (csc_hits_clipped (Some overrun_model) (utf8 "ab"))
                  overrun_model (utf8 "ab") _ eq_refl eq_refl)).
Defined.

(** ** What each engine contributes to the response (app.py) *)

Section SortedFilter.
Context {A : Type} (key : A -> Z) (P : A -> Prop) `{!forall x, Decision (P x)}.

Lemma insert_by_head (x : A) (l : list A) :
  Forall (fun z => key x <= key z) l -> insert_by key x l = x :: l.
Proof.
  destruct 1 as [|y l Hy _]; [done|]. cbn [insert_by].
  destruct (Z.leb_spec (key x) (key y)); [done|lia].
Qed.

Lemma filter_insert_by (x : A) (l : list A) :
  StronglySorted (fun a b => key a <= key b) l ->
  filter P (insert_by key x l)
  = if decide (P x) then insert_by key x (filter P l) else filter P l.
Proof.
  induction 1 as [|y l Hs IH Hy]; cbn [insert_by].
  - rewrite filter_cons, filter_nil. by destruct (decide (P x)).
  - destruct (Z.leb_spec (key x) (key y)) as [Hle|Hgt].
    + rewrite (filter_cons _ x). destruct (decide (P x)) as [Hx|Hx]; [|done].
      rewrite insert_by_head; [done|].
      apply Forall_forall. intros z Hz.
      apply list_elem_of_filter in Hz as [_ Hz].
      apply elem_of_cons in Hz as [->|Hz]; [done|].
      rewrite Forall_forall in Hy. specialize (Hy z Hz). lia.
    + rewrite (filter_cons _ y), IH, (filter_cons _ y).
      destruct (decide (P y)) as [Hpy|Hpy]; [|done].
      destruct (decide (P x)) as [Hx|Hx]; [|done].
      cbn [insert_by]. destruct (Z.leb_spec (key x) (key y)); [lia|done].
Qed.

(** Sorting and then keeping the elements of a kind is keeping them and
    then sorting. *)
Lemma filter_sort_by (l : list A) :
  filter P (sort_by key l) = sort_by key (filter P l).
Proof.
  induction l as [|x l IH]; [done|].
  change (sort_by key (x :: l)) with (insert_by key x (sort_by key l)).
  rewrite filter_insert_by by apply sort_by_ascending.
  rewrite (filter_cons _ x), IH. by destruct (decide (P x)).
Qed.

End SortedFilter.

Lemma filter_type_other (ty ty' : string) (l : list issue) :
  Forall (has_type ty') l -> ty <> ty' -> filter (has_type ty) l = [].
Proof.
  intros Hl Hne. apply filter_none. intros x Hx Hty.
  pose proof (Forall_In _ _ _ Hl Hx) as Hty'. unfold has_type in *. congruence.
Qed.

Ltac part_filter :=
  unfold in_code_order; rewrite !filter_app;
  repeat match goal with
  | H : Forall (has_type ?a) ?l |- context [filter (has_type ?b) ?l] =>
    first [ rewrite (filter_all (has_type b) l H)
          | rewrite (filter_type_other b a l H) by done ]
  end;
  rewrite ?app_nil_r; reflexivity.

(** The issues of each type among those that [api_check] collects are the
    ones that the engine of that type added. *)
Lemma in_code_order_filter (cfg : App.config) (modes : json) (t : text)
    (terms : list issue) :
  Forall (has_type "term") terms ->
  let all := in_code_order cfg modes t terms in
  filter (has_type "rule") all = rule_part modes t /\
  filter (has_type "lex") all = lex_part cfg modes t /\
  filter (has_type "pattern") all = pat_part cfg modes t /\
  filter (has_type "pos") all = pos_part cfg modes t /\
  filter (has_type "csc") all = csc_part cfg modes t /\
  filter (has_type "term") all = terms.
Proof.
  intros H6 all. subst all.
  destruct (parts_types cfg modes t) as (H1 & H2 & H3 & H4 & H5).
  repeat split; part_filter.
Qed.

Lemma sort_by_length {A} (key : A -> Z) (l : list A) :
  length (sort_by key l) = length l.
Proof. apply Permutation_length, sort_by_perm. Qed.

Lemma count_type_filter (l : list issue) (ty : string) :
  App.count_type l ty = Z.of_nat (length (filter (has_type ty) l)).
Proof. reflexivity. Qed.

(** X14. In the response of [api_check] the issues of each type are, in
    order, the issues that the engine of that type added (none when its
    flag is off or it raised), sorted by [begin]; and each count of
    [by_type] is the number of issues that engine added. *)
Theorem issues_by_engine (cfg : App.config) (req : App.request) :
  let t := strip (default [] (App.req_text req)) in
  let modes := App.modes_of req in
  exists resp terms,
    App.api_check cfg req = Some resp /\
    Terms.run_term_checks (App.invalid_terms cfg) t = Some terms /\
    filter (has_type "rule") (App.issues resp)
    = sort_by begin (rule_part modes t) /\
    filter (has_type "lex") (App.issues resp)
    = sort_by begin (lex_part cfg modes t) /\
    filter (has_type "pattern") (App.issues resp)
    = sort_by begin (pat_part cfg modes t) /\
    filter (has_type "pos") (App.issues resp)
    = sort_by begin (pos_part cfg modes t) /\
    filter (has_type "csc") (App.issues resp)
    = sort_by begin (csc_part cfg modes t) /\
    filter (has_type "term") (App.issues resp) = sort_by begin terms /\
    App.by_type (App.summary resp)
    = [ ("rule"%string, Z.of_nat (length (rule_part modes t)));
        ("lex"%string, Z.of_nat (length (lex_part cfg modes t)));
        ("pattern"%string, Z.of_nat (length (pat_part cfg modes t)));
        ("pos"%string, Z.of_nat (length (pos_part cfg modes t)));
        ("csc"%string, Z.of_nat (length (csc_part cfg modes t)));
        ("term"%string, Z.of_nat (length terms)) ].
Proof.
  intros t modes.
  destruct (api_check_returns cfg req) as (terms & Hterms & Hresp).
  fold t in Hterms, Hresp. fold modes in Hresp.
  pose proof (term_type _ _ _ Hterms) as Hty.
  destruct (in_code_order_filter cfg modes t terms Hty)
    as (H1 & H2 & H3 & H4 & H5 & H6).
  eexists _, terms. split; [exact Hresp|]. split; [exact Hterms|].
  cbn [App.issues App.summary]. rewrite !filter_sort_by.
  rewrite H1, H2, H3, H4, H5, H6. repeat (split; [reflexivity|]).
  unfold App.summarize. cbn [App.by_type map].
  rewrite !count_type_filter, !filter_sort_by, !sort_by_length.
  rewrite H1, H2, H3, H4, H5, H6. reflexivity.
Qed.

(** A value of [modes] that is not a dictionary has no [get]: every flag
    lookup raises and the engine behind it is skipped. *)
Lemma guarded_no_get (modes : json) (key : string)
    (engine : result (list issue)) :
  (forall o, modes <> JObj o) -> App.guarded modes key engine = [].
Proof.
  intros Hno. unfold App.guarded, App.modes_get.
  destruct modes; try done. by destruct (Hno m).
Qed.

(** X15. When [modes] is a truthy value that is not an object (a list of
    engine names, a string, a number, [true]), [modes.get] raises in each
    of the five guarded blocks, so none of the five configurable engines
    contributes: the issues of the response are the issues of the term
    engine, sorted by [begin]. *)
Theorem non_object_modes_only_terms (cfg : App.config) (req : App.request)
    (m : json) :
  App.req_modes req = Some m -> truthy m = true -> (forall o, m <> JObj o) ->
  let t := strip (default [] (App.req_text req)) in
  exists resp terms,
    App.api_check cfg req = Some resp /\
    Terms.run_term_checks (App.invalid_terms cfg) t = Some terms /\
    App.issues resp = sort_by begin terms /\
    Forall (has_type "term") (App.issues resp).
Proof.
  intros Hm Htruthy Hno t.
  destruct (api_check_returns cfg req) as (terms & Hterms & Hresp).
  fold t in Hterms, Hresp.
  assert (App.modes_of req = m) as Hmodes
    by (unfold App.modes_of; by rewrite Hm, Htruthy).
  rewrite Hmodes in Hresp.
  assert (in_code_order cfg m t terms = terms) as Hparts.
  { unfold in_code_order, rule_part, lex_part, pat_part, pos_part, csc_part.
    by rewrite !guarded_no_get. }
  rewrite Hparts in Hresp.
  eexists _, terms. split; [exact Hresp|]. split; [exact Hterms|].
  cbn [App.issues]. split; [reflexivity|].
  eapply Permutation_Forall; [symmetry; apply sort_by_perm|].
  by eapply term_type.
Qed.

Definition engine_names_req : App.request :=
  {| App.req_text := Some (utf8 "（拟好 abcab");
     App.req_modes := Some (JArr [JStr (utf8 "rule"); JStr (utf8 "lex")]) |}.

Lemma non_object_modes_only_terms_witness :
  exists resp,
    App.api_check tie_cfg engine_names_req = Some resp /\
    Forall (has_type "term") (App.issues resp).
Proof.
  destruct (non_object_modes_only_terms tie_cfg engine_names_req
              (JArr [JStr (utf8 "rule"); JStr (utf8 "lex")]))
    as (resp & terms & Hresp & _ & _ & Hty); [reflexivity|reflexivity|done|].
  exists resp. split; [exact Hresp|exact Hty].
Defined.

(** ** Failures of the pos engine (pos_patterns.py, app.py) *)

Lemma rmap_total {A B} (f : A -> result B) (l : list A) :
  (forall a, In a l -> exists b, f a = Ok b) -> exists bs, rmap f l = Ok bs.
Proof.
  induction l as [|a l IH]; intros Hf; [by exists []|].
  destruct (Hf a) as [b Hb]; [by left|].
  destruct IH as [bs Hbs]; [intros a' Ha'; apply Hf; by right|].
  exists (b :: bs). cbn [rmap]. by rewrite Hb, Hbs.
Qed.

Lemma match_returns (r : PosPatterns.PosRule)
    (tokens : list PosPatterns.PosToken) :
  regexes_total (PosPatterns.sequence r) tokens ->
  exists l, PosPatterns.match_ r tokens = Ok l.
Proof.
  intros Htotal. unfold PosPatterns.match_.
  destruct (Nat.eqb_spec (length (PosPatterns.sequence r)) 0) as [|Hk];
    [by eexists|].
  assert (PosPatterns.sequence r <> []) as Hseq
    by (intros H; by rewrite H in Hk).
  destruct (rmap_total (PosPatterns.match_at r tokens)
              (seq 0 (length tokens + 1 - length (PosPatterns.sequence r))))
    as [ms Hms].
  - intros i Hi. apply in_seq in Hi.
    destruct (match_at_spec r tokens i Hseq Htotal) as (out & Hout & _); [lia|].
    by exists out.
  - rewrite Hms. by eexists.
Qed.

(** The configuration on a machine where jieba cannot be imported. *)
Definition without_tagger (cfg : App.config) : App.config :=
  {| App.CONFUSION := App.CONFUSION cfg;
     App.VALID_WORDS := App.VALID_WORDS cfg;
     App._REGEX_RULES := App._REGEX_RULES cfg;
     App._POS_RULES := App._POS_RULES cfg;
     App.invalid_terms := App.invalid_terms cfg;
     App.pseg := None;
     App._CSC_MODEL := App._CSC_MODEL cfg |}.

(** X16. [run_pos_checks] raises only if the tagger raises or a pattern of
    a rule makes [re] raise: when the tagger returns and no pattern raises
    on a word it returned, the engine returns.  When it does raise,
    [api_check] answers as it does without a tagger: the failure costs the
    pos issues only, the other engines' issues and the summary are those
    of the request without the pos engine. *)
Theorem pos_failure_isolated (cfg : App.config) (req : App.request) :
  let t := strip (default [] (App.req_text req)) in
  (forall cut pairs,
     App.pseg cfg = Some cut -> cut t = Ok pairs ->
     (forall r, In r (App._POS_RULES cfg) ->
                regexes_total (PosPatterns.sequence r)
                              (PosPatterns.locate t 0 pairs)) ->
     exists l, PosPatterns.run_pos_checks (App.pseg cfg) (App._POS_RULES cfg) t
               = Ok l) /\
  (PosPatterns.run_pos_checks (App.pseg cfg) (App._POS_RULES cfg) t = Raise ->
   App.api_check cfg req = App.api_check (without_tagger cfg) req).
Proof.
  intros t. split.
  - intros cut pairs Hcut Hpairs Htotal. unfold PosPatterns.run_pos_checks.
    rewrite Hcut. case_bool_decide; [by eexists|]. rewrite Hpairs. cbn [rbind].
    destruct (rmap_total
                (fun r => PosPatterns.match_ r (PosPatterns.locate t 0 pairs))
                (App._POS_RULES cfg)) as [ms Hms].
    { intros r Hr. by apply match_returns, Htotal. }
    rewrite Hms. by eexists.
  - intros Hraise. unfold App.api_check, App.collect. fold t.
    cbn [without_tagger App.pseg App._POS_RULES App.CONFUSION App.VALID_WORDS
         App._REGEX_RULES App.invalid_terms App._CSC_MODEL App.req_text].
    rewrite Hraise, !guarded_enabled. cbn [try_except].
    by destruct (enabled (App.modes_of req) "pos").
Qed.

Definition failing_tagger_cfg : App.config :=
  {| App.CONFUSION := Lexicon._DEFAULT_CONFUSION;
     App.VALID_WORDS := Lexicon.fallback_words;
     App._REGEX_RULES := [];
     App._POS_RULES := [gap_rule];
     App.invalid_terms := [sample_entry];
     App.pseg := Some (fun _ => Raise);
     App._CSC_MODEL := None |}.

Definition plain_req : App.request :=
  {| App.req_text := Some (utf8 "你很好 abcab"); App.req_modes := None |}.

Lemma pos_failure_isolated_witness :
  App.api_check failing_tagger_cfg plain_req
  = App.api_check (without_tagger failing_tagger_cfg) plain_req.
Proof.
  apply (proj2 (pos_failure_isolated failing_tagger_cfg plain_req)).
  vm_compute. reflexivity.
Defined.

(** * The readable rendering (checker/friendly.py) *)

From Stdlib Require DecimalString.

(** [str(n)] for an integer. *)
Definition str_int (z : Z) : text :=
  utf8 (DecimalString.NilZero.string_of_int (Z.to_int z)).

(** [sep.join(l)] *)
Fixpoint join (sep : text) (l : list text) : text :=
  match l with
  | [] => []
  | [x] => x
  | x :: l' => x ++ sep ++ join sep l'
  end.

Module Friendly.

(** The snippet: sixteen characters on each side of the hit, the hit between
    the marks; a hit of whitespace only is shown as a word. *)
Definition _mark_context (t : text) (begin end_ : Z) : text :=
  let left := py_slice t (Z.max 0 (begin - 16)) begin in
  let mid := py_slice t begin end_ in
  let mid_display :=
    if bool_decide (strip mid = [])
    then (if bool_decide (mid = []) then [] else utf8 "空格")
    else mid in
  let right := py_slice t end_ (end_ + 16) in
  left ++ utf8 "【" ++ mid_display ++ utf8 "】" ++ right.

(** A title and an explanation. *)
Definition label : Type := text * text.

Definition entry (rid title explain : string) : string * label :=
  (rid, (utf8 title, utf8 explain)).

Definition _RULE_LABELS : list (string * label) :=
  [ entry "multi_space" "多余空格"
      "检测到连续的空格，中文写作中不建议出现多个空格。";
    entry "space_before_cn_punct" "标点前有空格"
      "中文标点应紧跟前一字，中间不留空格。";
    entry "repeat_char" "重复字"
      "连续重复了相同的汉字，建议删除多余字符或合并为合适词。";
    entry "unpaired_bracket" "括号/引号不匹配"
      "出现了右侧符号但未找到对应的左侧符号。";
    entry "unclosed_bracket" "括号/引号未闭合"
      "出现了左侧符号但未补全右侧符号。";
    entry "de_maybe_di" "“的/地/得”用法可能不当"
      "此处更规范的用法可能是“地 + 动词”。";
    entry "di_maybe_de" "“的/地/得”用法可能不当"
      "此处更规范的用法可能是“的 + 名词”。";
    entry "dei_maybe_de" "“的/地/得”用法可能不当"
      "此处更规范的用法可能是“的/地”" ].

Definition _LEX_LABELS : list (string * label) :=
  [ entry "confusion_char" "可能写错字" "这里可能把常见的形近或同音字写错了。";
    entry "confusion_bigram_suggested" "词语可能写错"
      "替换后构成常用词，建议检查词语拼写。" ].

Definition _TERM_LABELS : list (string * label) :=
  [ entry "invalid_term" "不规范用语"
      "文章中包含不规范或不存在的机构名称或用语，请参考建议修改。" ].

Definition _PAT_LABELS : list (string * label) := [].

Definition _POS_LABELS : list (string * label) :=
  [ entry "pos_de_maybe_di" "副词后用“的”" "副词后更常用“地”，建议调整。";
    entry "pos_di_maybe_de" "形容词后用“地”"
      "形容词后多为“的 + 名词”，建议调整。";
    entry "pos_wrong_classifier_zhi" "量词可能不当"
      "量词可能不合适，建议根据名词选择合适量词。" ].

Definition default_label : label :=
  (utf8 "可能存在问题", utf8 "建议参考提示进行修订。").

(** [table[rid]] when [rid in table] *)
Fixpoint table_get (table : list (string * label)) (rid : string)
    : option label :=
  match table with
  | [] => None
  | (k, v) :: table' => if String.eqb rid k then Some v else table_get table' rid
  end.

(** [if t == ty and rid in table: return table[rid]], then the rest. *)
Definition labelled (ty : string) (table : list (string * label)) (i : issue)
    (otherwise : label) : label :=
  if bool_decide (type i = ty)
  then default otherwise (table_get table (rule_id i))
  else otherwise.

Definition _labels (i : issue) : label :=
  labelled "rule" _RULE_LABELS i
    (labelled "lex" _LEX_LABELS i
       (labelled "pattern" _PAT_LABELS i
          (labelled "pos" _POS_LABELS i
             (labelled "term" _TERM_LABELS i default_label)))).

(** An entry of the list that [to_friendly] returns, with its keys in the
    order of the source: the title, the position, the snippet, the
    suggestion and the explanation.  The sixth key, the confidence rounded
    to two decimals, is a computation on floats and is left out. *)
Record friendly_issue := {
  kind : text;
  position : text;
  fragment : text;
  advice : text;
  note : text
}.

(** The body of the loop of [to_friendly]. *)
Definition friendly_of (t : text) (it : issue) : friendly_issue :=
  let labels := _labels it in
  {| kind := fst labels;
     position :=
       if begin it <? end_ it
       then utf8 "第 " ++ str_int (begin it + 1) ++ utf8 "–"
            ++ str_int (end_ it) ++ utf8 " 个字符"
       else utf8 "第 " ++ str_int (begin it + 1) ++ utf8 " 个字符";
     fragment := _mark_context t (begin it) (end_ it);
     advice :=
       match suggestions it with
       | [] => utf8 "按说明调整"
       | _ :: _ => join (utf8 "、") (suggestions it)
       end;
     note :=
       if bool_decide (evidence it = []) then snd labels else evidence it |}.

Definition to_friendly (issues : list issue) (t : text) : list friendly_issue :=
  map (friendly_of t) issues.

End Friendly.

Section FriendlyLabels.
Import Friendly.

(** The title shown for an issue is the one that [table] has for its rule
    id. *)
Definition titled (table : list (string * label)) (t : text) (i : issue)
    : Prop :=
  fst <$> table_get table (rule_id i) = Some (kind (friendly_of t i)).

(** The explanation shown for an issue is the evidence that the engine
    gave, which is not empty. *)
Definition shows_evidence (t : text) (i : issue) : Prop :=
  evidence i <> [] /\ note (friendly_of t i) = evidence i.

Ltac shown :=
  split; [vm_compute; reflexivity
         |split; [vm_compute; discriminate|vm_compute; reflexivity]].

Lemma rule_labels (t : text) :
  Forall (fun i => titled _RULE_LABELS t i /\ shows_evidence t i)
         (Rules.run_rule_checks t).
Proof.
  unfold Rules.run_rule_checks. case_bool_decide; [constructor|].
  repeat (apply Forall_app; split);
    try (apply Forall_map_In; intros m _; shown).
  apply bracket_issues_Forall; intros idx c _ _; shown.
Qed.

Lemma lex_labels (conf : gmap char (list text)) (valid : gset text) (t : text) :
  Forall (fun i => titled _LEX_LABELS t i /\ shows_evidence t i)
         (Lexicon.run_lex_checks conf valid t).
Proof.
  unfold Lexicon.run_lex_checks. case_bool_decide; [constructor|].
  apply Forall_app. split.
  - assert (forall s idx,
              Forall (fun i => titled _LEX_LABELS t i /\ shows_evidence t i)
                     (Lexicon.confusion_loop conf t idx s)) as Hl.
    { induction s as [|c s IH]; intros idx; cbn [Lexicon.confusion_loop];
        [constructor|].
      apply Forall_app. split; [|apply IH].
      unfold Lexicon.confusion_char.
      destruct (conf !! c) as [alts|]; [|constructor].
      destruct (filter _ alts) as [|alt rest]; [constructor|].
      constructor; [|constructor]. shown. }
    apply Hl.
  - apply Forall_flat_map. intros i _. unfold Lexicon.bigram_at.
    destruct (Lexicon.smart_sug conf valid _) as [|cand rest]; [constructor|].
    constructor; [|constructor]. shown.
Qed.

Lemma csc_labels model (t : text) :
  Forall (fun i => kind (friendly_of t i) = fst default_label /\
                   shows_evidence t i)
         (Csc.run_csc model t).
Proof.
  unfold Csc.run_csc. destruct model as [correct|]; [|constructor].
  case_bool_decide; [constructor|].
  destruct (correct t) as [[corrected details]|]; [|constructor].
  apply Forall_flat_map. intros [[[old new] b] e] _. unfold Csc.detail_issue.
  destruct (rbind _ _) as [[bi ei]|]; [|constructor].
  case_match; [constructor|]. constructor; [|constructor]. shown.
Qed.

Lemma pattern_labels (rules : list Patterns.RegexRule) (t : text) :
  Forall (fun i => _labels i = default_label)
         (Patterns.run_pattern_checks rules t).
Proof.
  apply Forall_flat_map. intros r _. unfold Patterns.run.
  apply Forall_map_In. intros [b e] _. reflexivity.
Qed.

Lemma term_labels (entries : list Terms.TermEntry) (t : text) (l : list issue) :
  Terms.run_term_checks entries t = Some l ->
  Forall (fun i => titled _TERM_LABELS t i /\
                   snd <$> table_get _TERM_LABELS (rule_id i)
                   = Some (snd (_labels i))) l.
Proof.
  intros Hrun.
  destruct (run_term_checks_hits entries t) as (per & Hrun' & Hper).
  assert (l = concat per) as -> by congruence.
  eapply Forall_concat_Forall2; [exact Hper|].
  intros item bs _ (_ & -> & _).
  apply Forall_map_In. intros p _. split; vm_compute; reflexivity.
Qed.

(** X17. The titles and explanations of [to_friendly].  An issue of the
    structural or of the lexicon engine gets the title that [_RULE_LABELS]
    or [_LEX_LABELS] has for its rule id: every rule id these engines emit
    is a key of the table.  Its explanation is the evidence of the engine,
    which is never empty, so the explanations of these two tables are never
    shown.  An issue of the spelling model gets the default title and the
    evidence of the engine; an issue of the pattern engine gets the default
    title, and the default explanation when its rule has no hint; a term
    issue gets the title of [_TERM_LABELS], and the explanation of that
    table when its entry has no hint. *)
Theorem friendly_labels (t : text) :
  Forall (fun i => titled _RULE_LABELS t i /\ shows_evidence t i)
         (Rules.run_rule_checks t) /\
  (forall conf valid,
     Forall (fun i => titled _LEX_LABELS t i /\ shows_evidence t i)
            (Lexicon.run_lex_checks conf valid t)) /\
  (forall model,
     Forall (fun i => kind (friendly_of t i) = fst default_label /\
                      shows_evidence t i)
            (Csc.run_csc model t)) /\
  (forall rules,
     Forall (fun i => kind (friendly_of t i) = fst default_label /\
                      (evidence i = [] ->
                       note (friendly_of t i) = snd default_label) /\
                      (evidence i <> [] -> note (friendly_of t i) = evidence i))
            (Patterns.run_pattern_checks rules t)) /\
  (forall entries l,
     Terms.run_term_checks entries t = Some l ->
     Forall (fun i => titled _TERM_LABELS t i /\
                      (evidence i = [] ->
                       snd <$> table_get _TERM_LABELS (rule_id i)
                       = Some (note (friendly_of t i))) /\
                      (evidence i <> [] -> note (friendly_of t i) = evidence i))
            l).
Proof.
  split; [apply rule_labels|]. split; [intros conf valid; apply lex_labels|].
  split; [intros model; apply csc_labels|]. split.
  - intros rules. eapply Forall_impl; [apply pattern_labels|].
    intros i Hi. unfold friendly_of. cbn [kind note]. rewrite Hi.
    split; [done|]. split; intros He.
    + by rewrite bool_decide_eq_true_2.
    + by rewrite bool_decide_eq_false_2.
  - intros entries l Hrun. eapply Forall_impl; [by eapply term_labels|].
    intros i [Htitle Hexplain]. split; [done|].
    unfold friendly_of. cbn [note]. split; intros He.
    + by rewrite bool_decide_eq_true_2.
    + by rewrite bool_decide_eq_false_2.
Qed.

End FriendlyLabels.

(** ** The snippets of the structural issues (friendly.py, rules.py) *)

Lemma py_slice_app (t : text) (a b c : Z) :
  0 <= a <= b -> b <= c -> py_slice t a b ++ py_slice t b c = py_slice t a c.
Proof.
  intros Hab Hbc. unfold py_slice, slice_index.
  destruct (Z.ltb_spec a 0); [lia|]. destruct (Z.ltb_spec b 0); [lia|].
  destruct (Z.ltb_spec c 0); [lia|].
  set (n := len t). pose proof (len_nonneg t). fold n in H2.
  replace (Z.to_nat (Z.min b n))
    with (Z.to_nat (Z.min a n) + Z.to_nat (Z.min b n - Z.min a n))%nat by lia.
  rewrite <- drop_drop, take_take_drop. f_equal. lia.
Qed.

Lemma cjk_not_space (c : char) : Rules.is_cjk c = true -> isspace c = false.
Proof.
  unfold Rules.is_cjk, isspace. intros [H1 H2]%andb_prop.
  apply N.leb_le in H1, H2.
  repeat match goal with
         | |- context [(?x <=? ?y)%N] => destruct (N.leb_spec x y); try lia
         | |- context [(?x =? ?y)%N] => destruct (N.eqb_spec x y); try lia
         end; reflexivity.
Qed.

Lemma opener_not_space (c : char) : opener c -> isspace c = false.
Proof.
  intros [c' Hin]. unfold closes, Rules.pairs in Hin. simpl in Hin.
  repeat (destruct Hin as [[= <- <-]|Hin]; [by vm_compute|]). done.
Qed.

Lemma closer_not_space (c : char) : closer c -> isspace c = false.
Proof.
  intros [o Hin]. unfold closes, Rules.pairs in Hin. simpl in Hin.
  repeat (destruct Hin as [[= <- <-]|Hin]; [by vm_compute|]). done.
Qed.

(** A text of which [strip] leaves nothing is whitespace. *)
Lemma strip_nil_spaces (x : text) : strip x = [] -> spaces x.
Proof.
  intros Hx. destruct (strip_spec x) as (l & r & Heq & Hl & Hr).
  rewrite Hx in Heq. rewrite Heq. by apply Forall_app.
Qed.

(** The two rules whose hits are runs of whitespace. *)
Definition whitespace_rule (rid : string) : bool :=
  String.eqb rid "multi_space" || String.eqb rid "space_before_cn_punct".

(** The span of an issue is not empty, and its hit is whitespace only if
    its rule is one of the two whitespace rules. *)
Definition hit_kind (i : issue) : Prop :=
  begin i < end_ i /\
  if whitespace_rule (rule_id i) then spaces (hit_text i)
  else ~ spaces (hit_text i).

Lemma not_spaces_head (c : char) (x : text) :
  isspace c = false -> ~ spaces (c :: x).
Proof. intros Hc Hs. apply Forall_cons in Hs as [Hc' _]. congruence. Qed.

Lemma bracket_hit_kinds (t : text) : Forall hit_kind (Rules.bracket_issues t).
Proof.
  unfold Rules.bracket_issues.
  destruct (bracket_loop_positions t t 0 []) as [[Hst _] [Hout _]];
    [lia|done|by split; constructor|].
  destruct (Rules.bracket_loop t 0 t []) as [stack out]. cbn [fst snd] in *.
  apply Forall_app. split.
  - eapply Forall_impl; [exact Hout|]. intros i (_ & c & -> & _ & Hc).
    split; [cbn; lia|]. by apply not_spaces_head, closer_not_space.
  - apply Forall_map_In. intros [c idx] Hin. apply in_rev in Hin.
    pose proof (Forall_In _ _ _ Hst Hin) as (_ & _ & Hc).
    split; [cbn; lia|]. by apply not_spaces_head, opener_not_space.
Qed.

Lemma particle_hit_kinds (t : text) (rid : string) (p : char) (hit ev : text)
    (sug : list text) (conf : Q) :
  whitespace_rule rid = false -> ~ spaces hit ->
  Forall hit_kind
    (map (Rules.particle_issue rid t hit ev sug conf)
         (Rules.finditer (Rules.particle_at p) t)).
Proof.
  intros Hrid Hhit. apply Forall_map_In. intros m _. split; [cbn; lia|].
  cbn [rule_id hit_text Rules.particle_issue Rules._make_issue].
  by rewrite Hrid.
Qed.

Lemma rule_hit_kinds (t : text) : Forall hit_kind (Rules.run_rule_checks t).
Proof.
  unfold Rules.run_rule_checks. case_bool_decide; [constructor|].
  repeat (apply Forall_app; split).
  - apply Forall_map_In. intros [b e] Hin.
    apply finditer_spec in Hin as (Hb & Hbe & Hm).
    pose proof (multi_space_at_le _ _ Hm) as Hle. rewrite length_drop in Hle.
    unfold Rules.multi_space_at in Hm.
    destruct (run_length_spec (fun c => (c =? 12288)%N || isspace c) (drop b t))
      as [Hall _].
    destruct (Nat.leb_spec 2 (Rules.run_length
                (fun c => (c =? 12288)%N || isspace c) (drop b t)));
      [|done].
    injection Hm as Hm. rewrite Hm in Hall, H0.
    split; [cbn; lia|]. change (whitespace_rule _) with true. cbn iota.
    cbn [hit_text Rules.match_issue Rules._make_issue fst snd].
    rewrite match_hit by lia.
    eapply Forall_impl; [exact Hall|]. intros c Hc. cbn beta in Hc.
    apply orb_prop in Hc as [->%N.eqb_eq|Hc]; [reflexivity|done].
  - apply Forall_map_In. intros [b e] Hin.
    apply finditer_spec in Hin as (Hb & Hbe & Hm).
    pose proof (space_before_cn_punct_at_le _ _ Hm) as Hle.
    rewrite length_drop in Hle.
    unfold Rules.space_before_cn_punct_at in Hm.
    destruct (run_length_spec isspace (drop b t)) as [Hall _].
    destruct (Nat.leb_spec 1 (Rules.run_length isspace (drop b t))); [|done].
    assert (Rules.run_length isspace (drop b t) = (e - b)%nat) as Hn
      by (repeat case_match; congruence).
    rewrite Hn in Hall, H0.
    split; [cbn; lia|]. change (whitespace_rule _) with true. cbn iota.
    cbn [hit_text Rules.match_issue Rules._make_issue fst snd].
    by rewrite match_hit by lia.
  - apply Forall_map_In. intros [b e] Hin.
    apply finditer_spec in Hin as (Hb & Hbe & Hm).
    pose proof (repeat_char_at_le _ _ Hm) as Hle. rewrite length_drop in Hle.
    unfold Rules.repeat_char_at in Hm.
    destruct (drop b t) as [|c s'] eqn:Hd; [done|].
    destruct (Rules.is_cjk c) eqn:Hc; [|done].
    destruct (Nat.leb_spec 1 (Rules.run_length (N.eqb c) s')); [|done].
    injection Hm as Hm.
    split; [cbn; lia|]. change (whitespace_rule _) with false. cbn iota.
    cbn [hit_text Rules.match_issue Rules._make_issue fst snd].
    rewrite match_hit by lia. rewrite Hd, <- Hm. cbn [take].
    by apply not_spaces_head, cjk_not_space.
  - apply bracket_hit_kinds.
  - apply particle_hit_kinds; [reflexivity|].
    apply not_spaces_head. by vm_compute.
  - apply particle_hit_kinds; [reflexivity|].
    apply not_spaces_head. by vm_compute.
  - apply particle_hit_kinds; [reflexivity|].
    apply not_spaces_head. by vm_compute.
Qed.

Section FriendlyFragments.
Import Friendly.

(** What the snippet shows between the marks. *)
Definition shown_hit (i : issue) : text :=
  if whitespace_rule (rule_id i) then utf8 "空格" else hit_text i.

(** X18. The snippet and the position that [to_friendly] gives an issue
    of the structural engine.  The snippet is the sixteen characters of the
    text before the span, the hit between the marks, and the sixteen
    characters after the span; the hit is shown as it is, except for the
    two whitespace rules, whose hits are always shown as the word for a
    blank.  The three parts without the marks are the text from sixteen
    characters before the span to sixteen after it.  The span is never
    empty, so the position is always given as a range, from [begin + 1] to
    [end]. *)
Theorem structural_fragments (t : text) :
  Forall (fun i =>
            let f := friendly_of t i in
            let l := py_slice t (Z.max 0 (begin i - 16)) (begin i) in
            let r := py_slice t (end_ i) (end_ i + 16) in
            fragment f = l ++ utf8 "【" ++ shown_hit i ++ utf8 "】" ++ r /\
            l ++ hit_text i ++ r
            = py_slice t (Z.max 0 (begin i - 16)) (end_ i + 16) /\
            len l = Z.min 16 (begin i) /\
            len r = Z.min 16 (len t - end_ i) /\
            position f = utf8 "第 " ++ str_int (begin i + 1) ++ utf8 "–"
                         ++ str_int (end_ i) ++ utf8 " 个字符")
         (Rules.run_rule_checks t).
Proof.
  pose proof (rule_issues_ok t) as Hok. pose proof (rule_hit_kinds t) as Hkind.
  rewrite Forall_forall in Hok, Hkind. apply Forall_forall. intros i Hi.
  destruct (Hok i Hi) as (Hbe & He & Hhit).
  destruct (Hkind i Hi) as [Hlt Hsp].
  cbn zeta. split; [|split; [|split; [|split]]].
  - unfold friendly_of. cbn [fragment]. unfold _mark_context, shown_hit.
    rewrite <- Hhit.
    assert (hit_text i <> []) as Hne.
    { intros Hnil.
      pose proof (py_slice_length t _ _ (proj1 Hbe) (proj2 Hbe) He) as Hlen.
      rewrite <- Hhit, Hnil in Hlen. unfold len in Hlen at 1. simpl in Hlen. lia. }
    destruct (whitespace_rule (rule_id i)).
    + rewrite (strip_spaces _ Hsp), bool_decide_eq_true_2 by done.
      by rewrite bool_decide_eq_false_2.
    + rewrite bool_decide_eq_false_2; [done|].
      intros Hs. by apply Hsp, strip_nil_spaces.
  - rewrite Hhit, py_slice_app by lia. apply py_slice_app; lia.
  - rewrite py_slice_len by lia. lia.
  - rewrite py_slice_len by lia. lia.
  - unfold friendly_of. cbn [position].
    destruct (Z.ltb_spec (begin i) (end_ i)); [done|lia].
Qed.

End FriendlyFragments.

Lemma friendly_labels_witness :
  exists l,
    Terms.run_term_checks [sample_entry] (utf8 "abcab") = Some l /\
    Forall (titled Friendly._TERM_LABELS (utf8 "abcab")) l.
Proof.
  destruct (Terms.run_term_checks [sample_entry] (utf8 "abcab")) as [l|] eqn:E;
    [|vm_compute in E; discriminate].
  exists l. split; [reflexivity|].
  destruct (friendly_labels (utf8 "abcab")) as (_ & _ & _ & _ & Hterm).
  eapply Forall_impl; [exact (Hterm [sample_entry] l E)|].
  intros i Hi. exact (proj1 Hi).
Defined.

(** ** The two loops of the lexicon engine (lexicon.py) *)

Section LexLoops.
Import Lexicon.
Variable CONFUSION : gmap char (list text).
Variable VALID_WORDS : gset text.

Lemma confusion_loop_ascending (t s : text) :
  forall idx,
    StronglySorted (fun i j => begin i < begin j)
                   (confusion_loop CONFUSION t idx s).
Proof.
  induction s as [|c s IH]; intros idx; cbn [confusion_loop]; [constructor|].
  assert (Forall (fun j => idx + 1 <= begin j)
                 (confusion_loop CONFUSION t (idx + 1) s)) as Hrest.
  { apply Forall_forall. intros j Hj%list_elem_of_In.
    by apply confusion_loop_begin in Hj. }
  unfold confusion_char. destruct (CONFUSION !! c) as [alts|]; [|apply IH].
  destruct (filter _ alts) as [|alt rest]; [apply IH|].
  cbn [app]. constructor; [apply IH|].
  eapply Forall_impl; [exact Hrest|]. intros j Hj. cbn beta in Hj. cbn [begin _make_issue]. lia.
Qed.

Lemma bigram_windows_ascending (t : text) (n : nat) :
  forall start,
    StronglySorted (fun i j => begin i < begin j)
                   (flat_map (bigram_at CONFUSION VALID_WORDS t) (seq start n)) /\
    Forall (fun j => Z.of_nat start <= begin j)
           (flat_map (bigram_at CONFUSION VALID_WORDS t) (seq start n)).
Proof.
  induction n as [|n IH]; intros start; cbn [seq flat_map].
  - split; constructor.
  - destruct (IH (S start)) as [Hs Hf].
    assert (Forall (fun j => Z.of_nat start + 1 <= begin j)
              (flat_map (bigram_at CONFUSION VALID_WORDS t) (seq (S start) n)))
      as Hf' by (eapply Forall_impl; [exact Hf|]; intros j Hj; cbn beta in *; lia).
    unfold bigram_at at 1 3.
    destruct (smart_sug CONFUSION VALID_WORDS _) as [|cand rest]; cbn [app].
    + split; [done|]. eapply Forall_impl; [exact Hf'|]. intros j Hj.
      cbn beta in *. lia.
    + split.
      * constructor; [done|]. eapply Forall_impl; [exact Hf'|].
        intros j Hj. cbn beta in Hj. cbn [begin _make_issue]. lia.
      * constructor; [cbn [begin _make_issue]; lia|]. eapply Forall_impl; [exact Hf'|].
        intros j Hj. cbn beta in *. lia.
Qed.

Lemma substitute_same (w : text) (p : nat) (c : char) :
  w !! p = Some c -> substitute w p [c] = w.
Proof.
  intros Hc. unfold substitute. cbn [app].
  rewrite <- (take_drop_middle w p c Hc) at 3. done.
Qed.

(** The first loop reports the character at [k] when the table has an
    alternative for it that is not the character itself. *)
Lemma confusion_loop_reports (t s : text) :
  forall (i0 : Z) (k : nat) (c : char) (alt : text),
    s !! k = Some c -> In alt (confusion_get CONFUSION c) -> alt <> [c] ->
    exists y, In y (confusion_loop CONFUSION t i0 s) /\
              rule_id y = "confusion_char"%string /\
              begin y = i0 + Z.of_nat k.
Proof.
  induction s as [|a s IH]; intros i0 k c alt Hc Halt Hne; [done|].
  cbn [confusion_loop]. destruct k as [|k]; simpl in Hc.
  - injection Hc as ->. unfold confusion_get in Halt. unfold confusion_char.
    destruct (CONFUSION !! c) as [alts|]; [|done]. simpl in Halt.
    assert (alt ∈ filter (fun x => x <> [c]) alts) as Hmem
      by (apply list_elem_of_filter; split; [done|by apply list_elem_of_In]).
    destruct (filter (fun x => x <> [c]) alts) as [|alt' rest];
      [by apply elem_of_nil in Hmem|].
    eexists. split; [by left|]. split; [reflexivity|]. cbn [begin _make_issue]. lia.
  - destruct (IH (i0 + 1) k c alt Hc Halt Hne) as (y & Hy & Hr & Hb).
    exists y. split; [apply in_app_iff; by right|]. split; [done|]. lia.
Qed.

(** X19. [run_lex_checks] returns the [confusion_char] issues, then the
    [confusion_bigram_suggested] issues, each group in strictly increasing
    order of [begin]; and the second loop fires only where the first one
    does: every bigram issue covers a character that has a
    [confusion_char] issue of its own. *)
Theorem lex_loops (t : text) :
  exists chars bigrams,
    run_lex_checks CONFUSION VALID_WORDS t = chars ++ bigrams /\
    Forall (with_rule "confusion_char") chars /\
    Forall (with_rule "confusion_bigram_suggested") bigrams /\
    StronglySorted (fun i j => begin i < begin j) chars /\
    StronglySorted (fun i j => begin i < begin j) bigrams /\
    Forall (fun x => exists y, In y chars /\ begin x <= begin y < end_ x)
           bigrams.
Proof.
  unfold run_lex_checks. case_bool_decide as Ht.
  { exists [], []. repeat split; constructor. }
  exists (confusion_loop CONFUSION t 0 t), (bigram_loop CONFUSION VALID_WORDS t).
  split; [done|]. split; [|split; [|split; [|split]]].
  - apply Forall_forall. intros x Hx%list_elem_of_In.
    assert (forall s idx, In x (confusion_loop CONFUSION t idx s) ->
                          with_rule "confusion_char" x) as Hl.
    { induction s as [|c s IH]; intros idx; cbn [confusion_loop]; [done|].
      rewrite in_app_iff. intros [Hc|Hs]; [|by eapply IH].
      by apply confusion_char_begin in Hc as [_ ?]. }
    by eapply Hl.
  - apply Forall_forall. intros x Hx%list_elem_of_In.
    apply bigram_loop_In in Hx as (i & _ & Hx). by apply bigram_at_rule in Hx.
  - apply confusion_loop_ascending.
  - apply bigram_windows_ascending.
  - apply Forall_forall. intros x Hx%list_elem_of_In.
    apply bigram_loop_In in Hx as (i & Hi & Hx).
    destruct (window_slice t i Hi) as (a & b & Ha & Hb & Hw).
    unfold bigram_at in Hx. rewrite Hw in Hx.
    destruct (smart_sug CONFUSION VALID_WORDS [a; b]) as [|cand rest] eqn:Hs;
      [done|].
    destruct Hx as [<-|[]].
    assert (In cand (smart_sug CONFUSION VALID_WORDS [a; b])) as Hcand
      by (rewrite Hs; by left).
    apply smart_sug_In in Hcand
      as (p & c & alt & Hp & Hc & Halt & Hsub & _ & Hne).
    assert (alt <> [c]) as Halt'.
    { intros ->. apply Hne. rewrite Hsub. by apply substitute_same. }
    assert (t !! (i + p)%nat = Some c) as Htc.
    { destruct Hp as [-> | ->]; simpl in Hc; injection Hc as <-.
      - by rewrite Nat.add_0_r.
      - by replace (i + 1)%nat with (S i) by lia. }
    destruct (confusion_loop_reports t t 0 (i + p) c alt Htc Halt Halt')
      as (y & Hy & _ & Hb').
    exists y. split; [done|]. cbn [begin end_ _make_issue].
    destruct Hp as [-> | ->]; lia.
Qed.

End LexLoops.

(** * The caches of the process *)

(** The engines load their configuration on first use and keep it in module
    globals.  [Process] threads these globals through the engines and
    through [api_check]; what loading gives at the time of a call is read
    from an [App.config], the environment of the call: the rules and the
    term entries that are in the data files then, and the model that can be
    built then. *)
Module Process.

Record caches := {
  _TERMS_CACHE : list Terms.TermEntry;
  _REGEX_RULES : option (list Patterns.RegexRule);
  _POS_RULES : option (list PosPatterns.PosRule);
  _CSC_MODEL : option (text -> result (text * list Csc.detail))
}.

(** The globals of a fresh process. *)
Definition fresh : caches :=
  {| _TERMS_CACHE := []; _REGEX_RULES := None; _POS_RULES := None;
     _CSC_MODEL := None |}.

(** terms.py: [load_terms] returns the cache when it is not empty, and
    otherwise reads the file and stores what it read. *)
Definition load_terms (env : App.config) (cs : caches)
    : list Terms.TermEntry * caches :=
  match _TERMS_CACHE cs with
  | _ :: _ => (_TERMS_CACHE cs, cs)
  | [] =>
    let terms := Terms.load_terms (App.invalid_terms env) in
    (terms, {| _TERMS_CACHE := terms; _REGEX_RULES := _REGEX_RULES cs;
               _POS_RULES := _POS_RULES cs; _CSC_MODEL := _CSC_MODEL cs |})
  end.

Definition run_term_checks (env : App.config) (cs : caches) (t : text)
    : option (list issue) * caches :=
  if bool_decide (t = []) then (Some [], cs)
  else
    let '(terms, cs') := load_terms env cs in
    match terms with
    | [] => (Some [], cs')
    | _ :: _ => (Terms.term_loops (S (length t)) t terms, cs')
    end.

(** patterns.py: the rules are loaded when the global is [None]. *)
Definition run_pattern_checks (env : App.config) (cs : caches) (t : text)
    : list issue * caches :=
  let rules := default (App._REGEX_RULES env) (_REGEX_RULES cs) in
  (Patterns.run_pattern_checks rules t,
   {| _TERMS_CACHE := _TERMS_CACHE cs; _REGEX_RULES := Some rules;
      _POS_RULES := _POS_RULES cs; _CSC_MODEL := _CSC_MODEL cs |}).

(** pos_patterns.py: nothing is loaded without a tagger; with one, the
    rules are loaded before the text is looked at, and stay loaded when the
    tagger or a pattern raises. *)
Definition run_pos_checks (env : App.config) (cs : caches) (t : text)
    : result (list issue) * caches :=
  match App.pseg env with
  | None => (Ok [], cs)
  | Some cut =>
    let rules := default (App._POS_RULES env) (_POS_RULES cs) in
    (PosPatterns.run_pos_checks (Some cut) rules t,
     {| _TERMS_CACHE := _TERMS_CACHE cs; _REGEX_RULES := _REGEX_RULES cs;
        _POS_RULES := Some rules; _CSC_MODEL := _CSC_MODEL cs |})
  end.

(** csc.py: [load_csc_model] does nothing when a model is loaded; when no
    model can be built the global stays [None]. *)
Definition load_csc_model (env : App.config) (cs : caches) : caches :=
  match _CSC_MODEL cs with
  | Some _ => cs
  | None =>
    {| _TERMS_CACHE := _TERMS_CACHE cs; _REGEX_RULES := _REGEX_RULES cs;
       _POS_RULES := _POS_RULES cs; _CSC_MODEL := App._CSC_MODEL env |}
  end.

Definition run_csc (env : App.config) (cs : caches) (t : text)
    : list issue * caches :=
  let cs' := load_csc_model env cs in
  (Csc.run_csc (_CSC_MODEL cs') t, cs').

(** app.py: a guarded block around an engine that may change the globals;
    what the engine changed before it raised stays changed. *)
Definition guarded (modes : json) (key : string)
    (engine : caches -> result (list issue) * caches) (cs : caches)
    : list issue * caches :=
  match App.modes_get modes key with
  | Ok flag =>
    if truthy flag
    then let '(r, cs') := engine cs in (try_except r [], cs')
    else ([], cs)
  | Raise => ([], cs)
  end.

Definition api_check (env : App.config) (cs : caches) (req : App.request)
    : option (App.response * caches) :=
  let t := strip (default [] (App.req_text req)) in
  let modes := App.modes_of req in
  let '(i1, cs1) :=
    guarded modes "rule" (fun cs => (Ok (Rules.run_rule_checks t), cs)) cs in
  let '(i2, cs2) :=
    guarded modes "lex"
      (fun cs => (Ok (Lexicon.run_lex_checks (App.CONFUSION env)
                        (App.VALID_WORDS env) t), cs)) cs1 in
  let '(i3, cs3) :=
    guarded modes "pat"
      (fun cs => let '(l, cs') := run_pattern_checks env cs t in (Ok l, cs'))
      cs2 in
  let '(i4, cs4) := guarded modes "pos" (fun cs => run_pos_checks env cs t) cs3 in
  let '(i5, cs5) :=
    guarded modes "csc"
      (fun cs => let '(l, cs') := run_csc env cs t in (Ok l, cs')) cs4 in
  let '(terms, cs6) := run_term_checks env cs5 t in
  found ← terms;
  let sorted := sort_by begin (i1 ++ i2 ++ i3 ++ i4 ++ i5 ++ found) in
  Some ({| App.issues := sorted; App.summary := App.summarize sorted |}, cs6).

(** The configuration that a request sees: what is cached, and for the rest
    what loading gives in the environment of the request. *)
Definition effective (env : App.config) (cs : caches) : App.config :=
  {| App.CONFUSION := App.CONFUSION env;
     App.VALID_WORDS := App.VALID_WORDS env;
     App._REGEX_RULES := default (App._REGEX_RULES env) (_REGEX_RULES cs);
     App._POS_RULES := default (App._POS_RULES env) (_POS_RULES cs);
     App.invalid_terms :=
       match _TERMS_CACHE cs with
       | _ :: _ => _TERMS_CACHE cs
       | [] => Terms.load_terms (App.invalid_terms env)
       end;
     App.pseg := App.pseg env;
     App._CSC_MODEL :=
       match _CSC_MODEL cs with
       | Some m => Some m
       | None => App._CSC_MODEL env
       end |}.

End Process.

Section Caches.
Import Process.
Variable env : App.config.

(** Every cached term is a loaded one: its literal is not empty. *)
Definition cache_ok (cs : caches) : Prop :=
  Forall (fun item => Terms.term item <> []) (_TERMS_CACHE cs).

(** A cache that is filled keeps its content. *)
Definition kept (cs cs' : caches) : Prop :=
  (_TERMS_CACHE cs <> [] -> _TERMS_CACHE cs' = _TERMS_CACHE cs) /\
  (forall rules, _REGEX_RULES cs = Some rules -> _REGEX_RULES cs' = Some rules) /\
  (forall rules, _POS_RULES cs = Some rules -> _POS_RULES cs' = Some rules) /\
  (forall model, _CSC_MODEL cs = Some model -> _CSC_MODEL cs' = Some model).

(** A step from [cs] to [cs'] that loads from the environment [env]. *)
Definition loads (cs cs' : caches) : Prop :=
  effective env cs' = effective env cs /\ kept cs cs' /\
  (cache_ok cs -> cache_ok cs').

Lemma loads_refl (cs : caches) : loads cs cs.
Proof. split; [done|]. split; [|done]. by repeat split. Qed.

Lemma loads_trans (a b c : caches) : loads a b -> loads b c -> loads a c.
Proof.
  intros (He1 & (K1 & K2 & K3 & K4) & Ho1) (He2 & (L1 & L2 & L3 & L4) & Ho2).
  split; [congruence|]. split; [|auto]. repeat split.
  - intros Hne. rewrite L1, K1; [done|done|]. by rewrite K1.
  - intros rules Hr. by apply L2, K2.
  - intros rules Hr. by apply L3, K3.
  - intros model Hm. by apply L4, K4.
Qed.

Lemma load_terms_loads (cs : caches) :
  (load_terms env cs).1 = App.invalid_terms (effective env cs) /\
  loads cs (load_terms env cs).2.
Proof.
  unfold load_terms. destruct (_TERMS_CACHE cs) as [|item cache] eqn:Hc.
  - cbn [fst snd]. split; [unfold effective; cbn; by rewrite Hc|].
    split; [|split].
    + unfold effective. cbn [_TERMS_CACHE _REGEX_RULES _POS_RULES _CSC_MODEL].
      rewrite Hc. by destruct (Terms.load_terms (App.invalid_terms env)).
    + repeat split; try done; by rewrite Hc.
    + intros _. apply load_terms_nonempty.
  - cbn [fst snd]. split; [unfold effective; cbn; by rewrite Hc|].
    apply loads_refl.
Qed.

Lemma run_term_checks_loads (cs : caches) (t : text) :
  cache_ok cs ->
  (run_term_checks env cs t).1
  = Terms.run_term_checks (App.invalid_terms (effective env cs)) t /\
  loads cs (run_term_checks env cs t).2.
Proof.
  intros Hok. unfold run_term_checks, Terms.run_term_checks.
  case_bool_decide; [split; [done|apply loads_refl]|].
  destruct (load_terms_loads cs) as [Hterms Hloads].
  destruct (load_terms env cs) as [terms cs'] eqn:E. cbn [fst snd] in *.
  assert (Terms.load_terms terms = terms) as Hid.
  { unfold Terms.load_terms. apply filter_all. subst terms.
    unfold effective. cbn [App.invalid_terms].
    destruct (_TERMS_CACHE cs) as [|item cache] eqn:Hc.
    - apply load_terms_nonempty.
    - unfold cache_ok in Hok. by rewrite Hc in Hok. }
  rewrite <- Hterms, Hid. by destruct terms.
Qed.

Lemma run_pattern_checks_loads (cs : caches) (t : text) :
  (run_pattern_checks env cs t).1
  = Patterns.run_pattern_checks (App._REGEX_RULES (effective env cs)) t /\
  loads cs (run_pattern_checks env cs t).2.
Proof.
  unfold run_pattern_checks. cbn [fst snd]. split; [done|].
  split; [done|]. split; [|done].
  repeat split; try done; cbn [_REGEX_RULES]; by intros rules ->.
Qed.

Lemma run_pos_checks_loads (cs : caches) (t : text) :
  (run_pos_checks env cs t).1
  = PosPatterns.run_pos_checks (App.pseg (effective env cs))
      (App._POS_RULES (effective env cs)) t /\
  loads cs (run_pos_checks env cs t).2.
Proof.
  unfold run_pos_checks. cbn [effective App.pseg App._POS_RULES].
  destruct (App.pseg env) as [cut|]; cbn [fst snd].
  - split; [done|]. split; [done|]. split; [|done].
    repeat split; try done; cbn [_POS_RULES]; by intros rules ->.
  - split; [done|apply loads_refl].
Qed.

Lemma run_csc_loads (cs : caches) (t : text) :
  (run_csc env cs t).1 = Csc.run_csc (App._CSC_MODEL (effective env cs)) t /\
  loads cs (run_csc env cs t).2.
Proof.
  unfold run_csc, load_csc_model. cbn [fst snd effective App._CSC_MODEL].
  destruct (_CSC_MODEL cs) as [model|] eqn:Hm.
  - split; [by rewrite Hm|apply loads_refl].
  - cbn [_CSC_MODEL]. split; [done|]. split; [|split; [|done]].
    + unfold effective. cbn [_TERMS_CACHE _REGEX_RULES _POS_RULES _CSC_MODEL].
      rewrite Hm. by destruct (App._CSC_MODEL env).
    + repeat split; try done; by rewrite Hm.
Qed.

Lemma guarded_loads (modes : json) (key : string)
    (engine : caches -> result (list issue) * caches) (cs : caches) :
  loads cs (engine cs).2 ->
  (guarded modes key engine cs).1 = App.guarded modes key (engine cs).1 /\
  loads cs (guarded modes key engine cs).2.
Proof.
  intros Hl. unfold guarded, App.guarded.
  destruct (App.modes_get modes key) as [flag|]; cbn [rbind try_except];
    [|split; [done|apply loads_refl]].
  destruct (truthy flag); [|split; [done|apply loads_refl]].
  by destruct (engine cs) as [r cs'].
Qed.

(** X20. The caches of the process.  From any state of the caches in
    which the cached terms are loaded terms, [api_check] answers a request
    as the aggregator does for the configuration in effect: what is cached,
    and for what is not cached what loading gives at the time of the
    request.  The request leaves the configuration in effect as it is,
    and a cache that is filled keeps its content: a list of rules, once
    loaded (even an empty one), and a model, once built, are not loaded
    again, whereas the term list is read again as long as no term has been
    loaded, and building the model is tried again as long as it failed. *)
Theorem caches_refine (cs : caches) (req : App.request) :
  cache_ok cs ->
  exists resp cs',
    api_check env cs req = Some (resp, cs') /\
    App.api_check (effective env cs) req = Some resp /\
    effective env cs' = effective env cs /\
    kept cs cs' /\ cache_ok cs'.
Proof.
  intros Hok. unfold api_check, App.api_check, App.collect.
  set (t := strip (default [] (App.req_text req))).
  set (modes := App.modes_of req).
  destruct (guarded_loads modes "rule"
              (fun cs => (Ok (Rules.run_rule_checks t), cs)) cs (loads_refl _))
    as [E1 L1].
  destruct (guarded modes "rule" _ cs) as [i1 cs1]. cbn [fst snd] in E1, L1.
  destruct (guarded_loads modes "lex"
              (fun cs => (Ok (Lexicon.run_lex_checks (App.CONFUSION env)
                                (App.VALID_WORDS env) t), cs)) cs1
              (loads_refl _)) as [E2 L2].
  destruct (guarded modes "lex" _ cs1) as [i2 cs2]. cbn [fst snd] in E2, L2.
  pose proof (loads_trans _ _ _ L1 L2) as M2.
  destruct (run_pattern_checks_loads cs2 t) as [P3 Q3].
  destruct (guarded_loads modes "pat"
              (fun cs => let '(l, cs') := run_pattern_checks env cs t in
                         (Ok l, cs')) cs2) as [E3 L3].
  { by destruct (run_pattern_checks env cs2 t). }
  destruct (guarded modes "pat" _ cs2) as [i3 cs3]. cbn [fst snd] in E3, L3.
  assert (i3 = App.guarded modes "pat"
                 (Ok (Patterns.run_pattern_checks
                        (App._REGEX_RULES (effective env cs2)) t))) as E3'.
  { rewrite E3, <- P3. by destruct (run_pattern_checks env cs2 t). }
  pose proof (loads_trans _ _ _ M2 L3) as M3.
  destruct (run_pos_checks_loads cs3 t) as [P4 Q4].
  destruct (guarded_loads modes "pos" (fun cs => run_pos_checks env cs t) cs3 Q4)
    as [E4 L4].
  destruct (guarded modes "pos" _ cs3) as [i4 cs4]. cbn [fst snd] in E4, L4.
  rewrite P4 in E4.
  pose proof (loads_trans _ _ _ M3 L4) as M4.
  destruct (run_csc_loads cs4 t) as [P5 Q5].
  destruct (guarded_loads modes "csc"
              (fun cs => let '(l, cs') := run_csc env cs t in (Ok l, cs')) cs4)
    as [E5 L5].
  { by destruct (run_csc env cs4 t). }
  destruct (guarded modes "csc" _ cs4) as [i5 cs5]. cbn [fst snd] in E5, L5.
  assert (i5 = App.guarded modes "csc"
                 (Ok (Csc.run_csc (App._CSC_MODEL (effective env cs4)) t)))
    as E5'.
  { rewrite E5, <- P5. by destruct (run_csc env cs4 t). }
  pose proof (loads_trans _ _ _ M4 L5) as M5.
  destruct (run_term_checks_loads cs5 t (proj2 (proj2 M5) Hok)) as [P6 Q6].
  destruct (run_term_checks env cs5 t) as [terms cs6]. cbn [fst snd] in P6, Q6.
  pose proof (loads_trans _ _ _ M5 Q6) as (He & Hk & Hc).
  rewrite (proj1 M2) in E3'. rewrite (proj1 M3) in E4.
  rewrite (proj1 M4) in E5'. rewrite (proj1 M5) in P6.
  clear E3 E5. subst i1 i2 i3 i4 i5 terms.
  destruct (run_term_checks_hits (App.invalid_terms (effective env cs)) t)
    as (per & Hrun & _).
  rewrite Hrun. cbn [mbind option_bind].
  eexists _, cs6. split; [reflexivity|]. split; [reflexivity|].
  split; [exact He|]. split; [exact Hk|]. by apply Hc.
Qed.

End Caches.

Lemma caches_refine_witness :
  exists resp cs',
    Process.api_check tie_cfg Process.fresh plain_req = Some (resp, cs') /\
    App.api_check (Process.effective tie_cfg Process.fresh) plain_req
    = Some resp /\
    kept Process.fresh cs'.
Proof.
  assert (cache_ok Process.fresh) as Hok by constructor.
  destruct (caches_refine tie_cfg Process.fresh plain_req Hok)
    as (resp & cs' & H1 & H2 & _ & H4 & _).
  exists resp, cs'. split; [exact H1|]. split; [exact H2|exact H4].
Defined.
